(** * Perceval incremental fetch engines: Gerrit (ssh) and Meetup (GraphQL)

    A shallow embedding of [perceval/backends/core/gerrit.py] and
    [perceval/backends/core/meetup.py]: the pagination loops, the retrying
    ssh transport with its record/replay archive, the archive-key
    sanitizers and the rate-limit wait, followed by the properties that the
    specification states about them.

    Conventions.
    - Python [int] is [Z]; a float timestamp compared with an [int] is a
      rational [Q] (Python compares the two exactly).
    - Python [str]/[bytes] are [string]; a character is a code point below
      256.
    - A function that may raise returns [result]; a function that has side
      effects takes and returns the [World] it acts on.
    - A generator is a function with fuel that returns the items yielded so
      far and how the generator ended ([Unfinished] when the fuel ran out
      before the Python loop did). The events walk of Meetup, whose
      consumer sends requests of its own between two events, is a
      suspended generator ([gen]) that is resumed in the world its consumer
      leaves.
    - Code of the repository that is not in the two files (the archive, the
      HTTP client and its rate-limit handler) is modelled from the
      specification and marked as such. *)

From Stdlib Require Import ZArith QArith Lia Ascii String List.
From stdpp Require Import base option gmap strings pretty.

Local Open Scope Z_scope.

(* ===================================================================== *)
(** * Exceptions and results *)

Inductive error : Type :=
  | BackendError (cause : string)
  | RuntimeError (msg : string)
  | ArchiveError (key : string)
  | TypeError
  | KeyError (key : string)
  | AttributeError
  | UnboundLocalError (var : string)
  | Exception (msg : string).

Inductive result (A : Type) : Type :=
  | Ok (a : A)
  | Raise (e : error).
Arguments Ok {A} a.
Arguments Raise {A} e.

Definition bind {A B} (r : result A) (k : A -> result B) : result B :=
  match r with
  | Ok a => k a
  | Raise e => Raise e
  end.

Notation "'let*' x ':=' r 'in' k" := (bind r (fun x => k))
  (at level 10, x name, r at level 100, k at level 200).

(** Code that acts on the world and may raise. *)
Definition M (W A : Type) : Type := W -> result A * W.

Definition ret {W A} (a : A) : M W A := fun w => (Ok a, w).
Definition raise {W A} (e : error) : M W A := fun w => (Raise e, w).
Definition lift {W A} (r : result A) : M W A := fun w => (r, w).

Definition bindM {W A B} (m : M W A) (k : A -> M W B) : M W B :=
  fun w =>
    match m w with
    | (Ok a, w') => k a w'
    | (Raise e, w') => (Raise e, w')
    end.

Notation "'let!' x ':=' m 'in' k" := (bindM m (fun x => k))
  (at level 10, x name, m at level 100, k at level 200).

(* ===================================================================== *)
(** * Python strings *)

Module Py.

(** Truth value of a [str] or [None]: [None] and the empty string are false. *)
Definition truthy (s : option string) : bool :=
  match s with
  | None => false
  | Some EmptyString => false
  | Some _ => true
  end.

(** [str(x)] (and [%s]) of an optional string: [None] prints as "None". *)
Definition str_opt (s : option string) : string :=
  match s with
  | None => "None"
  | Some s => s
  end.

(** [sep.join(l)] *)
Fixpoint join (sep : string) (l : list string) : string :=
  match l with
  | [] => ""
  | [x] => x
  | x :: l' => x +:+ sep +:+ join sep l'
  end.

(** [c.isspace()] for a code point below 256; this is what [\s] matches in
    a [str] pattern of [re], and [\S] is its complement. *)
Definition isspace (c : ascii) : bool :=
  let n := N_of_ascii c in
  ((9 <=? n) && (n <=? 13) || (28 <=? n) && (n <=? 32)
   || (n =? 133) || (n =? 160))%N.

(** No character of [s] is whitespace. *)
Fixpoint nospace (s : string) : bool :=
  match s with
  | EmptyString => true
  | String c s' => negb (isspace c) && nospace s'
  end.

(** ["\n"] *)
Definition newline : ascii := "010"%char.

(** The scan of [s.replace(old, new)] for an [old] that is not empty:
    where [old] occurs, emit [new] and resume after the occurrence,
    otherwise copy one character. [skip] counts the characters of the
    current occurrence that are still to be dropped. *)
Fixpoint replace_go (old new : string) (skip : nat) (s : string) : string :=
  match s with
  | EmptyString => EmptyString
  | String c s' =>
      match skip with
      | S k => replace_go old new k s'
      | O =>
          if String.prefix old s then
            new +:+ replace_go old new (String.length old - 1) s'
          else String c (replace_go old new O s')
      end
  end.

(** [new] after every character of [s]. *)
Fixpoint after_each (new s : string) : string :=
  match s with
  | EmptyString => EmptyString
  | String c s' => String c (new +:+ after_each new s')
  end.

(** [s.replace(old, new)]; an empty [old] occurs before every character
    and at the end. *)
Definition replace (old new s : string) : string :=
  match old with
  | EmptyString => new +:+ after_each new s
  | String _ _ => replace_go old new O s
  end.

(** [old in s] *)
Fixpoint contains (old s : string) : bool :=
  String.prefix old s
  || match s with
     | EmptyString => false
     | String _ s' => contains old s'
     end.

End Py.

(* ===================================================================== *)
(** * The regular expression of the Gerrit sanitizer *)

Module Re.

(** Length of the longest match of [\S*@] anchored at the head of [s]:
    the run of non-whitespace characters at the head of [s], cut after its
    last ["@"]. [*] is greedy, so [re] reports this longest match. *)
Fixpoint match_user (s : string) : option nat :=
  match s with
  | EmptyString => None
  | String c s' =>
      if Py.isspace c then None
      else match match_user s' with
           | Some n => Some (S n)
           | None => if Ascii.eqb c "@" then Some 1%nat else None
           end
  end.

(** [re.sub(r" \S*@", repl, s)]: scan [s] from the left; where the pattern
    matches, emit [repl] and resume after the match, otherwise copy one
    character. [skip] counts the characters of the current match that are
    still to be dropped. *)
Fixpoint sub_go (repl : string) (skip : nat) (s : string) : string :=
  match s with
  | EmptyString => EmptyString
  | String c s' =>
      match skip with
      | S k => sub_go repl k s'
      | O =>
          if Ascii.eqb c " " then
            match match_user s' with
            | Some n => repl +:+ sub_go repl n s'
            | None => String c (sub_go repl O s')
            end
          else String c (sub_go repl O s')
      end
  end.

Definition sub_user (repl s : string) : string := sub_go repl O s.

End Re.

(* ===================================================================== *)
(** * JSON values *)

Module Json.

(** What [json.loads] returns: [None], a [bool], an [int], a [float], a
    [str], a [list] or a [dict] (its items in insertion order). *)
#[local] Unset Elimination Schemes.
Inductive value : Type :=
  | Null
  | Bool (b : bool)
  | Int (n : Z)
  | Float (x : Q)
  | Str (s : string)
  | Array (l : list value)
  | Object (items : list (string * value)).
#[local] Set Elimination Schemes.

(** [key in d.keys()] *)
Definition has_key (key : string) (items : list (string * value)) : bool :=
  existsb (fun kv => String.eqb kv.1 key) items.

(** [for item in x]: the elements of a list, the keys of a dict, the
    characters of a string; anything else is not iterable. *)
Definition iter (x : value) : result (list value) :=
  match x with
  | Array l => Ok l
  | Object items => Ok (map (fun kv => Str kv.1) items)
  | Str s => Ok (map (fun c => Str (String c EmptyString)) (list_ascii_of_string s))
  | _ => Raise TypeError
  end.

End Json.

(* ===================================================================== *)
(** * The outside world of the Gerrit client *)

(** What the archive holds for a command: the bytes the command printed,
    or the [RuntimeError] object that ended it. *)
Inductive payload : Type :=
  | Data (raw : string)
  | Failure (msg : string).

(** Modelled from the spec: the [Archive] class ([perceval/archive.py]) is
    not part of the sources. The spec describes it as a key/value store
    addressed by the sanitized request: [store] records a payload under a
    key, [retrieve] of an unknown key is an error, and a stored error is
    distinguishable from a stored result. *)
Module Archive.

Definition store (key : string) (data : payload)
    (a : gmap string payload) : gmap string payload :=
  <[key := data]> a.

Definition retrieve (key : string) (a : gmap string payload) : result payload :=
  match a !! key with
  | Some p => Ok p
  | None => Raise (ArchiveError key)
  end.

End Archive.

(** [proc n cmd] is what the [n]-th call of [subprocess.check_output]
    does when it runs [cmd]: [Some out] prints [out] and exits with 0,
    [None] raises [CalledProcessError]. [slept] logs the arguments of
    [time.sleep], oldest first. [archive] is the archive object shared by
    the backend and its client ([None] when no archive is configured). *)
Record World : Type := {
  proc : nat -> string -> option string;
  ncalls : nat;
  slept : list Z;
  archive : option (gmap string payload)
}.

Definition check_output (cmd : string) (w : World) : option string * World :=
  (proc w (ncalls w) cmd,
   {| proc := proc w; ncalls := S (ncalls w); slept := slept w;
      archive := archive w |}).

Definition sleep (secs : Z) (w : World) : World :=
  {| proc := proc w; ncalls := ncalls w; slept := slept w ++ [secs];
     archive := archive w |}.

Definition set_archive (a : gmap string payload) (w : World) : World :=
  {| proc := proc w; ncalls := ncalls w; slept := slept w;
     archive := Some a |}.

(* ===================================================================== *)
(** * Gerrit data *)

(** A review as the pagination code sees it. ['sortKey'] is only sent by
    old Gerrit servers. *)
Record review : Type := {
  number : Z;
  project_name : string;
  lastUpdated : Z;
  sortKey : option string
}.

(** The value of [last_item]: [None], an offset, or a sort key. *)
Inductive cursor : Type :=
  | CNone
  | CInt (n : Z)
  | CStr (s : string).

(** The ssh port: the default ['29418'] is a string, the command line
    gives an [int]. *)
Inductive port_value : Type :=
  | PortStr (s : string)
  | PortInt (n : Z).

Definition MAX_REVIEWS : Z := 500.
Definition PORT : port_value := PortStr "29418".

(* ===================================================================== *)
(** * class GerritClient *)

Module GerritClient.

Definition CMD_GERRIT : string := "gerrit".
Definition MAX_RETRIES : Z := 3.
Definition RETRY_WAIT : Z := 60.

(** The attributes of a client. [version] is the value cached in
    [_version]: the backend reads [client.version] before it starts a fetch
    loop, so inside the loops the property returns the cached pair. *)
Record client : Type := {
  gerrit_user : option string;
  max_reviews : Z;
  blacklist_reviews : list string;
  repository : string;
  project : option string;
  version : Z * Z;
  port : option port_value;
  id_filepath : option string;
  from_archive : bool;
  gerrit_cmd : string
}.

Definition port_truthy (p : option port_value) : bool :=
  match p with
  | None => false
  | Some (PortStr s) => Py.truthy (Some s)
  | Some (PortInt n) => negb (n =? 0)
  end.

Definition port_str (p : option port_value) : string :=
  match p with
  | None => "None"
  | Some (PortStr s) => s
  | Some (PortInt n) => pretty n
  end.

(** [__init__], given the version the server reports. *)
Definition init (repository : string) (user : option string) (max_reviews : Z)
    (blacklist : option (list string)) (disable_host_key_check : bool)
    (port : option port_value) (id_filepath : option string)
    (from_archive : bool) (version : Z * Z) : client :=
  let ssh_opts := "" in
  let ssh_opts :=
    if disable_host_key_check then ssh_opts +:+ "-o StrictHostKeyChecking=no "
    else ssh_opts in
  let ssh_opts :=
    if Py.truthy id_filepath then ssh_opts +:+ "-i " +:+ Py.str_opt id_filepath +:+ " "
    else ssh_opts in
  let cmd :=
    if port_truthy port then
      "ssh " +:+ ssh_opts +:+ " -p " +:+ port_str port +:+ " "
        +:+ Py.str_opt user +:+ "@" +:+ repository
    else
      "ssh " +:+ ssh_opts +:+ " " +:+ Py.str_opt user +:+ "@" +:+ repository in
  {| gerrit_user := user;
     max_reviews := max_reviews;
     blacklist_reviews := match blacklist with
                          | None | Some [] => []
                          | Some l => l
                          end;
     repository := repository;
     project := None;
     version := version;
     port := port;
     id_filepath := id_filepath;
     from_archive := from_archive;
     gerrit_cmd := cmd +:+ " " +:+ CMD_GERRIT +:+ " " |}.

(** [next_retrieve_group_item(last_item=None, entry=None)] *)
Definition next_retrieve_group_item (c : client) (last_item : cursor)
    (entry : option review) : result cursor :=
  let gerrit_version := version c in
  if (gerrit_version.1 =? 2) && (gerrit_version.2 >? 9)
     || (gerrit_version.1 =? 3) then
    match last_item with
    | CNone => Ok (CInt 0)
    | _ => Ok last_item
    end
  else if (gerrit_version.1 =? 2) && (gerrit_version.2 =? 9) then
    Raise (BackendError "Gerrit 2.9.0 does not support pagination")
  else
    match entry with
    | Some e =>
        match sortKey e with
        | Some k => Ok (CStr k)
        | None => Raise (KeyError "sortKey")
        end
    | None => Ok CNone
    end.

(** [sanitize_for_archive(cmd)] *)
Definition sanitize_for_archive (cmd : string) : string :=
  Re.sub_user " xxxxx@" cmd.

(** [_get_gerrit_cmd(last_item, filter_=None)] *)
Definition _get_gerrit_cmd (c : client) (last_item : cursor)
    (filter_ : option string) : result string :=
  if Py.truthy filter_
     && negb (bool_decide (filter_ = Some "status:open")
              || bool_decide (filter_ = Some "status:closed")) then
    Raise (BackendError ("Filter not supported in gerrit " +:+ Py.str_opt filter_))
  else
    let cmd := gerrit_cmd c +:+ " query " in
    let cmd :=
      if Py.truthy (project c) then
        cmd +:+ "project:" +:+ Py.str_opt (project c) +:+ " "
      else cmd in
    let cmd := cmd +:+ "limit:" +:+ pretty (max_reviews c) in
    let cmd :=
      if negb (Py.truthy filter_) then
        let cmd := cmd +:+ " '(status:open OR status:closed)" in
        let cmd :=
          match blacklist_reviews c with
          | [] => cmd
          | l => cmd +:+ " AND NOT (" +:+ Py.join " OR " l +:+ ")"
          end in
        cmd +:+ "'"
      else
        match blacklist_reviews c with
        | [] => cmd +:+ " " +:+ Py.str_opt filter_ +:+ " "
        | l => cmd +:+ " '" +:+ Py.str_opt filter_ +:+ " AND NOT ("
                 +:+ Py.join "," l +:+ ")'"
        end in
    let cmd := cmd +:+ " --all-approvals --comments --format=JSON" in
    let gerrit_version := version c in
    match last_item with
    | CNone => Ok cmd
    | CInt n =>
        if (gerrit_version.1 =? 2) && (gerrit_version.2 >=? 9)
           || (gerrit_version.1 =? 3) then
          Ok (cmd +:+ " --start=" +:+ pretty n)
        else Raise TypeError
    | CStr k =>
        if (gerrit_version.1 =? 2) && (gerrit_version.2 >=? 9)
           || (gerrit_version.1 =? 3) then
          Ok (cmd +:+ " --start=" +:+ k)
        else Ok (cmd +:+ " resume_sortkey:" +:+ k)
    end.

(** [__execute_from_archive(cmd)] *)
Definition __execute_from_archive (cmd : string) : M World string :=
  fun w =>
    let cmd := sanitize_for_archive cmd in
    match archive w with
    | None => (Raise AttributeError, w)
    | Some a =>
        match Archive.retrieve cmd a with
        | Raise e => (Raise e, w)
        | Ok (Failure msg) => (Raise (RuntimeError msg), w)
        | Ok (Data raw) => (Ok raw, w)
        end
    end.

(** The [while retries < self.MAX_RETRIES] loop of [__execute_from_remote];
    [left] is [MAX_RETRIES - retries], the number of attempts still
    allowed. The result is [None] when the loop ends without a [break]. *)
Fixpoint attempts (left : nat) (retries : Z) (cmd : string) (w : World)
    : option string * World :=
  match left with
  | O => (None, w)
  | S left' =>
      match check_output cmd w with
      | (Some result, w) => (Some result, w)
      | (None, w) =>
          let w := sleep (RETRY_WAIT * retries) w in
          attempts left' (retries + 1) cmd w
      end
  end.

(** [__execute_from_remote(cmd)] *)
Definition __execute_from_remote (cmd : string) : M World string :=
  fun w =>
    let retries := 0 in
    let '(result, w) := attempts (Z.to_nat (MAX_RETRIES - retries)) retries cmd w in
    let result :=
      match result with
      | Some raw => Data raw
      | None => Failure (cmd +:+ " failed " +:+ pretty MAX_RETRIES
                           +:+ " times. Giving up!")
      end in
    let w :=
      match archive w with
      | Some a => set_archive (Archive.store (sanitize_for_archive cmd) result a) w
      | None => w
      end in
    match result with
    | Failure msg => (Raise (RuntimeError msg), w)
    | Data raw => (Ok raw, w)
    end.

(** [__execute(cmd)] *)
Definition __execute (c : client) (cmd : string) : M World string :=
  if from_archive c then __execute_from_archive cmd
  else __execute_from_remote cmd.

(** [reviews(last_item, filter_=None)] *)
Definition reviews (c : client) (last_item : cursor) (filter_ : option string)
    : M World string :=
  let! cmd := lift (_get_gerrit_cmd c last_item filter_) in
  __execute c cmd.

(** ** The version of the server *)

Definition CMD_VERSION : string := "version".

(** [\d] on a code point below 256: the digits 0 to 9. *)
Definition isdigit (c : ascii) : bool :=
  let n := N_of_ascii c in ((48 <=? n) && (n <=? 57))%N.

(** What a greedy [\d*] takes at the head of [s], and what it leaves. *)
Fixpoint digits (s : string) : string * string :=
  match s with
  | EmptyString => (EmptyString, EmptyString)
  | String c s' =>
      if isdigit c then
        let '(d, rest) := digits s' in (String c d, rest)
      else (EmptyString, s)
  end.

(** [s] without [p], when [s] starts with [p]. *)
Fixpoint strip (p s : string) : option string :=
  match p, s with
  | EmptyString, _ => Some s
  | String a p', String c s' => if Ascii.eqb a c then strip p' s' else None
  | String _ _, EmptyString => None
  end.

(** [re.match(VERSION_REGEX, s)] for
    [VERSION_REGEX = r'gerrit version (\d+)\.(\d+).*']: the groups 1 and 2
    of the match, [None] when [s] does not match. Each [\d+] takes the
    whole run of digits (the character after group 1 must be the dot, so a
    shorter run cannot match), and [.*] matches whatever follows. *)
Definition match_VERSION_REGEX (s : string) : option (string * string) :=
  match strip "gerrit version " s with
  | None => None
  | Some s1 =>
      let '(g1, s2) := digits s1 in
      match g1, s2 with
      | String _ _, String "." s3 =>
          let '(g2, _) := digits s3 in
          match g2 with
          | String _ _ => Some (g1, g2)
          | EmptyString => None
          end
      | _, _ => None
      end
  end.

Section Version.

(** [int(s)]; it raises on a string that is not a numeral, and on a
    numeral longer than the interpreter accepts. *)
Variable int : string -> result Z.

(** The property [version]: [_version] is the attribute that caches the
    pair, passed along with the world. The bytes that the command printed
    are read as text. *)
Definition version' (c : client) : M (option (Z * Z) * World) (Z * Z) :=
  fun st =>
    let '(_version, w) := st in
    match _version with
    | Some v => (Ok v, st)
    | None =>
        let cmd := gerrit_cmd c +:+ " " +:+ CMD_VERSION +:+ " " in
        match __execute c cmd w with
        | (Raise e, w) => (Raise e, (None, w))
        | (Ok raw_data, w) =>
            match match_VERSION_REGEX raw_data with
            | None =>
                (Raise (BackendError ("Invalid gerrit version " +:+ raw_data)),
                 (None, w))
            | Some (g1, g2) =>
                match (let* mayor := int g1 in
                       let* minor := int g2 in
                       Ok (mayor, minor)) with
                | Raise _ =>
                    (Raise (BackendError
                              "Gerrit client could not determine the server version."),
                     (None, w))
                | Ok v => (Ok v, (Some v, w))
                end
            end
        end
    end.

End Version.

End GerritClient.


(* ===================================================================== *)
(** * Generators *)

(** How a generator ended: its loop was left ([Completed]), an exception
    escaped ([Failed]), or the fuel of the model ran out ([Unfinished]). *)
Inductive ending : Type :=
  | Completed
  | Failed (e : error)
  | Unfinished.

(* ===================================================================== *)
(** * class Gerrit *)

Module Gerrit.

(** The attributes the fetch loops read. *)
Record backend : Type := {
  hostname : string;
  max_reviews : Z;
  client : GerritClient.client
}.

(** [__init__] followed by [_init_client]: [max_reviews] is clamped to at
    least 1 and handed to the client; [version] is what the server
    reports. *)
Definition init (hostname : string) (user : option string)
    (port : option port_value) (max_reviews : Z)
    (disable_host_key_check : bool) (id_filepath : option string)
    (blacklist_ids : option (list string)) (from_archive : bool)
    (version : Z * Z) : backend :=
  let max_reviews := Z.max 1 max_reviews in
  {| hostname := hostname;
     max_reviews := max_reviews;
     client := GerritClient.init hostname user max_reviews blacklist_ids
                 disable_host_key_check port id_filepath from_archive version |}.

(** A run of a fetch generator: the reviews yielded, first to last; the
    pages received, each with the filter of its query, first to last (an
    observation of the run: the code keeps no such log); how the generator
    ended; and the world it left. *)
Record run : Type := {
  emitted : list review;
  fetched : list (option string * list review);
  ended : ending;
  final : World
}.

Definition stop (e : ending) (w : World) : run :=
  {| emitted := []; fetched := []; ended := e; final := w |}.

Definition yield (r : review) (k : run) : run :=
  {| emitted := r :: emitted k; fetched := fetched k; ended := ended k;
     final := final k |}.

Definition received (filter_ : option string) (page : list review) (k : run) : run :=
  {| emitted := emitted k; fetched := (filter_, page) :: fetched k;
     ended := ended k; final := final k |}.

(** The pages of one partition. *)
Definition pages_of (filter_ : option string) (r : run) : list (list review) :=
  map snd (List.filter (fun p => bool_decide (fst p = filter_)) (fetched r)).

Definition updated_of (l : list review) : list Z := map lastUpdated l.

(** [metadata_updated_on(item)]: [float(item['lastUpdated'])]. *)
Definition metadata_updated_on (item : review) : Q :=
  inject_Z (lastUpdated item).

(** The state of the loop of [_fetch_gerrit28]; [review_open] and
    [review_closed] are unbound until the first pop of their partition. *)
Record state28 : Type := {
  last_item_open : cursor;
  last_item_closed : cursor;
  reviews_open : list review;
  reviews_closed : list review;
  last_nreviews_open : Z;
  last_nreviews_closed : Z;
  review_open : option review;
  review_closed : option review
}.

(** The state of the loop of [_fetch_gerrit]. *)
Record state : Type := {
  last_item : cursor;
  reviews : list review;
  last_nreviews : Z
}.

Definition len {A} (l : list A) : Z := Z.of_nat (length l).

Definition filter_open : option string := Some "status:open".
Definition filter_closed : option string := Some "status:closed".

(** [review_open = reviews_open.pop(0)], with [o :: open'] the list. *)
Definition pop_open (o : review) (open' : list review) (s : state28) : state28 :=
  {| last_item_open := last_item_open s;
     last_item_closed := last_item_closed s;
     reviews_open := open';
     reviews_closed := reviews_closed s;
     last_nreviews_open := last_nreviews_open s;
     last_nreviews_closed := last_nreviews_closed s;
     review_open := Some o;
     review_closed := review_closed s |}.

(** [review_closed = reviews_closed.pop(0)], with [c :: closed'] the list. *)
Definition pop_closed (c : review) (closed' : list review) (s : state28)
    : state28 :=
  {| last_item_open := last_item_open s;
     last_item_closed := last_item_closed s;
     reviews_open := reviews_open s;
     reviews_closed := closed';
     last_nreviews_open := last_nreviews_open s;
     last_nreviews_closed := last_nreviews_closed s;
     review_open := review_open s;
     review_closed := Some c |}.

(** The [if]/[elif]/[else] that pops the next review in [_fetch_gerrit28];
    [None] when both lists are empty, which ends the [while]. *)
Definition pop28 (s : state28) : option (review * state28) :=
  match reviews_open s, reviews_closed s with
  | [], [] => None
  | o :: open', c :: closed' =>
      if lastUpdated o >=? lastUpdated c then Some (o, pop_open o open' s)
      else Some (c, pop_closed c closed' s)
  | [], c :: closed' => Some (c, pop_closed c closed' s)
  | o :: open', [] => Some (o, pop_open o open' s)
  end.

(** [last_item += 1] under [try]/[except Exception: pass]: only an [int]
    can be incremented. *)
Definition increment (last_item : cursor) : cursor :=
  match last_item with
  | CInt n => CInt (n + 1)
  | _ => last_item
  end.

(** The value of a local variable that may still be unbound. *)
Definition local (name : string) (v : option review) : result review :=
  match v with
  | Some r => Ok r
  | None => Raise (UnboundLocalError name)
  end.

Section Fetch.

(** [parse_reviews(raw_data)]: the JSON decoder is not modelled; it may
    raise on a malformed payload. *)
Variable parse_reviews : string -> result (list review).

Variable b : backend.

(** [from_ut]: the UNIX timestamp of [from_date]. *)
Variable from_ut : Q.

(** [_get_reviews(last_item, filter_=None)] *)
Definition _get_reviews (last_item : cursor) (filter_ : option string)
    : M World (list review) :=
  let! raw_data := GerritClient.reviews (client b) last_item filter_ in
  lift (parse_reviews raw_data).

(** Continue with the value of [r], or end the run with its exception. *)
Definition try {A} (r : result A) (w : World) (k : A -> run) : run :=
  match r with
  | Ok a => k a
  | Raise e => stop (Failed e) w
  end.

(** Request a page and continue with it. *)
Definition request (last_item : cursor) (filter_ : option string) (w : World)
    (k : list review -> World -> run) : run :=
  match _get_reviews last_item filter_ w with
  | (Ok page, w) => received filter_ page (k page w)
  | (Raise e, w) => stop (Failed e) w
  end.

(** [if not reviews_open and last_nreviews_open >= self.max_reviews: ...] *)
Definition refill_open (s : state28) (w : World)
    (k : state28 -> World -> run) : run :=
  match reviews_open s with
  | [] =>
      if last_nreviews_open s >=? max_reviews b then
        try (let* entry := local "review_open" (review_open s) in
             GerritClient.next_retrieve_group_item (client b)
               (last_item_open s) (Some entry)) w (fun last_item_open' =>
        request last_item_open' filter_open w (fun page w =>
        k {| last_item_open := last_item_open';
             last_item_closed := last_item_closed s;
             reviews_open := page;
             reviews_closed := reviews_closed s;
             last_nreviews_open := len page;
             last_nreviews_closed := last_nreviews_closed s;
             review_open := review_open s;
             review_closed := review_closed s |} w))
      else k s w
  | _ :: _ => k s w
  end.

(** [if not reviews_closed and last_nreviews_closed >= self.max_reviews: ...] *)
Definition refill_closed (s : state28) (w : World)
    (k : state28 -> World -> run) : run :=
  match reviews_closed s with
  | [] =>
      if last_nreviews_closed s >=? max_reviews b then
        try (let* entry := local "review_closed" (review_closed s) in
             GerritClient.next_retrieve_group_item (client b)
               (last_item_closed s) (Some entry)) w (fun last_item_closed' =>
        request last_item_closed' filter_closed w (fun page w =>
        k {| last_item_open := last_item_open s;
             last_item_closed := last_item_closed';
             reviews_open := reviews_open s;
             reviews_closed := page;
             last_nreviews_open := last_nreviews_open s;
             last_nreviews_closed := len page;
             review_open := review_open s;
             review_closed := review_closed s |} w))
      else k s w
  | _ :: _ => k s w
  end.

(** The [while reviews_open or reviews_closed] loop of [_fetch_gerrit28];
    one unit of fuel per iteration. *)
Fixpoint loop28 (fuel : nat) (s : state28) (w : World) : run :=
  match fuel with
  | O => stop Unfinished w
  | S fuel' =>
      match pop28 s with
      | None => stop Completed w
      | Some (review, s) =>
          let updated := lastUpdated review in
          if Qle_bool (inject_Z updated) from_ut then stop Completed w
          else
            yield review (
            refill_open s w (fun s w =>
            refill_closed s w (fun s w =>
            loop28 fuel' s w)))
      end
  end.

(** [_fetch_gerrit28(from_date)] *)
Definition _fetch_gerrit28 (fuel : nat) (w : World) : run :=
  try (GerritClient.next_retrieve_group_item (client b) CNone None) w
    (fun last_item_open =>
  try (GerritClient.next_retrieve_group_item (client b) CNone None) w
    (fun last_item_closed =>
  request last_item_open filter_open w (fun reviews_open w =>
  request last_item_closed filter_closed w (fun reviews_closed w =>
  loop28 fuel
    {| last_item_open := last_item_open;
       last_item_closed := last_item_closed;
       reviews_open := reviews_open;
       reviews_closed := reviews_closed;
       last_nreviews_open := len reviews_open;
       last_nreviews_closed := len reviews_closed;
       review_open := None;
       review_closed := None |} w)))).

(** The [while reviews] loop of [_fetch_gerrit]. *)
Fixpoint loop (fuel : nat) (s : state) (w : World) : run :=
  match fuel with
  | O => stop Unfinished w
  | S fuel' =>
      match reviews s with
      | [] => stop Completed w
      | review :: reviews' =>
          let last_item := increment (last_item s) in
          let updated := lastUpdated review in
          if Qle_bool (inject_Z updated) from_ut then stop Completed w
          else
            yield review (
            match reviews' with
            | [] =>
                if last_nreviews s >=? max_reviews b then
                  try (GerritClient.next_retrieve_group_item (client b)
                         last_item (Some review)) w (fun last_item =>
                  request last_item None w (fun page w =>
                  loop fuel' {| last_item := last_item; reviews := page;
                                last_nreviews := len page |} w))
                else
                  loop fuel' {| last_item := last_item; reviews := reviews';
                                last_nreviews := last_nreviews s |} w
            | _ :: _ =>
                loop fuel' {| last_item := last_item; reviews := reviews';
                              last_nreviews := last_nreviews s |} w
            end)
      end
  end.

(** [_fetch_gerrit(from_date)] *)
Definition _fetch_gerrit (fuel : nat) (w : World) : run :=
  try (GerritClient.next_retrieve_group_item (client b) CNone None) w
    (fun last_item =>
  request last_item None w (fun reviews w =>
  loop fuel {| last_item := last_item; reviews := reviews;
               last_nreviews := len reviews |} w)).

(** [fetch_items(category, from_date=...)] *)
Definition fetch_items (fuel : nat) (w : World) : run :=
  let version := GerritClient.version (client b) in
  if (version.1 =? 2) && (version.2 =? 8) then _fetch_gerrit28 fuel w
  else _fetch_gerrit fuel w.

End Fetch.

(** ** The decoder of reviews *)

Section Parser.

(** [json.loads]; it raises on a text that is not JSON. *)
Variable json_loads : string -> result Json.value.

(** The text that [parse_reviews] hands to the decoder: the lines of
    [raw_data] joined with commas, in brackets, without the comma that a
    final newline leaves before the closing bracket. *)
Definition items_raw (raw_data : string) : string :=
  let items_raw :=
    "[" +:+ Py.replace (String Py.newline EmptyString) "," raw_data +:+ "]" in
  Py.replace ",]" "]" items_raw.

(** The [for item in items] loop of [parse_reviews]: [item.keys()] is an
    [AttributeError] for what is not a dict. *)
Fixpoint for_items (items : list Json.value) (reviews : list Json.value)
    : result (list Json.value) :=
  match items with
  | [] => Ok reviews
  | item :: items' =>
      match item with
      | Json.Object fields =>
          if Json.has_key "project" fields then
            for_items items' (reviews ++ [item])
          else for_items items' reviews
      | _ => Raise AttributeError
      end
  end.

(** [parse_reviews(raw_data)] *)
Definition parse_reviews (raw_data : string) : result (list Json.value) :=
  let* items := json_loads (items_raw raw_data) in
  let reviews := [] in
  let* items := Json.iter items in
  for_items items reviews.

End Parser.

End Gerrit.

(* ===================================================================== *)
(** * Meetup data *)

Module Api.

(** An entry of a page of the events listing ([QUERY_EVENT_DATE]). *)
Record event_date : Type := {
  node_id : string;
  node_dateTime : string
}.

(** An event: the fields of [QUERY_EVENT_FULL] ([body] stands for those the
    code never reads) and the three keys that [fetch_items] adds. *)
Record event : Type := {
  id : string;
  dateTime : string;
  body : string;
  comments : option (list string);
  rsvps : option (list string);
  fetched_on : option Z
}.

(** [groupByUrlname.<event_type>] *)
Record events_page : Type := {
  events_edges : list event_date;
  events_hasNextPage : bool;
  events_endCursor : string
}.

(** [event.comments]; an edge is represented by its ['node']. *)
Record comments_node : Type := {
  count : Z;
  comments_edges : list string
}.

(** [event.tickets]; an edge is represented by its ['node']. *)
Record tickets_node : Type := {
  tickets_edges : list string;
  tickets_hasNextPage : bool;
  tickets_endCursor : string
}.

(** The GraphQL documents the client sends, by template and arguments. *)
Inductive query : Type :=
  | QGroupEvents (group event_type : string) (first : Z) (after : string)
  | QEvent (event_id : string)
  | QComments (event_id : string) (offset limit : Z)
  | QTickets (event_id : string) (first : Z) (after : string).

(** The decoded JSON answers, by shape; [RGroupEvents None] is an answer
    whose ['groupByUrlname'] is empty. *)
Inductive response : Type :=
  | RGroupEvents (page : option events_page)
  | REvent (e : event)
  | RComments (n : comments_node)
  | RTickets (n : tickets_node).

End Api.

(** The mutable state around a Meetup client: the number of requests sent,
    the number of clock readings taken, the log of [time.sleep], and the
    rate state of the [RateLimitHandler]. *)
Record MWorld : Type := {
  nreq : nat;
  nreads : nat;
  mslept : list Z;
  rate_limit : option Z;
  rate_limit_reset_ts : option Z
}.

(** A suspended generator: it has ended, or it has yielded [a] in world [w]
    and resumes in the world its consumer hands back. *)
Inductive gen (A : Type) : Type :=
  | Stop (e : ending) (w : MWorld)
  | Yield (a : A) (w : MWorld) (resume : MWorld -> gen A).
Arguments Stop {A} e w.
Arguments Yield {A} a w resume.

(** A generator run to its end by a consumer that does not touch the
    world. *)
Record mrun (A : Type) : Type := {
  yielded : list A;
  mended : ending;
  mfinal : MWorld
}.
Arguments yielded {A} m.
Arguments mended {A} m.
Arguments mfinal {A} m.

Definition mstop {A} (e : ending) (w : MWorld) : mrun A :=
  {| yielded := []; mended := e; mfinal := w |}.

Definition myield {A} (a : A) (k : mrun A) : mrun A :=
  {| yielded := a :: yielded k; mended := mended k; mfinal := mfinal k |}.

(* ===================================================================== *)
(** * class MeetupClient *)

Module MeetupClient.

Definition MAX_ITEMS : Z := 10.
Definition MIN_RATE_LIMIT : Z := 1.
Definition PKEY_OAUTH2 : string := "Authorization".
Definition HCONTENT_TYPE : string := "Content-Type".
Definition VCONTENT_TYPE : string := "application/json".
Definition VPAST_EVENTS : string := "pastEvents".
Definition VFUTURE_EVENTS : string := "upcomingEvents".
Definition VEVENT_TYPES : list string := [VPAST_EVENTS; VFUTURE_EVENTS].

Record client : Type := {
  api_token : string;
  max_items : Z;
  sleep_for_rate : bool;
  min_rate_to_sleep : Z;
  from_archive : bool
}.

Definition msleep (secs : Z) (w : MWorld) : MWorld :=
  {| nreq := nreq w; nreads := nreads w; mslept := mslept w ++ [secs];
     rate_limit := rate_limit w; rate_limit_reset_ts := rate_limit_reset_ts w |}.

Definition clear_rate (w : MWorld) : MWorld :=
  {| nreq := nreq w; nreads := nreads w; mslept := mslept w;
     rate_limit := None; rate_limit_reset_ts := None |}.

Definition sent (w : MWorld) : MWorld :=
  {| nreq := S (nreq w); nreads := nreads w; mslept := mslept w;
     rate_limit := rate_limit w; rate_limit_reset_ts := rate_limit_reset_ts w |}.

Definition read (w : MWorld) : MWorld :=
  {| nreq := nreq w; nreads := S (nreads w); mslept := mslept w;
     rate_limit := rate_limit w; rate_limit_reset_ts := rate_limit_reset_ts w |}.

(** [calculate_time_to_reset()]: [None < 0] is a [TypeError]. *)
Definition calculate_time_to_reset (w : MWorld) : result Z :=
  match rate_limit_reset_ts w with
  | None => Raise TypeError
  | Some reset_ts => Ok (if reset_ts <? 0 then 0 else reset_ts)
  end.

(** Modelled from the spec: [RateLimitHandler.sleep_for_rate_limit]
    ([perceval/client.py]) is not part of the sources. The spec: when the
    remaining quota is known and at or below the configured floor, the
    wait is computed by the client's own [calculate_time_to_reset] (the
    handler's test expects the call even when throttling is off) and is
    never negative; if the client is configured to throttle it sleeps that
    long and then clears the rate state; if throttling is disabled, or the
    quota is unknown, it never sleeps. *)
Definition sleep_for_rate_limit (c : client) : M MWorld unit :=
  fun w =>
    match rate_limit w with
    | None => (Ok tt, w)
    | Some remaining =>
        if remaining <=? min_rate_to_sleep c then
          match calculate_time_to_reset w with
          | Raise e => (Raise e, w)
          | Ok seconds_to_reset =>
              if sleep_for_rate c then
                (Ok tt, clear_rate (msleep (Z.max 0 seconds_to_reset) w))
              else (Ok tt, w)
          end
        else (Ok tt, w)
    end.

(** [sanitize_for_archive(url, headers, payload)] *)
Definition sanitize_for_archive (url : string) (headers : gmap string string)
    (payload : string) : string * gmap string string * string :=
  (url, delete PKEY_OAUTH2 headers, payload).

(** The [headers] dictionary that [_fetch] builds. *)
Definition headers (c : client) : gmap string string :=
  <[HCONTENT_TYPE := VCONTENT_TYPE]>
    (<[PKEY_OAUTH2 := "Bearer " +:+ api_token c]> ∅).

Definition dquote : string := String (ascii_of_nat 34) EmptyString.

(** [cursor if cursor == 'null' else '"{}"'.format(cursor)] *)
Definition quote (cursor : string) : string :=
  if bool_decide (cursor = "null") then cursor
  else dquote +:+ cursor +:+ dquote.

Section Client.

Import Api.

(** Modelled from the spec: [HttpClient.fetch] ([perceval/client.py]) is
    not part of the sources. It executes one request and returns the
    decoded response or raises a definitive failure; [http n q] is the
    outcome of the [n]-th request when it carries the query [q]. *)
Variable http : nat -> query -> result response.

(** [datetime.strptime(s, '%Y-%m-%dT%H:%M%z')] as an instant; it raises
    on a string of another format. *)
Variable strptime : string -> result Z.

Variable c : client.

(** [_fetch(query)] *)
Definition _fetch (q : query) : M MWorld response :=
  let! _ := (if from_archive c then ret tt else sleep_for_rate_limit c) in
  fun w => (http (nreq w) q, sent w).

(** [event(event_id)] *)
Definition event (event_id : string) : M MWorld Api.event :=
  let! r := _fetch (QEvent event_id) in
  match r with
  | REvent e => ret e
  | _ => raise (KeyError "event")
  end.

(** The [for node in events_page['edges']] loop of [events]; [after] is
    the rest of the [while] body. *)
Fixpoint for_edges (from_date : Z) (edges : list event_date) (w : MWorld)
    (after : MWorld -> gen Api.event) : gen Api.event :=
  match edges with
  | [] => after w
  | node :: edges' =>
      match strptime (node_dateTime node) with
      | Raise e => Stop (Failed e) w
      | Ok date =>
          if date >? from_date then
            match event (node_id node) w with
            | (Ok e, w) => Yield e w (fun w => for_edges from_date edges' w after)
            | (Raise e, w) => Stop (Failed e) w
            end
          else for_edges from_date edges' w after
      end
  end.

(** The [while True] loop of [events]; one unit of fuel per page. *)
Fixpoint events_loop (fuel : nat) (group : string) (from_date : Z)
    (event_idx : nat) (event_type cursor : string) (w : MWorld)
    : gen Api.event :=
  match fuel with
  | O => Stop Unfinished w
  | S fuel' =>
      let cursor := quote cursor in
      match _fetch (QGroupEvents group event_type (max_items c) cursor) w with
      | (Raise e, w) => Stop (Failed e) w
      | (Ok (RGroupEvents None), w) =>
          Stop (Failed (Exception ("Can't get meetup group: " +:+ group))) w
      | (Ok (RGroupEvents (Some events_page)), w) =>
          for_edges from_date (events_edges events_page) w (fun w =>
            if events_hasNextPage events_page then
              events_loop fuel' group from_date event_idx event_type
                (events_endCursor events_page) w
            else if (event_idx <? length VEVENT_TYPES - 1)%nat then
              let event_idx := S event_idx in
              events_loop fuel' group from_date event_idx
                (nth event_idx VEVENT_TYPES "") "null" w
            else Stop Completed w)
      | (Ok _, w) => Stop (Failed (KeyError "groupByUrlname")) w
      end
  end.

(** [events(group, from_date)] *)
Definition events (fuel : nat) (group : string) (from_date : Z) (w : MWorld)
    : gen Api.event :=
  let event_idx := 0%nat in
  events_loop fuel group from_date event_idx (nth event_idx VEVENT_TYPES "")
    "null" w.

(** The [while do_fetch] loop of [comments]; one unit of fuel per page. *)
Fixpoint comments_loop (fuel : nat) (event_id : string) (ncomments : Z)
    (w : MWorld) : mrun (list string) :=
  match fuel with
  | O => mstop Unfinished w
  | S fuel' =>
      match _fetch (QComments event_id ncomments (max_items c)) w with
      | (Raise e, w) => mstop (Failed e) w
      | (Ok (RComments comments_node), w) =>
          myield (comments_edges comments_node) (
            let ncomments := ncomments + max_items c in
            if ncomments >=? Api.count comments_node then mstop Completed w
            else comments_loop fuel' event_id ncomments w)
      | (Ok _, w) => mstop (Failed (KeyError "comments")) w
      end
  end.

(** [comments(event_id)] *)
Definition comments (fuel : nat) (event_id : string) (w : MWorld)
    : mrun (list string) :=
  comments_loop fuel event_id 0 w.

(** The [while do_fetch] loop of [rsvps]; one unit of fuel per page. *)
Fixpoint rsvps_loop (fuel : nat) (event_id : string) (cursor : string)
    (w : MWorld) : mrun (list string) :=
  match fuel with
  | O => mstop Unfinished w
  | S fuel' =>
      let cursor := quote cursor in
      match _fetch (QTickets event_id (max_items c) cursor) w with
      | (Raise e, w) => mstop (Failed e) w
      | (Ok (RTickets tickets_node), w) =>
          myield (tickets_edges tickets_node) (
            if tickets_hasNextPage tickets_node then
              rsvps_loop fuel' event_id (tickets_endCursor tickets_node) w
            else mstop Completed w)
      | (Ok _, w) => mstop (Failed (KeyError "tickets")) w
      end
  end.

(** [rsvps(event_id)] *)
Definition rsvps (fuel : nat) (event_id : string) (w : MWorld)
    : mrun (list string) :=
  rsvps_loop fuel event_id "null" w.

End Client.

End MeetupClient.

(* ===================================================================== *)
(** * class Meetup *)

Module Meetup.

(** What a sub-resource walk hands to [fetch_items]: the list it built, or
    the way its generator ended without completing. *)
Inductive parsed : Type :=
  | Parsed (l : list string) (w : MWorld)
  | Aborted (e : ending) (w : MWorld).

Section Backend.

Variable http : nat -> Api.query -> result Api.response.
Variable strptime : string -> result Z.

(** [datetime_utcnow().timestamp()]: [clock n] is the [n]-th reading of
    the clock, in the unit of its resolution. *)
Variable clock : nat -> Z.

Variable client : MeetupClient.client.

Definition datetime_utcnow (w : MWorld) : Z * MWorld :=
  (clock (nreads w), MeetupClient.read w).

(** The [for page in pages: for x in page: l.append(x['node'])] loops of
    [__fetch_and_parse_comments] and [__fetch_and_parse_rsvps]: they run
    the generator [pages] to its end, and return the list only if it
    completes. *)
Definition parse (pages : mrun (list string)) : parsed :=
  match mended pages with
  | Completed => Parsed (concat (yielded pages)) (mfinal pages)
  | e => Aborted e (mfinal pages)
  end.

(** [__fetch_and_parse_comments(event_id)] *)
Definition __fetch_and_parse_comments (fuel : nat) (event_id : string)
    (w : MWorld) : parsed :=
  let pages := MeetupClient.comments http client fuel event_id w in
  parse pages.

(** [__fetch_and_parse_rsvps(event_id)] *)
Definition __fetch_and_parse_rsvps (fuel : nat) (event_id : string)
    (w : MWorld) : parsed :=
  let pages := MeetupClient.rsvps http client fuel event_id w in
  parse pages.

(** The event with the three keys that [fetch_items] sets. *)
Definition with_details (event : Api.event) (comments rsvps : list string)
    (fetched_on : Z) : Api.event :=
  {| Api.id := Api.id event;
     Api.dateTime := Api.dateTime event;
     Api.body := Api.body event;
     Api.comments := Some comments;
     Api.rsvps := Some rsvps;
     Api.fetched_on := Some fetched_on |}.

(** The [for event in events] loop of [fetch_items]; [fuel] bounds the
    pages of each sub-resource walk. *)
Fixpoint for_events (fuel : nat) (events : gen Api.event) : mrun Api.event :=
  match events with
  | Stop e w => mstop e w
  | Yield event w resume =>
      let event_id := Api.id event in
      match __fetch_and_parse_comments fuel event_id w with
      | Aborted e w => mstop e w
      | Parsed comments w =>
          match __fetch_and_parse_rsvps fuel event_id w with
          | Aborted e w => mstop e w
          | Parsed rsvps w =>
              let '(now, w) := datetime_utcnow w in
              myield (with_details event comments rsvps now)
                (for_events fuel (resume w))
          end
      end
  end.

(** [fetch_items(category, from_date=...)]; [fuel] bounds the pages of
    the events listing. *)
Definition fetch_items (fuel : nat) (group : string) (from_date : Z)
    (w : MWorld) : mrun Api.event :=
  let events := MeetupClient.events http strptime client fuel group from_date w in
  for_events fuel events.

End Backend.

(** [metadata_updated_on(item)] *)
Definition metadata_updated_on (item : Api.event) : result Z :=
  match Api.fetched_on item with
  | Some t => Ok t
  | None => Raise (KeyError "fetched_on")
  end.

End Meetup.

(* ===================================================================== *)
(** * Vocabulary of the statements *)

(** What the sanitizer leaves of a command [pre user@post]: the sanitized
    [pre], the mask in place of the user segment, and the sanitized rest
    of the word and of the command. The user does not occur in it. *)
Definition masked (pre post : string) : string :=
  GerritClient.sanitize_for_archive pre +:+ " xxxxx@"
    +:+ Re.sub_go " xxxxx@" (default 0%nat (Re.match_user post)) post.

(** Two outcomes of building a command agree up to sanitization. *)
Definition same_key (r1 r2 : result string) : Prop :=
  match r1, r2 with
  | Ok cmd1, Ok cmd2 =>
      GerritClient.sanitize_for_archive cmd1 = GerritClient.sanitize_for_archive cmd2
  | Raise e1, Raise e2 => e1 = e2
  | _, _ => False
  end.

(** What replaying a stored payload does: return the data, raise the
    error. *)
Definition replayed (p : payload) : result string :=
  match p with
  | Data raw => Ok raw
  | Failure msg => Raise (RuntimeError msg)
  end.


(** A world in which the next [n] runs of [cmd] fail. *)
Definition fails_for (n : nat) (cmd : string) (w : World) : Prop :=
  forall i, (i < n)%nat -> proc w (ncalls w + i)%nat cmd = None.

(** The sum of a list of waits. *)
Definition total (l : list Z) : Z := fold_right Z.add 0 l.



(** The update time of a review is after the watermark. *)
Definition newer_than (from_ut : Q) (r : review) : Prop :=
  (from_ut < Gerrit.metadata_updated_on r)%Q.

(** A sequence of update times never increases. *)
Fixpoint nonincreasing (l : list Z) : bool :=
  match l with
  | [] => true
  | x :: l' =>
      match l' with
      | [] => true
      | y :: _ => (y <=? x) && nonincreasing l'
      end
  end.

(** The run [r] preceded by the reception of the pages [ps]. *)
Definition received_all (ps : list (option string * list review))
    (r : Gerrit.run) : Gerrit.run :=
  fold_right (fun p r => Gerrit.received p.1 p.2 r) r ps.

(** The pages of one partition among [ps], joined. *)
Definition joined (filter_ : option string)
    (ps : list (option string * list review)) : list review :=
  concat (map snd (List.filter (fun p => bool_decide (p.1 = filter_)) ps)).

(** The reviews of one partition that a run can still yield: those
    pending in the list of the partition, then those of the pages the run
    receives. *)
Definition stream_of (filter_ : option string) (pending : list review)
    (r : Gerrit.run) : list review :=
  pending ++ concat (Gerrit.pages_of filter_ r).

(** A partition without pending reviews is exhausted. *)
Definition exhausted_if_empty (b : Gerrit.backend) (s : Gerrit.state28) : Prop :=
  (Gerrit.reviews_open s = [] -> Gerrit.last_nreviews_open s < Gerrit.max_reviews b)
  /\ (Gerrit.reviews_closed s = [] ->
      Gerrit.last_nreviews_closed s < Gerrit.max_reviews b).

(** Every value that the generator yields satisfies [P], whatever world
    its consumer resumes it in. *)
Inductive yields_only {A : Type} (P : A -> Prop) : gen A -> Prop :=
  | yields_stop : forall e w, yields_only P (Stop e w)
  | yields_more : forall a w resume,
      P a -> (forall w', yields_only P (resume w')) ->
      yields_only P (Yield a w resume).

(** The entry [node] belongs to a page of events that the server sent. *)
Definition listed (http : nat -> Api.query -> result Api.response)
    (node : Api.event_date) : Prop :=
  exists n group event_type first after page,
    http n (Api.QGroupEvents group event_type first after)
    = Ok (Api.RGroupEvents (Some page))
    /\ In node (Api.events_edges page).

(** The event [e] is the answer of the server to the request for the
    details of a listed entry whose date is after [from_date]. *)
Definition expanded_after (http : nat -> Api.query -> result Api.response)
    (strptime : string -> result Z) (from_date : Z) (e : Api.event) : Prop :=
  exists node date n,
    listed http node
    /\ strptime (Api.node_dateTime node) = Ok date
    /\ from_date < date
    /\ http n (Api.QEvent (Api.node_id node)) = Ok (Api.REvent e).

(** The server holds the comments [all] of the event: a request at
    [offset] is answered with their number and with the next
    [min(limit, count - offset)] of them. *)
Definition serves_comments (http : nat -> Api.query -> result Api.response)
    (event_id : string) (all : list string) : Prop :=
  forall n offset limit,
    0 <= offset -> 0 <= limit ->
    http n (Api.QComments event_id offset limit)
    = Ok (Api.RComments
            {| Api.count := Z.of_nat (length all);
               Api.comments_edges :=
                 firstn (Z.to_nat limit) (skipn (Z.to_nat offset) all) |}).

(** The pages of tickets that the server sends from request [n] on, when
    the first of them is asked with [cursor] and each next one with the
    [endCursor] of the page before: all but the last report a next page. *)
Inductive ticket_chain (http : nat -> Api.query -> result Api.response)
    (event_id : string) (first : Z)
    : nat -> string -> list Api.tickets_node -> Prop :=
  | chain_last : forall n cursor page,
      http n (Api.QTickets event_id first (MeetupClient.quote cursor))
      = Ok (Api.RTickets page) ->
      Api.tickets_hasNextPage page = false ->
      ticket_chain http event_id first n cursor [page]
  | chain_next : forall n cursor page pages,
      http n (Api.QTickets event_id first (MeetupClient.quote cursor))
      = Ok (Api.RTickets page) ->
      Api.tickets_hasNextPage page = true ->
      ticket_chain http event_id first (S n) (Api.tickets_endCursor page) pages ->
      ticket_chain http event_id first n cursor (page :: pages).

(** The wait that the specification states for a reset instant [T] when
    the clock reads [now]. *)
Definition stated_wait (T now : Z) : Z := Z.max 0 (T - now).

(** The wait before a request does not raise: the client replays an
    archive, or the rate-limit wait returns. This is so, in particular,
    while the quota is unknown. *)
Definition wait_passes (c : MeetupClient.client) (w : MWorld) : Prop :=
  MeetupClient.from_archive c = true
  \/ (MeetupClient.sleep_for_rate_limit c w).1 = Ok tt.


(* ===================================================================== *)
(** * Example data *)

Definition example_client (v : Z * Z) (user : string) : GerritClient.client :=
  GerritClient.init "review.example.org" (Some user) 500 None false
    (Some PORT) None false v.

Definition example_review (updated : Z) : review :=
  {| number := 7; project_name := "perceval"; lastUpdated := updated;
     sortKey := Some "0033a1b200000007" |}.

(** A world in which the first run of any command fails and the second
    prints ["ok"]; an empty archive is configured. *)
Definition flaky_world : World :=
  {| proc := fun n _ => match n with 1%nat => Some "ok" | _ => None end;
     ncalls := 0; slept := []; archive := Some ∅ |}.

(** A world in which every command fails. *)
Definition dead_world : World :=
  {| proc := fun _ _ => None; ncalls := 0; slept := []; archive := Some ∅ |}.

Definition example_cmd : string :=
  "ssh  -p 29418 alice@review.example.org gerrit  version ".

Definition example_meetup_client (token : string) : MeetupClient.client :=
  {| MeetupClient.api_token := token;
     MeetupClient.max_items := 2;
     MeetupClient.sleep_for_rate := true;
     MeetupClient.min_rate_to_sleep := 1;
     MeetupClient.from_archive := false |}.

(** The scenario of the dual-queue merge: a Gerrit 2.8 server whose first
    answer is the page of open reviews updated at 50 and 40 and whose
    second answer is the page of closed reviews updated at 45 and 10. *)
Definition scenario_world : World :=
  {| proc := fun n _ =>
       match n with
       | 0%nat => Some "open"
       | 1%nat => Some "closed"
       | _ => None
       end;
     ncalls := 0; slept := []; archive := None |}.

Definition scenario_parse (raw : string) : result (list review) :=
  if bool_decide (raw = "open") then Ok [example_review 50; example_review 40]
  else if bool_decide (raw = "closed") then Ok [example_review 45; example_review 10]
  else Raise (Exception "malformed payload").

Definition scenario_backend : Gerrit.backend :=
  Gerrit.init "review.example.org" (Some "alice") (Some PORT) MAX_REVIEWS
    false None None false (2, 8).

(** A Meetup world before any request: the quota is unknown. *)
Definition fresh_mworld : MWorld :=
  {| nreq := 0; nreads := 0; mslept := [];
     rate_limit := None; rate_limit_reset_ts := None |}.

(** A Meetup world whose quota is used up, with a reset header of 100. *)
Definition low_quota_mworld : MWorld :=
  {| nreq := 3; nreads := 0; mslept := [];
     rate_limit := Some 0; rate_limit_reset_ts := Some 100 |}.

Definition example_comments : list string := ["c1"; "c2"; "c3"; "c4"; "c5"].

Definition example_tickets_1 : Api.tickets_node :=
  {| Api.tickets_edges := ["t1"; "t2"];
     Api.tickets_hasNextPage := true;
     Api.tickets_endCursor := "abc" |}.

Definition example_tickets_2 : Api.tickets_node :=
  {| Api.tickets_edges := ["t3"];
     Api.tickets_hasNextPage := false;
     Api.tickets_endCursor := "def" |}.

(** A server with one past event, five comments and three tickets. *)
Definition example_http (n : nat) (q : Api.query) : result Api.response :=
  match q with
  | Api.QGroupEvents _ event_type _ _ =>
      Ok (Api.RGroupEvents (Some
        {| Api.events_edges :=
             if bool_decide (event_type = MeetupClient.VPAST_EVENTS) then
               [{| Api.node_id := "e1";
                   Api.node_dateTime := "2021-05-04T18:30+02:00" |}]
             else [];
           Api.events_hasNextPage := false;
           Api.events_endCursor := "" |}))
  | Api.QEvent event_id =>
      Ok (Api.REvent
        {| Api.id := event_id; Api.dateTime := "2021-05-04T18:30+02:00";
           Api.body := "{}"; Api.comments := None; Api.rsvps := None;
           Api.fetched_on := None |})
  | Api.QComments _ offset limit =>
      Ok (Api.RComments
        {| Api.count := Z.of_nat (length example_comments);
           Api.comments_edges :=
             firstn (Z.to_nat limit) (skipn (Z.to_nat offset) example_comments) |})
  | Api.QTickets _ _ after =>
      Ok (Api.RTickets
        (if bool_decide (after = "null") then example_tickets_1
         else example_tickets_2))
  end.

(** Every date is read as the same instant. *)
Definition example_strptime (s : string) : result Z := Ok 1620145800.

(** The clocks of a first fetch and of a later one. *)
Definition first_clock (k : nat) : Z := 1700000000 + Z.of_nat k.

(** The state of the merge when the scenario starts. *)
Definition scenario_state : Gerrit.state28 :=
  {| Gerrit.last_item_open := CNone;
     Gerrit.last_item_closed := CNone;
     Gerrit.reviews_open := [example_review 50; example_review 40];
     Gerrit.reviews_closed := [example_review 45; example_review 10];
     Gerrit.last_nreviews_open := 2;
     Gerrit.last_nreviews_closed := 2;
     Gerrit.review_open := None;
     Gerrit.review_closed := None |}.

(** The state of the merge when the scenario stops: the open list is
    empty, the closed list holds the review updated at 10. *)
Definition scenario_last_state : Gerrit.state28 :=
  {| Gerrit.last_item_open := CNone;
     Gerrit.last_item_closed := CNone;
     Gerrit.reviews_open := [];
     Gerrit.reviews_closed := [example_review 10];
     Gerrit.last_nreviews_open := 2;
     Gerrit.last_nreviews_closed := 2;
     Gerrit.review_open := Some (example_review 40);
     Gerrit.review_closed := Some (example_review 45) |}.

(** A world that replays an archive in which the example command is
    recorded as failed. *)
Definition replay_world : World :=
  {| proc := fun _ _ => None; ncalls := 0; slept := [];
     archive := Some (Archive.store
                        (GerritClient.sanitize_for_archive example_cmd)
                        (Failure "gave up") ∅) |}.

(* ===================================================================== *)
(** * Vocabulary and data of the further properties *)

(** A backend that replays the archive of [replay_world]. *)
Definition replay_backend : Gerrit.backend :=
  Gerrit.init "review.example.org" (Some "alice") (Some PORT) MAX_REVIEWS
    false None None true (2, 10).

(** A backend for a server that runs Gerrit 2.9. *)
Definition gerrit29_backend : Gerrit.backend :=
  Gerrit.init "review.example.org" (Some "alice") (Some PORT) MAX_REVIEWS
    false None None false (2, 9).

(** The server pages by offset: Gerrit 2.x with x > 9, and Gerrit 3.x. *)
Definition pages_by_offset (v : Z * Z) : bool :=
  (v.1 =? 2) && (v.2 >? 9) || (v.1 =? 3).

(** The pages that the server sends from the world [w] on, when the first
    is asked at [offset] and each next one at the offset advanced by the
    number of reviews received so far: all but the last are full, the last
    is shorter than [max_reviews]. [w'] is the world after the last. *)
Inductive offset_chain (parse_reviews : string -> result (list review))
    (b : Gerrit.backend) : Z -> World -> list (list review) -> World -> Prop :=
  | offset_last : forall offset w page w',
      Gerrit._get_reviews parse_reviews b (CInt offset) None w = (Ok page, w') ->
      Gerrit.len page < Gerrit.max_reviews b ->
      offset_chain parse_reviews b offset w [page] w'
  | offset_next : forall offset w page w1 pages w',
      Gerrit._get_reviews parse_reviews b (CInt offset) None w = (Ok page, w1) ->
      Gerrit.max_reviews b <= Gerrit.len page ->
      offset_chain parse_reviews b (offset + Gerrit.len page) w1 pages w' ->
      offset_chain parse_reviews b offset w (page :: pages) w'.

(** A Gerrit 2.10 server that is asked for pages of two reviews, with an
    empty archive: its first answer is a full page, its second answer a
    page of one review. *)
Definition walk_backend (user : string) (from_archive : bool) : Gerrit.backend :=
  Gerrit.init "review.example.org" (Some user) (Some PORT) 2
    false None None from_archive (2, 10).

Definition walk_world : World :=
  {| proc := fun n _ =>
       match n with
       | 0%nat => Some "first"
       | 1%nat => Some "second"
       | _ => None
       end;
     ncalls := 0; slept := []; archive := Some ∅ |}.

Definition walk_parse (raw : string) : result (list review) :=
  if bool_decide (raw = "first") then Ok [example_review 50; example_review 40]
  else if bool_decide (raw = "second") then Ok [example_review 30]
  else Raise (Exception "malformed payload").

(** The character [x] does not occur in [s]. *)
Fixpoint free_of (x : ascii) (s : string) : bool :=
  match s with
  | EmptyString => true
  | String c s' => negb (Ascii.eqb c x) && free_of x s'
  end.





(** The lines [lines], each followed by the character [c]. *)
Fixpoint ended_by (c : ascii) (lines : list string) : string :=
  match lines with
  | [] => EmptyString
  | l :: lines' => l +:+ String c (ended_by c lines')
  end.

(** The lines [lines], each ended by a newline: the output of a command
    that prints one line per row. *)
Definition unlines (lines : list string) : string := ended_by Py.newline lines.

(** The item is a JSON object. *)
Definition is_object (item : Json.value) : bool :=
  match item with
  | Json.Object _ => true
  | _ => false
  end.

(** The item is a JSON object with a ['project'] key. *)
Definition has_project (item : Json.value) : bool :=
  match item with
  | Json.Object fields => Json.has_key "project" fields
  | _ => false
  end.

(** Every character of [s] is a digit. *)
Fixpoint all_digits (s : string) : bool :=
  match s with
  | EmptyString => true
  | String c s' => GerritClient.isdigit c && all_digits s'
  end.

(** [s] starts with a digit. *)
Definition head_is_digit (s : string) : bool :=
  match s with
  | EmptyString => false
  | String c _ => GerritClient.isdigit c
  end.

(** The value of a decimal numeral. *)
Definition decimal (s : string) : Z :=
  fold_left (fun n c => 10 * n + (Z.of_N (N_of_ascii c) - 48))
    (list_ascii_of_string s) 0.

(** An [int] that reads every string as a decimal numeral. *)
Definition example_int (s : string) : result Z := Ok (decimal s).

(** A world whose server answers every command with the version line of
    Gerrit 2.10. *)
Definition version_world : World :=
  {| proc := fun _ _ => Some "gerrit version 2.10-rc1-988-g333a9dd";
     ncalls := 0; slept := []; archive := None |}.

(** A decoder that knows one text: an array of a review and of the
    statistics row that ends the output of a query. *)
Definition example_loads (s : string) : result Json.value :=
  if bool_decide (s = "[{review},{stats}]") then
    Ok (Json.Array [Json.Object [("project", Json.Str "perceval");
                                 ("number", Json.Int 7)];
                    Json.Object [("type", Json.Str "stats");
                                 ("rowCount", Json.Int 1)]])
  else Raise (Exception "JSONDecodeError").

(** A generator run to its end by a consumer that does nothing between
    two values. *)
Fixpoint drain {A : Type} (g : gen A) : mrun A :=
  match g with
  | Stop e w => mstop e w
  | Yield a w resume => myield a (drain (resume w))
  end.

(** The generator yields the values [l], in this order, and then
    completes, whatever its consumer does between two values, as long as it
    resumes the generator in a world where the wait before a request does
    not raise. *)
Inductive yields_exactly {A : Type} (c : MeetupClient.client)
    : gen A -> list A -> Prop :=
  | exactly_done : forall w, yields_exactly c (Stop Completed w) []
  | exactly_more : forall a w resume l,
      wait_passes c w ->
      (forall w', wait_passes c w' -> yields_exactly c (resume w') l) ->
      yields_exactly c (Yield a w resume) (a :: l).

(** The pages of the listing of one type of events that the server sends
    when the first is asked with [cursor] and each next one with the
    [endCursor] of the page before: all but the last report a next page.
    The server answers a query in the same way whenever it is asked. *)
Inductive events_chain (server : Api.query -> result Api.response)
    (group : string) (first : Z) (event_type : string)
    : string -> list Api.events_page -> Prop :=
  | events_last : forall cursor page,
      server (Api.QGroupEvents group event_type first (MeetupClient.quote cursor))
      = Ok (Api.RGroupEvents (Some page)) ->
      Api.events_hasNextPage page = false ->
      events_chain server group first event_type cursor [page]
  | events_next : forall cursor page pages,
      server (Api.QGroupEvents group event_type first (MeetupClient.quote cursor))
      = Ok (Api.RGroupEvents (Some page)) ->
      Api.events_hasNextPage page = true ->
      events_chain server group first event_type (Api.events_endCursor page) pages ->
      events_chain server group first event_type cursor (page :: pages).

(** The entries of the pages of a listing. *)
Definition entries (pages : list Api.events_page) : list Api.event_date :=
  concat (map Api.events_edges pages).

(** The details of the entries whose date is after [from_date]. *)
Definition expanded (date : Api.event_date -> Z)
    (details : Api.event_date -> Api.event) (from_date : Z)
    (edges : list Api.event_date) : list Api.event :=
  map details (List.filter (fun node => date node >? from_date) edges).

(** A server that answers every query in the same way, whenever asked. *)
Definition stable (server : Api.query -> result Api.response)
    : nat -> Api.query -> result Api.response :=
  fun _ => server.

(** The server has a date for the entry [node], which [strptime] reads,
    and, when the date is after [from_date], the details of its event. *)
Definition known (server : Api.query -> result Api.response)
    (strptime : string -> result Z) (from_date : Z)
    (date : Api.event_date -> Z) (details : Api.event_date -> Api.event)
    (node : Api.event_date) : Prop :=
  strptime (Api.node_dateTime node) = Ok (date node)
  /\ (from_date < date node ->
      server (Api.QEvent (Api.node_id node)) = Ok (Api.REvent (details node))).

(** The details that the example server has for an entry. *)
Definition example_details (node : Api.event_date) : Api.event :=
  {| Api.id := Api.node_id node; Api.dateTime := "2021-05-04T18:30+02:00";
     Api.body := "{}"; Api.comments := None; Api.rsvps := None;
     Api.fetched_on := None |}.

Definition example_entry : Api.event_date :=
  {| Api.node_id := "e1"; Api.node_dateTime := "2021-05-04T18:30+02:00" |}.

Definition example_past_page : Api.events_page :=
  {| Api.events_edges := [example_entry];
     Api.events_hasNextPage := false;
     Api.events_endCursor := "" |}.

Definition example_upcoming_page : Api.events_page :=
  {| Api.events_edges := [];
     Api.events_hasNextPage := false;
     Api.events_endCursor := "" |}.

(** The generator does not read the clock: the worlds in which it yields
    and stops have the number of readings of the world in which it was
    started or resumed, [n]. *)
Inductive reads_kept {A : Type} (n : nat) : gen A -> Prop :=
  | kept_stop : forall e w, nreads w = n -> reads_kept n (Stop e w)
  | kept_yield : forall a w resume,
      nreads w = n ->
      (forall w', reads_kept (nreads w') (resume w')) ->
      reads_kept n (Yield a w resume).

(** The update times of the items never decrease. *)
Fixpoint stamps_sorted (items : list Api.event) : Prop :=
  match items with
  | [] => True
  | item :: items' =>
      Forall (fun later =>
                exists t t', Api.fetched_on item = Some t
                             /\ Api.fetched_on later = Some t' /\ t <= t')
        items'
      /\ stamps_sorted items'
  end.

(** The server holds the comments and the rsvps of the event, and [fuel]
    pages are enough to walk them. *)
Definition subresources_known (server : Api.query -> result Api.response)
    (c : MeetupClient.client) (fuel : nat)
    (comments_of rsvps_of : Api.event -> list string) (event : Api.event)
    : Prop :=
  serves_comments (stable server) (Api.id event) (comments_of event)
  /\ Z.of_nat (length (comments_of event))
     <= Z.of_nat fuel * MeetupClient.max_items c
  /\ exists pages,
       ticket_chain (stable server) (Api.id event) (MeetupClient.max_items c)
         0 "null" pages
       /\ (length pages <= fuel)%nat
       /\ concat (map Api.tickets_edges pages) = rsvps_of event.

(** A client whose page size is 0. *)
Definition unpaged_meetup_client : MeetupClient.client :=
  {| MeetupClient.api_token := "secret";
     MeetupClient.max_items := 0;
     MeetupClient.sleep_for_rate := false;
     MeetupClient.min_rate_to_sleep := 1;
     MeetupClient.from_archive := false |}.

(** A server that knows no group. *)
Definition empty_http (n : nat) (q : Api.query) : result Api.response :=
  Ok (Api.RGroupEvents None).

(** Two worlds that differ in their archive at most. *)
Definition same_but_archive (w1 w2 : World) : Prop :=
  proc w1 = proc w2 /\ ncalls w1 = ncalls w2 /\ slept w1 = slept w2.

(** Two runs that yield the same reviews, receive the same pages and end
    in the same way, in worlds that differ in their archive at most. *)
Definition same_run (r1 r2 : Gerrit.run) : Prop :=
  Gerrit.emitted r1 = Gerrit.emitted r2
  /\ Gerrit.fetched r1 = Gerrit.fetched r2
  /\ Gerrit.ended r1 = Gerrit.ended r2
  /\ same_but_archive (Gerrit.final r1) (Gerrit.final r2).

(** The world [w] without an archive. *)
Definition without_archive (w : World) : World :=
  {| proc := proc w; ncalls := ncalls w; slept := slept w; archive := None |}.

(** A backend whose [max_reviews] is 0, which [Gerrit.__init__] never
    builds, for a server that runs Gerrit 2.8 and has no open review. *)
Definition unclamped_backend : Gerrit.backend :=
  {| Gerrit.hostname := "review.example.org";
     Gerrit.max_reviews := 0;
     Gerrit.client := example_client (2, 8) "alice" |}.

Definition unclamped_world : World :=
  {| proc := fun n _ =>
       match n with
       | 0%nat => Some "none"
       | _ => Some "closed"
       end;
     ncalls := 0; slept := []; archive := None |}.

Definition unclamped_parse (raw : string) : result (list review) :=
  if bool_decide (raw = "none") then Ok [] else Ok [example_review 45].

(* ===================================================================== *)
(** * Properties *)

(** ** Strings *)

Lemma append_nil (b : string) : "" +:+ b = b.
Proof. reflexivity. Qed.

Lemma append_cons (x : ascii) (a b : string) :
  String x a +:+ b = String x (a +:+ b).
Proof. reflexivity. Qed.

Lemma append_assoc (a b c : string) : (a +:+ b) +:+ c = a +:+ b +:+ c.
Proof.
  induction a as [|x a IH]; [reflexivity|].
  rewrite !append_cons. now rewrite IH.
Qed.

(** ** The sanitizer of Gerrit commands *)

Section Sanitizer.

Import Re.

Lemma match_user_le s n : match_user s = Some n -> (n <= String.length s)%nat.
Proof.
  revert n. induction s as [|c s IH]; simpl; intros n H; [discriminate|].
  destruct (Py.isspace c); [discriminate|].
  destruct (match_user s) as [m|].
  - injection H as <-. specialize (IH m eq_refl). lia.
  - destruct (Ascii.eqb c "@"); [|discriminate]. injection H as <-. lia.
Qed.

(** A match never extends over a whitespace character. *)
Lemma match_user_stops pre c rest :
  Py.isspace c = true ->
  match_user (pre +:+ String c rest) = match_user pre.
Proof.
  intros Hc. induction pre as [|x pre IH].
  - rewrite append_nil. simpl. now rewrite Hc.
  - rewrite append_cons. simpl. now rewrite IH.
Qed.

(** The user segment is matched whole, up to the last ["@"] of its word. *)
Lemma match_user_segment u post :
  Py.nospace u = true ->
  match_user (u +:+ "@" +:+ post)
  = Some (String.length u + 1 + default 0 (match_user post))%nat.
Proof.
  induction u as [|x u IH]; intros H.
  - rewrite append_nil, append_cons, append_nil. simpl.
    destruct (match_user post); reflexivity.
  - simpl in H. apply andb_prop in H as [Hx Hu]. apply negb_true_iff in Hx.
    rewrite append_cons. simpl. rewrite Hx, (IH Hu). reflexivity.
Qed.

(** What [match_user] reports is a match of [\S*@], and the longest one:
    no ["@"] follows it in the same word. *)
Lemma match_user_longest s n :
  match_user s = Some n ->
  exists t rest,
    s = t +:+ "@" +:+ rest /\ Py.nospace t = true
    /\ n = S (String.length t) /\ match_user rest = None.
Proof.
  revert n. induction s as [|c s IH]; intros n H; [discriminate|].
  cbn [match_user] in H. destruct (Py.isspace c) eqn:Hc; [discriminate|].
  destruct (match_user s) as [m|] eqn:Hs.
  - injection H as <-. destruct (IH m eq_refl) as (t & rest & -> & Ht & -> & Hr).
    exists (String c t), rest. cbn [Py.nospace String.length].
    rewrite Hc, Ht. repeat split; assumption.
  - destruct (Ascii.eqb c "@") eqn:E; [|discriminate]. injection H as <-.
    apply Ascii.eqb_eq in E. subst c. exists "", s. repeat split; assumption.
Qed.

(** Where [\S*@] has a match, [match_user] reports one. *)
Lemma match_user_complete t rest :
  Py.nospace t = true -> is_Some (match_user (t +:+ "@" +:+ rest)).
Proof. intros H. rewrite (match_user_segment t rest H). eauto. Qed.

Lemma sub_go_skip repl m k s :
  sub_go repl (String.length m + k) (m +:+ s) = sub_go repl k s.
Proof.
  induction m as [|x m IH]; [reflexivity|].
  rewrite append_cons. simpl. exact IH.
Qed.

(** The substitution works word by word: what precedes a space is
    rewritten on its own. *)
Lemma sub_go_split repl pre rest k :
  (k <= String.length pre)%nat ->
  sub_go repl k (pre +:+ String " " rest)
  = sub_go repl k pre +:+ sub_go repl 0 (String " " rest).
Proof.
  revert k. induction pre as [|x pre IH]; intros k Hk.
  - simpl in Hk. assert (k = 0%nat) as -> by lia. reflexivity.
  - rewrite append_cons. cbn [sub_go]. destruct k as [|k].
    + destruct (Ascii.eqb x " ").
      * rewrite match_user_stops by reflexivity.
        destruct (match_user pre) as [n|] eqn:Hn.
        -- rewrite IH by (now apply match_user_le).
           now rewrite append_assoc.
        -- rewrite IH by lia. now rewrite append_cons.
      * rewrite IH by lia. now rewrite append_cons.
    + apply IH. simpl in Hk. lia.
Qed.

Lemma sanitize_user_segment pre u post :
  Py.nospace u = true ->
  GerritClient.sanitize_for_archive (pre +:+ " " +:+ u +:+ "@" +:+ post)
  = masked pre post.
Proof.
  intros Hu. unfold GerritClient.sanitize_for_archive, sub_user, masked.
  change (pre +:+ " " +:+ u +:+ "@" +:+ post)
    with (pre +:+ String " " (u +:+ "@" +:+ post)).
  rewrite sub_go_split by lia.
  unfold GerritClient.sanitize_for_archive, sub_user. f_equal.
  cbn [sub_go]. change (Ascii.eqb " " " ") with true. cbv iota.
  rewrite (match_user_segment u post Hu).
  rewrite <- Nat.add_assoc, sub_go_skip.
  reflexivity.
Qed.

Example sanitize_gerrit_command :
  GerritClient.sanitize_for_archive
    "ssh  -p 29418 alice@review.example.org gerrit  version "
  = "ssh  -p 29418 xxxxx@review.example.org gerrit  version ".
Proof. reflexivity. Qed.

Example sanitize_is_greedy :
  GerritClient.sanitize_for_archive "ssh a@b@host x y@ z @ @@q no-at"
  = "ssh xxxxx@host x xxxxx@ z xxxxx@ xxxxx@q no-at".
Proof. reflexivity. Qed.

Example sanitize_needs_a_space :
  GerritClient.sanitize_for_archive "alice@review.example.org gerrit"
  = "alice@review.example.org gerrit".
Proof. reflexivity. Qed.

End Sanitizer.

(** ** Commands of clients that differ in the user only *)

Section Commands.

Import GerritClient.

Lemma init_cmd_shape repository max_reviews blacklist nohk port idf fa v :
  exists pre, forall user,
    gerrit_cmd (init repository user max_reviews blacklist nohk port idf fa v)
    = pre +:+ " " +:+ Py.str_opt user +:+ "@" +:+ repository +:+ " gerrit ".
Proof.
  unfold init. cbn [gerrit_cmd].
  set (opts := if Py.truthy idf then _ else _).
  destruct (port_truthy port).
  - exists ("ssh " +:+ opts +:+ " -p " +:+ port_str port). intros user.
    rewrite !append_assoc. reflexivity.
  - exists ("ssh " +:+ opts). intros user.
    rewrite !append_assoc. reflexivity.
Qed.

Lemma get_cmd_same_key c1 c2 pre post u1 u2 last_item filter_ :
  gerrit_cmd c1 = pre +:+ " " +:+ u1 +:+ "@" +:+ post ->
  gerrit_cmd c2 = pre +:+ " " +:+ u2 +:+ "@" +:+ post ->
  project c1 = project c2 ->
  max_reviews c1 = max_reviews c2 ->
  blacklist_reviews c1 = blacklist_reviews c2 ->
  version c1 = version c2 ->
  Py.nospace u1 = true -> Py.nospace u2 = true ->
  same_key (_get_gerrit_cmd c1 last_item filter_)
           (_get_gerrit_cmd c2 last_item filter_).
Proof.
  intros G1 G2 Hp Hm Hb Hv N1 N2. unfold _get_gerrit_cmd.
  rewrite G1, G2, Hp, Hm, Hb, Hv.
  repeat case_match; unfold same_key; try reflexivity;
    rewrite !append_assoc;
    now rewrite (sanitize_user_segment pre u1), (sanitize_user_segment pre u2).
Qed.

Example command_with_offset :
  _get_gerrit_cmd (example_client (2, 10) "alice") (CInt 0) None
  = Ok ("ssh  -p 29418 alice@review.example.org gerrit  query limit:500"
        +:+ " '(status:open OR status:closed)'"
        +:+ " --all-approvals --comments --format=JSON --start=0").
Proof. reflexivity. Qed.

Example command_with_sort_key :
  _get_gerrit_cmd
    (init "host" None 10 (Some ["1"; "2"]) true (Some (PortInt 22))
       (Some "/k/id") false (2, 7))
    (CStr "abc") (Some "status:open")
  = Ok ("ssh -o StrictHostKeyChecking=no -i /k/id  -p 22 None@host gerrit "
        +:+ " query limit:10 'status:open AND NOT (1,2)'"
        +:+ " --all-approvals --comments --format=JSON resume_sortkey:abc").
Proof. reflexivity. Qed.

Example command_with_unknown_filter :
  _get_gerrit_cmd (example_client (3, 0) "alice") CNone (Some "status:merged")
  = Raise (BackendError "Filter not supported in gerrit status:merged").
Proof. reflexivity. Qed.

End Commands.

(** ** The ssh transport *)

Section Transport.

Import GerritClient.

Lemma attempts_success left : forall retries cmd w j out,
  (j < left)%nat ->
  (forall i, (i < j)%nat -> proc w (ncalls w + i)%nat cmd = None) ->
  proc w (ncalls w + j)%nat cmd = Some out ->
  attempts left retries cmd w
  = (Some out,
     {| proc := proc w; ncalls := ncalls w + S j;
        slept := slept w
                 ++ map (fun i => RETRY_WAIT * (retries + Z.of_nat i)) (seq 0 j);
        archive := archive w |}).
Proof.
  induction left as [|left IH]; intros retries cmd w j out Hj Hfail Hok; [lia|].
  cbn [attempts check_output]. destruct j as [|j].
  - rewrite Nat.add_0_r in Hok. rewrite Hok. cbn [seq map].
    rewrite app_nil_r. do 2 f_equal. lia.
  - rewrite <- (Nat.add_0_r (ncalls w)) at 1. rewrite (Hfail 0%nat) by lia.
    rewrite (IH (retries + 1) cmd _ j out); cbn [proc ncalls slept archive sleep].
    + do 2 f_equal; [lia|]. rewrite <- app_assoc. f_equal.
      cbn [seq map]. rewrite Z.add_0_r. cbn [app]. f_equal.
      rewrite <- seq_shift, map_map. apply map_ext. intros i. f_equal. lia.
    + lia.
    + intros i Hi. rewrite <- (Hfail (S i)) by lia. f_equal. lia.
    + rewrite <- Hok. f_equal. lia.
Qed.

Lemma attempts_failure left : forall retries cmd w,
  fails_for left cmd w ->
  attempts left retries cmd w
  = (None,
     {| proc := proc w; ncalls := ncalls w + left;
        slept := slept w
                 ++ map (fun i => RETRY_WAIT * (retries + Z.of_nat i)) (seq 0 left);
        archive := archive w |}).
Proof.
  induction left as [|left IH]; intros retries cmd w Hfail.
  - cbn [attempts seq map]. rewrite app_nil_r, Nat.add_0_r. now destruct w.
  - cbn [attempts check_output].
    rewrite <- (Nat.add_0_r (ncalls w)) at 1. rewrite (Hfail 0%nat) by lia.
    rewrite (IH (retries + 1) cmd); cbn [proc ncalls slept archive sleep].
    + do 2 f_equal; [lia|]. rewrite <- app_assoc. f_equal.
      cbn [seq map]. rewrite Z.add_0_r. cbn [app]. f_equal.
      rewrite <- seq_shift, map_map. apply map_ext. intros i. f_equal. lia.
    + intros i Hi. cbn [proc ncalls sleep].
      rewrite <- (Hfail (S i)) by lia. f_equal. lia.
Qed.

End Transport.

(** ** Statements about the Gerrit client *)

(** C7. The cursor of the next page depends on the version of the server.
    For 2.x with x > 9 and for 3.x it is an offset: 0 on the first call,
    afterwards the offset that the caller has advanced. For 2.9 the call
    raises a [BackendError], whatever its arguments. For any other version,
    which includes every version older than 2.9, it is the ['sortKey'] of
    the entry that was popped last. *)
Theorem next_retrieve_group_item_by_version :
  forall (c : GerritClient.client) (last_item : cursor) (entry : option review),
    let v := GerritClient.version c in
    ((v.1 = 2 /\ v.2 > 9) \/ v.1 = 3 ->
       GerritClient.next_retrieve_group_item c CNone entry = Ok (CInt 0)
       /\ forall n, GerritClient.next_retrieve_group_item c (CInt n) entry
                    = Ok (CInt n))
    /\ (v.1 = 2 /\ v.2 = 9 ->
        GerritClient.next_retrieve_group_item c last_item entry
        = Raise (BackendError "Gerrit 2.9.0 does not support pagination"))
    /\ (~ ((v.1 = 2 /\ v.2 >= 9) \/ v.1 = 3) ->
        forall e k, sortKey e = Some k ->
          GerritClient.next_retrieve_group_item c last_item (Some e)
          = Ok (CStr k)).
Proof.
  intros c last_item entry v. unfold GerritClient.next_retrieve_group_item.
  fold v. split; [|split].
  - intros H.
    assert ((v.1 =? 2) && (v.2 >? 9) || (v.1 =? 3) = true) as ->.
    { destruct H as [[H1 H2]|H]; rewrite ?orb_true_iff, ?andb_true_iff; lia. }
    split; reflexivity.
  - intros [H1 H2]. rewrite H1, H2. reflexivity.
  - intros H e k Hk.
    assert ((v.1 =? 2) && (v.2 >? 9) || (v.1 =? 3) = false) as ->.
    { rewrite orb_false_iff, andb_false_iff. lia. }
    assert ((v.1 =? 2) && (v.2 =? 9) = false) as ->.
    { rewrite andb_false_iff. lia. }
    now rewrite Hk.
Qed.

Lemma next_retrieve_group_item_by_version_witness :
  GerritClient.next_retrieve_group_item (example_client (2, 10) "alice") CNone None
    = Ok (CInt 0)
  /\ GerritClient.next_retrieve_group_item (example_client (3, 1) "alice")
       (CInt 500) (Some (example_review 50)) = Ok (CInt 500)
  /\ GerritClient.next_retrieve_group_item (example_client (2, 9) "alice") CNone None
     = Raise (BackendError "Gerrit 2.9.0 does not support pagination")
  /\ GerritClient.next_retrieve_group_item (example_client (2, 8) "alice")
       CNone (Some (example_review 50)) = Ok (CStr "0033a1b200000007").
Proof.
  split; [|split; [|split]].
  - apply (next_retrieve_group_item_by_version
             (example_client (2, 10) "alice") CNone None).
    left. split; [reflexivity | reflexivity].
  - apply (next_retrieve_group_item_by_version
             (example_client (3, 1) "alice") CNone (Some (example_review 50))).
    right. reflexivity.
  - apply (next_retrieve_group_item_by_version
             (example_client (2, 9) "alice") CNone None).
    split; reflexivity.
  - apply (next_retrieve_group_item_by_version
             (example_client (2, 8) "alice") CNone None).
    + cbn. lia.
    + reflexivity.
Defined.

(** How the cursor travels in the next command: versions with offsets send
    [--start=<offset>], the others send [resume_sortkey:<key>]. *)
Lemma cursor_in_command (c : GerritClient.client) (filter_ : option string)
    (base : string) :
  GerritClient._get_gerrit_cmd c CNone filter_ = Ok base ->
  let v := GerritClient.version c in
  ((v.1 = 2 /\ v.2 >= 9) \/ v.1 = 3 ->
     forall n, GerritClient._get_gerrit_cmd c (CInt n) filter_
               = Ok (base +:+ " --start=" +:+ pretty n))
  /\ (~ ((v.1 = 2 /\ v.2 >= 9) \/ v.1 = 3) ->
      forall k, GerritClient._get_gerrit_cmd c (CStr k) filter_
                = Ok (base +:+ " resume_sortkey:" +:+ k)).
Proof.
  intros Hbase v. subst v. revert Hbase.
  unfold GerritClient._get_gerrit_cmd.
  set (v := GerritClient.version c). intros Hbase.
  destruct (Py.truthy filter_ && _); [discriminate|].
  injection Hbase as <-. split; intros H.
  - intros n.
    assert ((v.1 =? 2) && (v.2 >=? 9) || (v.1 =? 3) = true) as ->; [|reflexivity].
    destruct H as [[H1 H2]|H]; rewrite ?orb_true_iff, ?andb_true_iff; lia.
  - intros k.
    assert ((v.1 =? 2) && (v.2 >=? 9) || (v.1 =? 3) = false) as ->; [|reflexivity].
    rewrite orb_false_iff, andb_false_iff. lia.
Qed.




(** ** Record and replay *)

Lemma execute_from_remote_stores cmd w a :
  archive w = Some a ->
  exists R,
    (GerritClient.__execute_from_remote cmd w).1 = replayed R
    /\ archive (GerritClient.__execute_from_remote cmd w).2
       = Some (Archive.store (GerritClient.sanitize_for_archive cmd) R a).
Proof.
  intros Ha. unfold GerritClient.__execute_from_remote.
  destruct (GerritClient.attempts _ _ cmd w) as [result w'] eqn:E.
  assert (archive w' = archive w) as Hw'.
  { clear Ha. revert E.
    generalize (Z.to_nat (GerritClient.MAX_RETRIES - 0)) as n.
    generalize 0 as retries. intros retries n. revert retries w.
    induction n as [|n IH]; intros retries w E;
      cbn [GerritClient.attempts check_output] in E.
    - injection E as _ <-. reflexivity.
    - destruct (proc w (ncalls w) cmd).
      + injection E as _ <-. reflexivity.
      + apply IH in E. exact E. }
  rewrite Hw', Ha.
  destruct result as [raw|].
  - exists (Data raw). split; reflexivity.
  - eexists (Failure _). split; reflexivity.
Qed.

Lemma execute_from_archive_replays cmd cmd' R a w :
  GerritClient.sanitize_for_archive cmd' = GerritClient.sanitize_for_archive cmd ->
  archive w = Some (Archive.store (GerritClient.sanitize_for_archive cmd) R a) ->
  GerritClient.__execute_from_archive cmd' w = (replayed R, w).
Proof.
  intros Hkey Ha. unfold GerritClient.__execute_from_archive.
  rewrite Ha, Hkey. unfold Archive.retrieve, Archive.store.
  rewrite lookup_insert_eq. now destruct R.
Qed.

(** A command recorded by one user is replayed for another: the two
    commands have the same key. *)
Lemma replay_with_other_user cmd cmd' a w :
  same_key (Ok cmd) (Ok cmd') ->
  archive w = Some a ->
  GerritClient.__execute_from_archive cmd'
    (GerritClient.__execute_from_remote cmd w).2
  = GerritClient.__execute_from_remote cmd w.
Proof.
  intros Hkey Ha.
  destruct (execute_from_remote_stores cmd w a Ha) as (R & Hout & Hstored).
  rewrite (execute_from_archive_replays cmd cmd' R a _ (eq_sym Hkey) Hstored).
  rewrite <- Hout. now destruct (GerritClient.__execute_from_remote cmd w).
Qed.

(** C5. Whatever a stored outcome [R] is, replaying the command [cmd]
    from an archive that holds [R] under the sanitized [cmd] returns the
    data of [R] when [R] is a result and raises the error of [R] when [R]
    is an error. The transport stores the outcome of every command it runs,
    a result and a final failure alike, so running a command and then
    replaying it ends in the same way: the same bytes returned, or the same
    [RuntimeError] raised. *)
Theorem archive_round_trip :
  forall (cmd : string) (a : gmap string payload) (w : World),
    (forall R,
       archive w = Some (Archive.store (GerritClient.sanitize_for_archive cmd) R a) ->
       GerritClient.__execute_from_archive cmd w
       = (match R with
          | Data raw => Ok raw
          | Failure msg => Raise (RuntimeError msg)
          end, w))
    /\ (archive w = Some a ->
        let recorded := GerritClient.__execute_from_remote cmd w in
        GerritClient.__execute_from_archive cmd recorded.2
        = (recorded.1, recorded.2)).
Proof.
  intros cmd a w. split.
  - intros R Ha. now apply (execute_from_archive_replays cmd cmd R a).
  - intros Ha recorded. subst recorded.
    destruct (execute_from_remote_stores cmd w a Ha) as (R & Hout & Hstored).
    rewrite Hout. now apply (execute_from_archive_replays cmd cmd R a).
Qed.

Lemma archive_round_trip_witness :
  GerritClient.__execute_from_archive example_cmd
    (GerritClient.__execute_from_remote example_cmd flaky_world).2
  = (Ok "ok", (GerritClient.__execute_from_remote example_cmd flaky_world).2)
  /\ (GerritClient.__execute_from_archive example_cmd
        (GerritClient.__execute_from_remote example_cmd dead_world).2).1
     = Raise (RuntimeError (example_cmd +:+ " failed 3 times. Giving up!"))
  /\ GerritClient.__execute_from_archive example_cmd replay_world
     = (Raise (RuntimeError "gave up"), replay_world).
Proof.
  split; [|split].
  - apply (proj2 (archive_round_trip example_cmd ∅ flaky_world)). reflexivity.
  - rewrite (proj2 (archive_round_trip example_cmd ∅ dead_world) eq_refl).
    reflexivity.
  - apply (proj1 (archive_round_trip example_cmd ∅ replay_world)
             (Failure "gave up")). reflexivity.
Defined.

(** ** Sanitization and credentials *)

(** C8. The archive key does not depend on the credentials. For Gerrit: a
    command [pre user@post] whose user segment holds no whitespace is
    sanitized to a text that is built from [pre] and [post] alone, with the
    mask in place of the user; hence the commands of two clients that
    differ in the user only have the same key. For Meetup: the sanitized
    headers hold no ['Authorization'] entry, and headers that differ in
    the bearer token only are sanitized to the same triple. *)
Theorem sanitize_credential_independent :
  (forall pre user post,
     Py.nospace user = true ->
     GerritClient.sanitize_for_archive (pre +:+ " " +:+ user +:+ "@" +:+ post)
     = masked pre post)
  /\ (forall repository user1 user2 max_reviews blacklist nohostkey port
        id_filepath from_archive version last_item filter_,
       Py.nospace (Py.str_opt user1) = true ->
       Py.nospace (Py.str_opt user2) = true ->
       same_key
         (GerritClient._get_gerrit_cmd
            (GerritClient.init repository user1 max_reviews blacklist nohostkey
               port id_filepath from_archive version) last_item filter_)
         (GerritClient._get_gerrit_cmd
            (GerritClient.init repository user2 max_reviews blacklist nohostkey
               port id_filepath from_archive version) last_item filter_))
  /\ (forall url payload (h : gmap string string) token1 token2 c1 c2,
       MeetupClient.sanitize_for_archive url
         (<[MeetupClient.PKEY_OAUTH2 := token1]> h) payload
       = MeetupClient.sanitize_for_archive url
           (<[MeetupClient.PKEY_OAUTH2 := token2]> h) payload
       /\ MeetupClient.sanitize_for_archive url (MeetupClient.headers c1) payload
          = MeetupClient.sanitize_for_archive url (MeetupClient.headers c2) payload
       /\ (MeetupClient.sanitize_for_archive url (MeetupClient.headers c1) payload).1.2
            !! MeetupClient.PKEY_OAUTH2 = None).
Proof.
  split; [|split].
  - exact sanitize_user_segment.
  - intros repository user1 user2 max_reviews blacklist nohostkey port
      id_filepath from_archive version last_item filter_ N1 N2.
    destruct (init_cmd_shape repository max_reviews blacklist nohostkey port
                id_filepath from_archive version) as [pre Hpre].
    eapply get_cmd_same_key; try apply Hpre; try reflexivity; assumption.
  - intros url payload h token1 token2 c1 c2.
    unfold MeetupClient.sanitize_for_archive, MeetupClient.headers.
    cbn [fst snd]. split; [|split].
    + now rewrite !delete_insert_eq.
    + rewrite !(delete_insert_ne _ MeetupClient.PKEY_OAUTH2) by discriminate.
      now rewrite !delete_insert_eq.
    + apply lookup_delete_eq.
Qed.

Lemma sanitize_credential_independent_witness :
  GerritClient.sanitize_for_archive
    "ssh  -p 29418 alice@review.example.org gerrit  version "
  = masked "ssh  -p 29418" "review.example.org gerrit  version "
  /\ same_key
       (GerritClient._get_gerrit_cmd (example_client (2, 8) "alice")
          (CStr "0033a1b200000007") (Some "status:open"))
       (GerritClient._get_gerrit_cmd (example_client (2, 8) "bob")
          (CStr "0033a1b200000007") (Some "status:open")).
Proof.
  split.
  - apply (proj1 sanitize_credential_independent "ssh  -p 29418" "alice"
             "review.example.org gerrit  version "). reflexivity.
  - apply (proj1 (proj2 sanitize_credential_independent)); reflexivity.
Defined.

(** ** The fetch loops of Gerrit *)

Section FetchProperties.

Import Gerrit.

Variable parse_reviews : string -> result (list review).
Variable b : backend.
Variable from_ut : Q.

Abbreviation loop28 := (Gerrit.loop28 parse_reviews b from_ut).
Abbreviation loop := (Gerrit.loop parse_reviews b from_ut).
Abbreviation refill_open := (Gerrit.refill_open parse_reviews b).
Abbreviation refill_closed := (Gerrit.refill_closed parse_reviews b).
Abbreviation request := (Gerrit.request parse_reviews b).

(** *** What the pieces of a run emit *)

Lemma try_emitted {A} (P : review -> Prop) (r : result A) w k :
  (forall a, Forall P (emitted (k a))) -> Forall P (emitted (try r w k)).
Proof. intros H. destruct r; cbn; [apply H | constructor]. Qed.

Lemma request_emitted (P : review -> Prop) last_item filter_ w k :
  (forall page w', Forall P (emitted (k page w'))) ->
  Forall P (emitted (request last_item filter_ w k)).
Proof.
  intros H. unfold Gerrit.request.
  destruct (_get_reviews _ _ _ _ _) as [[page|e] w']; cbn;
    [apply H | constructor].
Qed.

Lemma refill_open_emitted (P : review -> Prop) s w k :
  (forall s' w', Forall P (emitted (k s' w'))) ->
  Forall P (emitted (refill_open s w k)).
Proof.
  intros H. unfold Gerrit.refill_open.
  destruct (reviews_open s); [|apply H].
  destruct (_ >=? _); [|apply H].
  apply try_emitted. intros a. apply request_emitted. intros page w'. apply H.
Qed.

Lemma refill_closed_emitted (P : review -> Prop) s w k :
  (forall s' w', Forall P (emitted (k s' w'))) ->
  Forall P (emitted (refill_closed s w k)).
Proof.
  intros H. unfold Gerrit.refill_closed.
  destruct (reviews_closed s); [|apply H].
  destruct (_ >=? _); [|apply H].
  apply try_emitted. intros a. apply request_emitted. intros page w'. apply H.
Qed.

Lemma not_older (r : review) :
  Qle_bool (inject_Z (lastUpdated r)) from_ut = false -> newer_than from_ut r.
Proof.
  intros H. unfold newer_than, Gerrit.metadata_updated_on.
  apply Qnot_le_lt. intros Hle.
  apply Qle_bool_iff in Hle. congruence.
Qed.

(** *** Nothing at or before the watermark is yielded *)

Lemma loop28_newer fuel : forall s w,
  Forall (newer_than from_ut) (emitted (loop28 fuel s w)).
Proof.
  induction fuel as [|fuel IH]; intros s w; cbn [Gerrit.loop28].
  - constructor.
  - destruct (pop28 s) as [[review s1]|]; [|constructor].
    destruct (Qle_bool _ _) eqn:E; [constructor|].
    cbn [emitted yield]. constructor; [now apply not_older|].
    apply refill_open_emitted. intros s2 w2.
    apply refill_closed_emitted. intros s3 w3. apply IH.
Qed.

Lemma loop_newer fuel : forall s w,
  Forall (newer_than from_ut) (emitted (loop fuel s w)).
Proof.
  induction fuel as [|fuel IH]; intros s w; cbn [Gerrit.loop].
  - constructor.
  - destruct (reviews s) as [|review reviews']; [constructor|].
    destruct (Qle_bool _ _) eqn:E; [constructor|].
    cbn [emitted yield]. constructor; [now apply not_older|].
    destruct reviews'; [|apply IH].
    destruct (_ >=? _); [|apply IH].
    apply try_emitted. intros a. apply request_emitted. intros page w'. apply IH.
Qed.

Lemma fetch_items_newer fuel w :
  Forall (newer_than from_ut)
    (emitted (Gerrit.fetch_items parse_reviews b from_ut fuel w)).
Proof.
  unfold Gerrit.fetch_items, _fetch_gerrit28, _fetch_gerrit.
  destruct (_ && _).
  - apply try_emitted. intros o. apply try_emitted. intros c.
    apply request_emitted. intros po w1. apply request_emitted. intros pc w2.
    apply loop28_newer.
  - apply try_emitted. intros o. apply request_emitted. intros p w1.
    apply loop_newer.
Qed.

(** *** Sequences that never increase *)

Lemma nonincreasing_tail x l :
  nonincreasing (x :: l) = true -> nonincreasing l = true.
Proof.
  destruct l as [|y l]; [reflexivity|]. cbn [nonincreasing].
  intros H. now apply andb_prop in H.
Qed.

Lemma nonincreasing_bound x l :
  nonincreasing (x :: l) = true -> Forall (fun y => y <= x) l.
Proof.
  revert x. induction l as [|y l IH]; intros x H; [constructor|].
  cbn [nonincreasing] in H. apply andb_prop in H as [Hyx Hl].
  apply Z.leb_le in Hyx. constructor; [exact Hyx|].
  eapply Forall_impl; [apply (IH y Hl)|]. cbn. intros z Hz. lia.
Qed.

Lemma nonincreasing_cons x l :
  nonincreasing l = true -> Forall (fun y => y <= x) l ->
  nonincreasing (x :: l) = true.
Proof.
  intros Hl Hx. destruct l as [|y l]; [reflexivity|].
  cbn [nonincreasing]. apply andb_true_intro. split; [|exact Hl].
  apply Z.leb_le. now inversion Hx.
Qed.

Lemma nonincreasing_suffix l1 l2 :
  nonincreasing (l1 ++ l2) = true -> nonincreasing l2 = true.
Proof.
  induction l1 as [|x l1 IH]; [trivial|].
  intros H. apply IH. now apply nonincreasing_tail in H.
Qed.

(** *** Pages and reviews of composed runs *)

Lemma pages_of_received_same f page r :
  pages_of f (received f page r) = page :: pages_of f r.
Proof.
  unfold pages_of. cbn [fetched received List.filter fst snd].
  now rewrite bool_decide_eq_true_2.
Qed.

Lemma pages_of_received_other f g page r :
  g <> f -> pages_of f (received g page r) = pages_of f r.
Proof.
  intros H. unfold pages_of. cbn [fetched received List.filter fst snd].
  now rewrite bool_decide_eq_false_2.
Qed.

Lemma pages_of_received_all f ps r :
  concat (pages_of f (received_all ps r)) = joined f ps ++ concat (pages_of f r).
Proof.
  induction ps as [|[g page] ps IH]; [reflexivity|].
  cbn [received_all fold_right fst snd]. fold (received_all ps r).
  unfold joined. cbn [List.filter fst]. destruct (decide (g = f)) as [->|Hne].
  - rewrite pages_of_received_same, bool_decide_eq_true_2 by reflexivity.
    cbn [map snd concat]. rewrite IH. unfold joined. now rewrite app_assoc.
  - rewrite pages_of_received_other, bool_decide_eq_false_2 by assumption.
    exact IH.
Qed.

Lemma emitted_received_all ps r : emitted (received_all ps r) = emitted r.
Proof. induction ps as [|[g page] ps IH]; [reflexivity | exact IH]. Qed.

Lemma received_all_app ps1 ps2 r :
  received_all (ps1 ++ ps2) r = received_all ps1 (received_all ps2 r).
Proof. unfold received_all. apply fold_right_app. Qed.

Lemma joined_app f ps1 ps2 : joined f (ps1 ++ ps2) = joined f ps1 ++ joined f ps2.
Proof. unfold joined. now rewrite List.filter_app, map_app, concat_app. Qed.

Lemma joined_same f page : joined f [(f, page)] = page.
Proof.
  unfold joined. cbn [List.filter fst]. rewrite bool_decide_eq_true_2 by reflexivity.
  cbn. apply app_nil_r.
Qed.

Lemma joined_other f g page : g <> f -> joined f [(g, page)] = [].
Proof.
  intros H. unfold joined. cbn [List.filter fst].
  now rewrite bool_decide_eq_false_2.
Qed.

(** *** One step of the merge *)

(** The review that is popped is the front of its partition, and the front
    of the other partition is not newer (not as new, when the review comes
    from the closed partition). *)
Lemma pop28_cases s review s1 :
  pop28 s = Some (review, s1) ->
  last_nreviews_open s1 = last_nreviews_open s
  /\ last_nreviews_closed s1 = last_nreviews_closed s
  /\ ((reviews_open s = review :: reviews_open s1
       /\ reviews_closed s1 = reviews_closed s
       /\ Forall (fun c => lastUpdated c <= lastUpdated review)
            (firstn 1 (reviews_closed s)))
      \/ (reviews_closed s = review :: reviews_closed s1
          /\ reviews_open s1 = reviews_open s
          /\ Forall (fun o => lastUpdated o < lastUpdated review)
               (firstn 1 (reviews_open s)))).
Proof.
  unfold pop28. intros H.
  destruct (reviews_open s) as [|o os] eqn:Ho;
    destruct (reviews_closed s) as [|c cs] eqn:Hc; [discriminate| | |].
  - injection H as <- <-. cbn. rewrite Ho.
    split; [reflexivity|split; [reflexivity|]]. right. repeat split. constructor.
  - injection H as <- <-. cbn. rewrite Hc.
    split; [reflexivity|split; [reflexivity|]]. left. repeat split. constructor.
  - destruct (lastUpdated o >=? lastUpdated c) eqn:E; injection H as <- <-; cbn;
      rewrite ?Ho, ?Hc; (split; [reflexivity|split; [reflexivity|]]).
    + left. repeat split. repeat constructor. lia.
    + right. repeat split. repeat constructor. lia.
Qed.

Hypothesis max_reviews_positive : 1 <= max_reviews b.

Lemma refill_open_cases s w k :
  (exists e w', refill_open s w k = stop (Failed e) w')
  \/ (exists ps s' w',
        refill_open s w k = received_all ps (k s' w')
        /\ reviews_open s' = reviews_open s ++ joined filter_open ps
        /\ joined filter_closed ps = []
        /\ reviews_closed s' = reviews_closed s
        /\ last_nreviews_closed s' = last_nreviews_closed s
        /\ (reviews_open s' = [] -> last_nreviews_open s' < max_reviews b)
        /\ (reviews_open s = [] -> last_nreviews_open s < max_reviews b ->
            ps = [] /\ last_nreviews_open s' = last_nreviews_open s)).
Proof.
  unfold Gerrit.refill_open.
  destruct (reviews_open s) as [|o os] eqn:Ho.
  - destruct (last_nreviews_open s >=? max_reviews b) eqn:E.
    + destruct (let* entry := _ in _) as [li|e]; cbn [try];
        [|left; eauto].
      unfold Gerrit.request.
      destruct (_get_reviews _ _ _ _ _) as [[page|e] w']; [|left; eauto].
      right. eexists [(filter_open, page)], _, w'.
      split; [reflexivity|]. cbn [reviews_open reviews_closed
        last_nreviews_open last_nreviews_closed].
      rewrite joined_same, joined_other by discriminate.
      repeat split; try lia.
      intros ->. unfold len. cbn. lia.
    + right. exists [], s, w. rewrite Ho. cbn.
      repeat split; intros; lia.
  - right. exists [], s, w. rewrite Ho. cbn.
    repeat split; try discriminate. now rewrite app_nil_r.
Qed.

Lemma refill_closed_cases s w k :
  (exists e w', refill_closed s w k = stop (Failed e) w')
  \/ (exists ps s' w',
        refill_closed s w k = received_all ps (k s' w')
        /\ reviews_closed s' = reviews_closed s ++ joined filter_closed ps
        /\ joined filter_open ps = []
        /\ reviews_open s' = reviews_open s
        /\ last_nreviews_open s' = last_nreviews_open s
        /\ (reviews_closed s' = [] -> last_nreviews_closed s' < max_reviews b)
        /\ (reviews_closed s = [] -> last_nreviews_closed s < max_reviews b ->
            ps = [] /\ last_nreviews_closed s' = last_nreviews_closed s)).
Proof.
  unfold Gerrit.refill_closed.
  destruct (reviews_closed s) as [|o os] eqn:Ho.
  - destruct (last_nreviews_closed s >=? max_reviews b) eqn:E.
    + destruct (let* entry := _ in _) as [li|e]; cbn [try];
        [|left; eauto].
      unfold Gerrit.request.
      destruct (_get_reviews _ _ _ _ _) as [[page|e] w']; [|left; eauto].
      right. eexists [(filter_closed, page)], _, w'.
      split; [reflexivity|]. cbn [reviews_open reviews_closed
        last_nreviews_open last_nreviews_closed].
      rewrite joined_same, joined_other by discriminate.
      repeat split; try lia.
      intros ->. unfold len. cbn. lia.
    + right. exists [], s, w. rewrite Ho. cbn.
      repeat split; intros; lia.
  - right. exists [], s, w. rewrite Ho. cbn.
    repeat split; try discriminate. now rewrite app_nil_r.
Qed.

(** One iteration that yields: the review, then the pages of the refills,
    then either an exception or the rest of the loop, from a state whose
    lists are those left by the pop followed by the pages received. *)
Lemma loop28_step fuel s w review s1 :
  pop28 s = Some (review, s1) ->
  Qle_bool (inject_Z (lastUpdated review)) from_ut = false ->
  exists ps rest,
    loop28 (S fuel) s w = yield review (received_all ps rest)
    /\ (reviews_open s1 = [] -> last_nreviews_open s1 < max_reviews b ->
        joined filter_open ps = [])
    /\ (reviews_closed s1 = [] -> last_nreviews_closed s1 < max_reviews b ->
        joined filter_closed ps = [])
    /\ ((exists e w', rest = stop (Failed e) w')
        \/ (exists s' w',
              rest = loop28 fuel s' w'
              /\ reviews_open s' = reviews_open s1 ++ joined filter_open ps
              /\ reviews_closed s' = reviews_closed s1 ++ joined filter_closed ps
              /\ exhausted_if_empty b s'
              /\ (reviews_open s1 = [] ->
                  last_nreviews_open s1 < max_reviews b ->
                  last_nreviews_open s' = last_nreviews_open s1)
              /\ (reviews_closed s1 = [] ->
                  last_nreviews_closed s1 < max_reviews b ->
                  last_nreviews_closed s' = last_nreviews_closed s1))).
Proof.
  intros Hpop Hnew. cbn [Gerrit.loop28]. rewrite Hpop. cbv zeta. rewrite Hnew.
  match goal with
  | |- context [Gerrit.refill_open _ _ s1 w ?k] =>
      destruct (refill_open_cases s1 w k)
        as [(e & w' & ->)
           |(ps1 & s2 & w2 & -> & Ho & Hc1 & Hc & Hnc & Hex & Hkeep)]
  end.
  { exists [], (stop (Failed e) w'). cbn. repeat split; eauto. }
  cbv beta.
  match goal with
  | |- context [Gerrit.refill_closed _ _ s2 w2 ?k] =>
      destruct (refill_closed_cases s2 w2 k)
        as [(e & w' & ->)
           |(ps2 & s3 & w3 & -> & Hc' & Ho2 & Ho' & Hno & Hex' & Hkeep')]
  end.
  { exists ps1, (stop (Failed e) w'). split; [reflexivity|].
    split; [|split; [|eauto]].
    - intros H1 H2. now destruct (Hkeep H1 H2) as [-> _].
    - intros _ _. exact Hc1. }
  exists (ps1 ++ ps2), (loop28 fuel s3 w3).
  rewrite received_all_app, !joined_app, Hc1, Ho2, app_nil_r. cbn [app].
  split; [reflexivity|]. split; [|split].
  - intros H1 H2. now destruct (Hkeep H1 H2) as [-> _].
  - intros H1 H2. rewrite <- Hc in H1. rewrite <- Hnc in H2.
    now destruct (Hkeep' H1 H2) as [-> _].
  - right. exists s3, w3. split; [reflexivity|].
    split; [congruence|]. split; [congruence|]. split; [|split].
    + split; [|exact Hex']. intros H. rewrite Hno. apply Hex. congruence.
    + intros H1 H2. destruct (Hkeep H1 H2) as [_ E]. congruence.
    + intros H1 H2. rewrite <- Hc in H1. rewrite <- Hnc in H2.
      destruct (Hkeep' H1 H2) as [_ E]. congruence.
Qed.

Lemma pages_of_yield f review r : pages_of f (yield review r) = pages_of f r.
Proof. reflexivity. Qed.

Lemma stream_of_step f pending review ps rest :
  stream_of f pending (yield review (received_all ps rest))
  = stream_of f (pending ++ joined f ps) rest.
Proof.
  unfold stream_of. rewrite pages_of_yield, pages_of_received_all.
  now rewrite app_assoc.
Qed.

(** An iteration of the loop from [s]: it ends the run, which [finish]
    settles, or it pops [review], leaves [s1] and yields. *)
Ltac iteration s Hpop Hnew finish :=
  destruct (Gerrit.pop28 s) as [[review s1]|] eqn:Hpop;
    [ destruct (Qle_bool (inject_Z (lastUpdated review)) from_ut) eqn:Hnew;
      [ cbn [Gerrit.loop28]; rewrite Hpop; cbv zeta; rewrite Hnew; finish | ]
    | cbn [Gerrit.loop28]; rewrite Hpop; finish ].

(** *** A partition that is exhausted receives no more pages *)

Lemma loop28_exhausted_open fuel : forall s w,
  reviews_open s = [] -> last_nreviews_open s < max_reviews b ->
  concat (pages_of filter_open (loop28 fuel s w)) = [].
Proof.
  induction fuel as [|fuel IH]; intros s w Ho Hn; [reflexivity|].
  iteration s Hpop Hnew ltac:(reflexivity).
  destruct (pop28_cases _ _ _ Hpop) as (Hno & _ & [(Habs & _)|(_ & Ho1 & _)]);
    [congruence|].
  destruct (loop28_step fuel s w review s1 Hpop Hnew)
    as (ps & rest & -> & Hps & _ & Hrest).
  rewrite pages_of_yield, pages_of_received_all.
  rewrite Hps by congruence. cbn [app].
  destruct Hrest as [(e & w' & ->)|(s' & w' & -> & Ho' & _ & _ & Hn' & _)];
    [reflexivity|].
  apply IH.
  - rewrite Ho', Hps by congruence. rewrite Ho1, Ho. reflexivity.
  - rewrite Hn' by congruence. congruence.
Qed.

Lemma loop28_exhausted_closed fuel : forall s w,
  reviews_closed s = [] -> last_nreviews_closed s < max_reviews b ->
  concat (pages_of filter_closed (loop28 fuel s w)) = [].
Proof.
  induction fuel as [|fuel IH]; intros s w Hc Hn; [reflexivity|].
  iteration s Hpop Hnew ltac:(reflexivity).
  destruct (pop28_cases _ _ _ Hpop) as (_ & Hnc & [(_ & Hc1 & _)|(Habs & _)]);
    [|congruence].
  destruct (loop28_step fuel s w review s1 Hpop Hnew)
    as (ps & rest & -> & _ & Hps & Hrest).
  rewrite pages_of_yield, pages_of_received_all.
  rewrite Hps by congruence. cbn [app].
  destruct Hrest as [(e & w' & ->)|(s' & w' & -> & _ & Hc' & _ & _ & Hn')];
    [reflexivity|].
  apply IH.
  - rewrite Hc', Hps by congruence. rewrite Hc1, Hc. reflexivity.
  - rewrite Hn' by congruence. congruence.
Qed.

(** *** What is yielded comes from the two partitions *)

Lemma loop28_emitted_in fuel : forall s w x,
  In x (emitted (loop28 fuel s w)) ->
  In x (stream_of filter_open (reviews_open s) (loop28 fuel s w))
  \/ In x (stream_of filter_closed (reviews_closed s) (loop28 fuel s w)).
Proof.
  induction fuel as [|fuel IH]; intros s w x; [intros []|].
  iteration s Hpop Hnew ltac:(intros []).
  destruct (loop28_step fuel s w review s1 Hpop Hnew)
    as (ps & rest & -> & _ & _ & Hrest).
  rewrite !stream_of_step. cbn [emitted yield]. rewrite emitted_received_all.
  destruct (pop28_cases _ _ _ Hpop)
    as (_ & _ & [(Ho & Hc & _)|(Hc & Ho & _)]).
  - rewrite Ho, <- Hc. cbn [app].
    intros [<-|Hx]; [left; now left|].
    destruct Hrest as [(e & w' & ->)|(s' & w' & -> & Ho' & Hc' & _)];
      [destruct Hx|].
    rewrite <- Ho', <- Hc'.
    destruct (IH s' w' x Hx) as [H|H]; [left; now right | now right].
  - rewrite Hc, <- Ho. cbn [app].
    intros [<-|Hx]; [right; now left|].
    destruct Hrest as [(e & w' & ->)|(s' & w' & -> & Ho' & Hc' & _)];
      [destruct Hx|].
    rewrite <- Ho', <- Hc'.
    destruct (IH s' w' x Hx) as [H|H]; [now left | right; now right].
Qed.

(** *** The merge keeps the order *)

Lemma nonincreasing_updated_cons x l :
  nonincreasing (updated_of l) = true ->
  Forall (fun r => lastUpdated r <= x) l ->
  nonincreasing (x :: updated_of l) = true.
Proof.
  intros Hl Hx. apply nonincreasing_cons; [exact Hl|]. clear Hl.
  unfold updated_of. induction Hx; cbn [map]; constructor; auto.
Qed.

Lemma bounded_by_head (r : review) (l : list review) :
  nonincreasing (updated_of (r :: l)) = true ->
  Forall (fun x => lastUpdated x <= lastUpdated r) l.
Proof.
  intros H. apply nonincreasing_bound in H. fold (updated_of l) in H.
  induction l as [|y l IH]; [constructor|].
  cbn [updated_of map] in H. inversion H; subst. constructor; auto.
Qed.

(** The partition that was not popped holds nothing newer than the review
    that was. *)
Lemma bounded_by_front (pending rest : list review) (x : Z) :
  Forall (fun c => lastUpdated c <= x) (firstn 1 pending) ->
  nonincreasing (updated_of (pending ++ rest)) = true ->
  (pending = [] -> rest = []) ->
  Forall (fun r => lastUpdated r <= x) (pending ++ rest).
Proof.
  intros Hfront Hsorted Hempty. destruct pending as [|c cs].
  - rewrite Hempty by reflexivity. constructor.
  - inversion Hfront; subst. cbn [app]. constructor; [assumption|].
    eapply Forall_impl; [apply (bounded_by_head c), Hsorted|].
    cbn. intros y Hy. lia.
Qed.

Lemma loop28_sorted fuel : forall s w,
  exhausted_if_empty b s ->
  nonincreasing
    (updated_of (stream_of filter_open (reviews_open s) (loop28 fuel s w))) = true ->
  nonincreasing
    (updated_of (stream_of filter_closed (reviews_closed s) (loop28 fuel s w))) = true ->
  nonincreasing (updated_of (emitted (loop28 fuel s w))) = true.
Proof.
  induction fuel as [|fuel IH]; intros s w [Hexo Hexc]; [reflexivity|].
  iteration s Hpop Hnew ltac:(reflexivity).
  destruct (loop28_step fuel s w review s1 Hpop Hnew)
    as (ps & rest & -> & Hpso & Hpsc & Hrest).
  rewrite !stream_of_step. cbn [emitted yield]. rewrite emitted_received_all.
  destruct Hrest
    as [(e & w' & ->)|(s' & w' & -> & Ho' & Hc' & Hex' & Hno' & Hnc')];
    [reflexivity|].
  destruct (pop28_cases _ _ _ Hpop)
    as (Hno & Hnc & [(Ho & Hc & Hfront)|(Hc & Ho & Hfront)]).
  - (* popped from the open partition *)
    rewrite Ho. cbn [app]. rewrite <- Ho'. intros Hso Hsc.
    apply nonincreasing_updated_cons.
    + apply IH; [exact Hex'| |].
      * now apply nonincreasing_tail in Hso.
      * now rewrite Hc', Hc.
    + apply List.Forall_forall. intros x Hx.
      destruct (loop28_emitted_in fuel s' w' x Hx) as [H|H].
      * pose proof (bounded_by_head review _ Hso) as Hb.
        rewrite List.Forall_forall in Hb. now apply Hb.
      * clear Hx. revert x H. apply List.Forall_forall.
        unfold stream_of in *. rewrite Hc', Hc. rewrite <- app_assoc in *.
        apply bounded_by_front; [exact Hfront|exact Hsc|].
        intros Hempty.
        assert (reviews_closed s1 = []) as E1 by congruence.
        assert (last_nreviews_closed s1 < max_reviews b) as E2
          by (rewrite Hnc; auto).
        rewrite (Hpsc E1 E2). cbn [app]. apply loop28_exhausted_closed.
        -- now rewrite Hc', (Hpsc E1 E2), E1.
        -- now rewrite (Hnc' E1 E2).
  - (* popped from the closed partition *)
    rewrite Hc. cbn [app]. rewrite <- Hc'. intros Hso Hsc.
    apply nonincreasing_updated_cons.
    + apply IH; [exact Hex'| |].
      * now rewrite Ho', Ho.
      * now apply nonincreasing_tail in Hsc.
    + apply List.Forall_forall. intros x Hx.
      destruct (loop28_emitted_in fuel s' w' x Hx) as [H|H].
      * clear Hx. revert x H. apply List.Forall_forall.
        unfold stream_of in *. rewrite Ho', Ho. rewrite <- app_assoc in *.
        apply bounded_by_front; [|exact Hso|].
        { eapply Forall_impl; [exact Hfront|]. cbn. intros; lia. }
        intros Hempty.
        assert (reviews_open s1 = []) as E1 by congruence.
        assert (last_nreviews_open s1 < max_reviews b) as E2
          by (rewrite Hno; auto).
        rewrite (Hpso E1 E2). cbn [app]. apply loop28_exhausted_open.
        -- now rewrite Ho', (Hpso E1 E2), E1.
        -- now rewrite (Hno' E1 E2).
      * pose proof (bounded_by_head review _ Hsc) as Hb.
        rewrite List.Forall_forall in Hb. now apply Hb.
Qed.

End FetchProperties.

(** ** Statements about the dual-queue merge *)

(** C2. In the loop of Gerrit 2.8, when the review that the merge pops was
    updated at or before the watermark, the stream ends there: nothing more
    is yielded, no page is requested, and what is left in the other list is
    dropped. In the scenario (open page updated at 50 and 40, closed page
    at 45 and 10, pages below the size cap, watermark 30) the reviews
    yielded are those updated at 50, 45 and 40, in this order, and the run
    is complete after two requests: the review updated at 10 is never
    yielded. *)
Theorem stop_at_watermark :
  (forall parse_reviews b from_ut fuel s w review s',
     Gerrit.pop28 s = Some (review, s') ->
     (inject_Z (lastUpdated review) <= from_ut)%Q ->
     Gerrit.loop28 parse_reviews b from_ut (S fuel) s w
     = Gerrit.stop Completed w)
  /\ (forall parse_reviews b from_ut fuel w w1 w2 o1 o2 c1 c2,
        GerritClient.version (Gerrit.client b) = (2, 8) ->
        2 < Gerrit.max_reviews b ->
        Gerrit._get_reviews parse_reviews b CNone Gerrit.filter_open w
        = (Ok [o1; o2], w1) ->
        Gerrit._get_reviews parse_reviews b CNone Gerrit.filter_closed w1
        = (Ok [c1; c2], w2) ->
        lastUpdated o1 = 50 -> lastUpdated o2 = 40 ->
        lastUpdated c1 = 45 -> lastUpdated c2 = 10 ->
        (from_ut == 30)%Q ->
        Gerrit.fetch_items parse_reviews b from_ut (4 + fuel) w
        = {| Gerrit.emitted := [o1; c1; o2];
             Gerrit.fetched := [(Gerrit.filter_open, [o1; o2]);
                                (Gerrit.filter_closed, [c1; c2])];
             Gerrit.ended := Completed;
             Gerrit.final := w2 |}).
Proof.
  split.
  - intros parse_reviews b from_ut fuel s w review s' Hpop Hold.
    cbn [Gerrit.loop28]. rewrite Hpop. cbv zeta.
    apply Qle_bool_iff in Hold. now rewrite Hold.
  - intros parse_reviews b from_ut fuel w w1 w2 o1 o2 c1 c2
      Hv Hmax Hopen Hclosed Ho1 Ho2 Hc1 Hc2 Hfrom.
    assert (forall z, Qle_bool (inject_Z z) from_ut = (z <=? 30)) as Hcmp.
    { intros z. destruct (z <=? 30) eqn:E.
      - apply Qle_bool_iff. rewrite Hfrom. unfold Qle. cbn. lia.
      - destruct (Qle_bool (inject_Z z) from_ut) eqn:E'; [|reflexivity].
        apply Qle_bool_iff in E'. rewrite Hfrom in E'.
        unfold Qle in E'. cbn in E'. lia. }
    assert (forall x y : review,
              (Gerrit.len [x; y] >=? Gerrit.max_reviews b) = false) as Hcap.
    { intros x y. rewrite Z.geb_leb. apply Z.leb_gt. unfold Gerrit.len. cbn. lia. }
    unfold Gerrit.fetch_items, Gerrit._fetch_gerrit28.
    rewrite Hv. cbn [fst snd Z.eqb Pos.eqb andb].
    unfold GerritClient.next_retrieve_group_item. rewrite Hv.
    cbn [fst snd Z.eqb Z.gtb Z.compare Pos.eqb Pos.compare Pos.compare_cont
           andb orb Gerrit.try].
    unfold Gerrit.request. rewrite Hopen, Hclosed.
    repeat (cbn [Nat.add Gerrit.loop28 Gerrit.pop28 Gerrit.pop_open
                   Gerrit.pop_closed Gerrit.reviews_open
                   Gerrit.reviews_closed Gerrit.last_nreviews_open
                   Gerrit.last_nreviews_closed Gerrit.refill_open
                   Gerrit.refill_closed Z.geb Z.leb Z.compare Pos.compare
                   Pos.compare_cont];
            rewrite ?Ho1, ?Hc1, ?Ho2, ?Hc2, ?Hcmp, ?Hcap).
    reflexivity.
Qed.

Lemma stop_at_watermark_witness :
  map lastUpdated
    (Gerrit.emitted
       (Gerrit.fetch_items scenario_parse scenario_backend 30%Q 4 scenario_world))
  = [50; 45; 40]
  /\ Gerrit.ended
       (Gerrit.fetch_items scenario_parse scenario_backend 30%Q 4 scenario_world)
     = Completed
  /\ Gerrit.loop28 scenario_parse scenario_backend 30%Q 1 scenario_last_state
       scenario_world
     = Gerrit.stop Completed scenario_world.
Proof.
  pose proof (proj2 stop_at_watermark scenario_parse scenario_backend 30%Q 0%nat
                scenario_world) as H.
  set (w1 := (Gerrit._get_reviews scenario_parse scenario_backend CNone
                Gerrit.filter_open scenario_world).2).
  set (w2 := (Gerrit._get_reviews scenario_parse scenario_backend CNone
                Gerrit.filter_closed w1).2).
  specialize (H w1 w2 (example_review 50) (example_review 40)
                (example_review 45) (example_review 10)).
  change (4 + 0)%nat with 4%nat in H.
  rewrite H; try reflexivity.
  split; [reflexivity|]. split; [reflexivity|].
  apply (proj1 stop_at_watermark scenario_parse scenario_backend 30%Q 0%nat
           scenario_last_state scenario_world (example_review 10)
           (Gerrit.pop_closed (example_review 10) [] scenario_last_state)).
  - reflexivity.
  - unfold Qle. cbn. lia.
Defined.

Lemma init_max_reviews hostname user port max_reviews nohostkey id_filepath
    blacklist from_archive version :
  1 <= Gerrit.max_reviews
         (Gerrit.init hostname user port max_reviews nohostkey id_filepath
            blacklist from_archive version).
Proof. cbn. lia. Qed.

Lemma fetch_gerrit28_sorted parse_reviews b from_ut fuel w :
  1 <= Gerrit.max_reviews b ->
  let r := Gerrit._fetch_gerrit28 parse_reviews b from_ut fuel w in
  nonincreasing
    (Gerrit.updated_of (concat (Gerrit.pages_of Gerrit.filter_open r))) = true ->
  nonincreasing
    (Gerrit.updated_of (concat (Gerrit.pages_of Gerrit.filter_closed r))) = true ->
  nonincreasing (Gerrit.updated_of (Gerrit.emitted r)) = true.
Proof.
  intros Hmax r. subst r. unfold Gerrit._fetch_gerrit28.
  destruct (GerritClient.next_retrieve_group_item _ _ _) as [li|e];
    [|reflexivity].
  cbn [Gerrit.try]. unfold Gerrit.request.
  destruct (Gerrit._get_reviews _ _ _ _ w) as [[open|e] w1]; [|reflexivity].
  destruct (Gerrit._get_reviews _ _ _ _ w1) as [[closed|e] w2]; [|reflexivity].
  rewrite pages_of_received_same, pages_of_received_other by discriminate.
  rewrite pages_of_received_other, pages_of_received_same by discriminate.
  cbn [Gerrit.emitted Gerrit.received concat]. intros Ho Hc.
  match goal with
  | |- context [Gerrit.loop28 _ _ _ _ ?s ?w'] =>
      apply (loop28_sorted parse_reviews b from_ut Hmax fuel s w');
        [|exact Ho|exact Hc]
  end.
  split; cbn [Gerrit.reviews_open Gerrit.reviews_closed
                Gerrit.last_nreviews_open Gerrit.last_nreviews_closed];
    intros ->; unfold Gerrit.len; cbn [length Z.of_nat]; lia.
Qed.

(** C3. In the loop of Gerrit 2.8 a merge step pops the front of the list
    whose front was updated last, the front of the open list on a tie, and
    the front of the only list that is not empty otherwise. If the reviews
    that a run receives for each partition, page after page, never increase
    in update time, then the update times of the reviews that it yields
    never increase either, however the run ends. *)
Theorem merge_yields_nonincreasing :
  (forall s o open c closed,
     Gerrit.reviews_open s = o :: open ->
     Gerrit.reviews_closed s = c :: closed ->
     exists s',
       Gerrit.pop28 s
       = Some (if lastUpdated o >=? lastUpdated c then o else c, s')
       /\ Gerrit.reviews_open s'
          = (if lastUpdated o >=? lastUpdated c then open else o :: open)
       /\ Gerrit.reviews_closed s'
          = (if lastUpdated o >=? lastUpdated c then c :: closed else closed))
  /\ (forall s o open,
        Gerrit.reviews_open s = o :: open ->
        Gerrit.reviews_closed s = [] ->
        exists s', Gerrit.pop28 s = Some (o, s')
                   /\ Gerrit.reviews_open s' = open
                   /\ Gerrit.reviews_closed s' = [])
  /\ (forall s c closed,
        Gerrit.reviews_open s = [] ->
        Gerrit.reviews_closed s = c :: closed ->
        exists s', Gerrit.pop28 s = Some (c, s')
                   /\ Gerrit.reviews_open s' = []
                   /\ Gerrit.reviews_closed s' = closed)
  /\ (forall parse_reviews hostname user port max_reviews nohostkey
        id_filepath blacklist from_archive version from_ut fuel w,
        let b := Gerrit.init hostname user port max_reviews nohostkey
                   id_filepath blacklist from_archive version in
        let r := Gerrit._fetch_gerrit28 parse_reviews b from_ut fuel w in
        nonincreasing
          (Gerrit.updated_of (concat (Gerrit.pages_of Gerrit.filter_open r)))
        = true ->
        nonincreasing
          (Gerrit.updated_of (concat (Gerrit.pages_of Gerrit.filter_closed r)))
        = true ->
        nonincreasing (Gerrit.updated_of (Gerrit.emitted r)) = true).
Proof.
  split; [|split; [|split]].
  - intros s o open c closed Ho Hc. unfold Gerrit.pop28. rewrite Ho, Hc.
    destruct (lastUpdated o >=? lastUpdated c);
      eexists; (split; [reflexivity|]); cbn; auto.
  - intros s o open Ho Hc. unfold Gerrit.pop28. rewrite Ho, Hc.
    eexists; (split; [reflexivity|]); cbn; auto.
  - intros s c closed Ho Hc. unfold Gerrit.pop28. rewrite Ho, Hc.
    eexists; (split; [reflexivity|]); cbn; auto.
  - intros parse_reviews hostname user port max_reviews nohostkey
      id_filepath blacklist from_archive version from_ut fuel w b.
    apply fetch_gerrit28_sorted. apply init_max_reviews.
Qed.

Lemma merge_yields_nonincreasing_witness :
  nonincreasing
    (Gerrit.updated_of
       (Gerrit.emitted
          (Gerrit._fetch_gerrit28 scenario_parse scenario_backend 0%Q 9
             scenario_world))) = true
  /\ Gerrit.updated_of
       (Gerrit.emitted
          (Gerrit._fetch_gerrit28 scenario_parse scenario_backend 0%Q 9
             scenario_world)) = [50; 45; 40; 10]
  /\ (exists s', Gerrit.pop28 scenario_state = Some (example_review 50, s')
                 /\ Gerrit.reviews_open s' = [example_review 40]
                 /\ Gerrit.reviews_closed s'
                    = [example_review 45; example_review 10])
  /\ (exists s', Gerrit.pop28 scenario_last_state = Some (example_review 10, s')
                 /\ Gerrit.reviews_open s' = []
                 /\ Gerrit.reviews_closed s' = []).
Proof.
  split; [|split; [reflexivity|split]].
  - apply (proj2 (proj2 (proj2 merge_yields_nonincreasing)) scenario_parse
             "review.example.org" (Some "alice") (Some PORT) MAX_REVIEWS
             false None None false (2, 8) 0%Q 9%nat scenario_world);
      reflexivity.
  - apply (proj1 merge_yields_nonincreasing scenario_state
             (example_review 50) [example_review 40]
             (example_review 45) [example_review 10]); reflexivity.
  - apply (proj1 (proj2 (proj2 merge_yields_nonincreasing)) scenario_last_state
             (example_review 10) []); reflexivity.
Defined.

(** ** The Meetup client *)

Section MeetupProperties.

Import MeetupClient.

Variable http : nat -> Api.query -> result Api.response.
Variable strptime : string -> result Z.
Variable c : client.

(** *** Requests *)

Lemma fetch_answer q w r w' :
  _fetch http c q w = (Ok r, w') -> exists n, http n q = Ok r.
Proof.
  unfold _fetch, bindM.
  destruct ((if from_archive c then ret tt else sleep_for_rate_limit c) w)
    as [[[]|e] w1]; [|discriminate].
  intros H. injection H as H _. eauto.
Qed.

(** The rate-limit wait returns without a change, or after a sleep that
    leaves the quota unknown. *)
Lemma sleep_for_rate_limit_cases w w1 :
  sleep_for_rate_limit c w = (Ok tt, w1) ->
  w1 = w \/ exists secs, w1 = clear_rate (msleep secs w).
Proof.
  unfold sleep_for_rate_limit. intros H.
  destruct (rate_limit w) as [remaining|]; [|injection H as <-; now left].
  destruct (remaining <=? min_rate_to_sleep c); [|injection H as <-; now left].
  destruct (calculate_time_to_reset w) as [secs|e]; [|discriminate].
  destruct (sleep_for_rate c); injection H as <-; [right; eauto | now left].
Qed.

(** Whether the wait raises depends on the rate state only. *)
Lemma sleep_for_rate_limit_ext w w' :
  rate_limit w' = rate_limit w ->
  rate_limit_reset_ts w' = rate_limit_reset_ts w ->
  (sleep_for_rate_limit c w').1 = (sleep_for_rate_limit c w).1.
Proof.
  intros Hrate Hreset.
  unfold sleep_for_rate_limit, calculate_time_to_reset. rewrite Hrate, Hreset.
  destruct (rate_limit w) as [remaining|]; [|reflexivity].
  destruct (remaining <=? min_rate_to_sleep c); [|reflexivity].
  destruct (rate_limit_reset_ts w); [|reflexivity].
  destruct (sleep_for_rate c); reflexivity.
Qed.

(** When the wait does not raise, the request is sent, its answer is the
    next answer of the server, and the next wait does not raise either. *)
Lemma fetch_passes q w :
  wait_passes c w ->
  exists w', _fetch http c q w = (http (nreq w) q, w')
             /\ nreq w' = S (nreq w) /\ wait_passes c w'.
Proof.
  unfold wait_passes, _fetch, bindM. intros Hpass.
  destruct (from_archive c) eqn:Harch.
  - exists (sent w). repeat split. now left.
  - destruct Hpass as [Habs|Hpass]; [discriminate|].
    destruct (sleep_for_rate_limit c w) as [[[]|e] w1] eqn:E;
      [|discriminate].
    destruct (sleep_for_rate_limit_cases w w1 E) as [->|[secs ->]].
    + exists (sent w). repeat split. right.
      rewrite (sleep_for_rate_limit_ext w (sent w)) by reflexivity.
      now rewrite E.
    + exists (sent (clear_rate (msleep secs w))). repeat split.
      right. reflexivity.
Qed.

Lemma quota_unknown_passes w : rate_limit w = None -> wait_passes c w.
Proof.
  intros H. right. unfold sleep_for_rate_limit. now rewrite H.
Qed.

(** *** The events walk *)

Lemma for_edges_yields from_date edges : forall w after,
  Forall (listed http) edges ->
  (forall w', yields_only (expanded_after http strptime from_date) (after w')) ->
  yields_only (expanded_after http strptime from_date)
    (for_edges http strptime c from_date edges w after).
Proof.
  induction edges as [|node edges IH]; intros w after Hl Hafter; cbn [for_edges].
  - apply Hafter.
  - inversion Hl as [|? ? Hnode Hrest]; subst.
    destruct (strptime (Api.node_dateTime node)) as [date|e] eqn:Hdate;
      [|constructor].
    destruct (date >? from_date) eqn:Hnew; [|now apply IH].
    destruct (event http c (Api.node_id node) w) as [[e|err] w1] eqn:He;
      [|constructor].
    constructor; [|intros w'; now apply IH].
    unfold event, bindM in He.
    destruct (_fetch http c _ w) as [[r|err] w2] eqn:Hr; [|discriminate].
    destruct r; try discriminate. injection He as -> ->.
    destruct (fetch_answer _ _ _ _ Hr) as [n Hn].
    exists node, date, n. repeat split; try assumption. lia.
Qed.

Lemma events_loop_yields fuel group from_date :
  forall event_idx event_type cursor w,
  yields_only (expanded_after http strptime from_date)
    (events_loop http strptime c fuel group from_date event_idx event_type
       cursor w).
Proof.
  induction fuel as [|fuel IH]; intros event_idx event_type cursor w;
    cbn [events_loop]; [constructor|].
  destruct (_fetch http c _ w) as [[r|err] w1] eqn:Hr; [|constructor].
  destruct r as [[page|]| | |]; try constructor.
  destruct (fetch_answer _ _ _ _ Hr) as [n Hn].
  apply for_edges_yields.
  - apply List.Forall_forall. intros node Hin. red. eauto 10.
  - intros w'. destruct (Api.events_hasNextPage page); [apply IH|].
    destruct (_ <? _)%nat; [apply IH|constructor].
Qed.

End MeetupProperties.

(** The items of [fetch_items] are the events of the walk, completed. *)
Lemma for_events_from http clock c fuel (P : Api.event -> Prop)
    (events : gen Api.event) :
  yields_only P events ->
  Forall (fun item =>
            exists event comments rsvps t,
              P event /\ item = Meetup.with_details event comments rsvps t)
    (yielded (Meetup.for_events http clock c fuel events)).
Proof.
  induction 1 as [e w|event w resume HP _ IH]; cbn [Meetup.for_events];
    [constructor|].
  destruct (Meetup.__fetch_and_parse_comments http c fuel _ w)
    as [comments w1|e w1]; [|constructor].
  destruct (Meetup.__fetch_and_parse_rsvps http c fuel _ w1)
    as [rsvps w2|e w2]; [|constructor].
  cbn. constructor; [eauto 10 | apply IH].
Qed.

(** ** Statements about the watermark *)

(** C1. No fetch stream yields an item at or before the watermark. The two
    loops of Gerrit, and so [fetch_items], yield only reviews whose
    [lastUpdated] is after the timestamp of [from_date], whatever pages
    the server sends and however long the loops run. The events walk of
    Meetup yields only the details of listed events whose [dateTime] is
    after [from_date], whatever its consumer does between two events, and
    the items of the Meetup backend are these events, completed. *)
Theorem nothing_at_or_before_watermark :
  (forall parse_reviews b from_ut fuel w,
     Forall (newer_than from_ut)
       (Gerrit.emitted (Gerrit._fetch_gerrit parse_reviews b from_ut fuel w))
     /\ Forall (newer_than from_ut)
          (Gerrit.emitted (Gerrit._fetch_gerrit28 parse_reviews b from_ut fuel w))
     /\ Forall (newer_than from_ut)
          (Gerrit.emitted (Gerrit.fetch_items parse_reviews b from_ut fuel w)))
  /\ (forall http strptime c fuel group from_date w,
        yields_only (expanded_after http strptime from_date)
          (MeetupClient.events http strptime c fuel group from_date w))
  /\ (forall http strptime clock c fuel group from_date w,
        Forall (fun item =>
                  exists event comments rsvps t,
                    expanded_after http strptime from_date event
                    /\ item = Meetup.with_details event comments rsvps t)
          (yielded (Meetup.fetch_items http strptime clock c fuel group
                      from_date w))).
Proof.
  split.
  - intros parse_reviews b from_ut fuel w. split; [|split].
    + unfold Gerrit._fetch_gerrit.
      apply try_emitted. intros o. apply request_emitted. intros p w1.
      apply loop_newer.
    + unfold Gerrit._fetch_gerrit28.
      apply try_emitted. intros o. apply try_emitted. intros c.
      apply request_emitted. intros po w1. apply request_emitted. intros pc w2.
      apply loop28_newer.
    + apply fetch_items_newer.
  - split.
    + intros http strptime c fuel group from_date w. apply events_loop_yields.
    + intros http strptime clock c fuel group from_date w.
      apply for_events_from. apply events_loop_yields.
Qed.

(** ** Sub-resources of an event *)

Section Walks.

Import MeetupClient.

Variable http : nat -> Api.query -> result Api.response.
Variable c : client.

Lemma comments_loop_complete event_id all :
  serves_comments http event_id all ->
  0 < max_items c ->
  forall fuel offset w,
    0 <= offset ->
    wait_passes c w ->
    (1 <= fuel)%nat ->
    Z.of_nat (length all) - offset <= Z.of_nat fuel * max_items c ->
    let r := comments_loop http c fuel event_id offset w in
    mended r = Completed
    /\ concat (yielded r) = skipn (Z.to_nat offset) all
    /\ Forall (fun page => Z.of_nat (length page) <= max_items c) (yielded r).
Proof.
  intros Hserve Hmax.
  induction fuel as [|fuel IH]; intros offset w Hoff Hpass Hfuel Hleft; [lia|].
  cbn [comments_loop].
  destruct (fetch_passes http c (Api.QComments event_id offset (max_items c))
              w Hpass) as (w' & -> & _ & Hpass').
  rewrite Hserve by lia. cbn [Api.count Api.comments_edges].
  assert (Z.of_nat (length (firstn (Z.to_nat (max_items c))
                              (skipn (Z.to_nat offset) all))) <= max_items c)
    as Hpage by (rewrite length_take; lia).
  destruct (offset + max_items c >=? Z.of_nat (length all)) eqn:E.
  - cbn. split; [reflexivity|]. split; [|repeat constructor; exact Hpage].
    rewrite app_nil_r. apply take_ge. rewrite length_drop. lia.
  - destruct (IH (offset + max_items c) w') as (Hend & Hall & Hpages);
      try (assumption || lia).
    cbn [myield mended yielded concat]. split; [exact Hend|].
    split; [|constructor; assumption].
    rewrite Hall, Z2Nat.inj_add by lia.
    rewrite <- drop_drop. apply take_drop.
Qed.

Lemma rsvps_loop_chain event_id n cursor pages :
  ticket_chain http event_id (max_items c) n cursor pages ->
  forall fuel w,
    nreq w = n ->
    wait_passes c w ->
    (length pages <= fuel)%nat ->
    let r := rsvps_loop http c fuel event_id cursor w in
    mended r = Completed /\ yielded r = map Api.tickets_edges pages.
Proof.
  induction 1 as [n cursor page Hpage Hlast
                 |n cursor page pages Hpage Hnext Hchain IH];
    intros fuel w Hn Hpass Hfuel; (destruct fuel as [|fuel]; [cbn in Hfuel; lia|]);
    cbn [rsvps_loop];
    destruct (fetch_passes http c
                (Api.QTickets event_id (max_items c) (quote cursor)) w Hpass)
      as (w' & -> & Hn' & Hpass');
    rewrite Hn, Hpage.
  - rewrite Hlast. split; reflexivity.
  - rewrite Hnext. cbn [myield mended yielded map].
    destruct (IH fuel w') as [Hend Hall];
      [congruence | assumption | cbn in Hfuel; lia |].
    split; [exact Hend | now rewrite Hall].
Qed.

End Walks.



(** ** The wait before a request *)

(** C6, as the code has it. When throttling is enabled and the remaining
    quota is at or below the floor, with a reset value [R] (the number of
    seconds that the reset header carries), the wait before a request
    sleeps [max(0, R)] seconds: no clock is read. When throttling is
    disabled, when the quota is unknown or above the floor, and when the
    client replays an archive, it does not sleep. *)
Theorem wait_before_request :
  forall (http : nat -> Api.query -> result Api.response)
         (c : MeetupClient.client) (q : Api.query) (w : MWorld),
    (forall remaining R,
       MeetupClient.from_archive c = false ->
       MeetupClient.sleep_for_rate c = true ->
       rate_limit w = Some remaining ->
       remaining <= MeetupClient.min_rate_to_sleep c ->
       rate_limit_reset_ts w = Some R ->
       mslept (MeetupClient.sleep_for_rate_limit c w).2
       = mslept w ++ [Z.max 0 R]
       /\ mslept (MeetupClient._fetch http c q w).2 = mslept w ++ [Z.max 0 R])
    /\ (MeetupClient.sleep_for_rate c = false
        \/ rate_limit w = None
        \/ (exists remaining, rate_limit w = Some remaining
                              /\ MeetupClient.min_rate_to_sleep c < remaining)
        \/ MeetupClient.from_archive c = true ->
        mslept (MeetupClient._fetch http c q w).2 = mslept w)
    /\ (MeetupClient.sleep_for_rate c = false
        \/ rate_limit w = None
        \/ (exists remaining, rate_limit w = Some remaining
                              /\ MeetupClient.min_rate_to_sleep c < remaining) ->
        mslept (MeetupClient.sleep_for_rate_limit c w).2 = mslept w).
Proof.
  intros http c q w.
  assert (forall R, Z.max 0 (if R <? 0 then 0 else R) = Z.max 0 R) as Hmax.
  { intros R. destruct (R <? 0) eqn:E; lia. }
  assert (MeetupClient.sleep_for_rate c = false
          \/ rate_limit w = None
          \/ (exists remaining, rate_limit w = Some remaining
                /\ MeetupClient.min_rate_to_sleep c < remaining) ->
          mslept (MeetupClient.sleep_for_rate_limit c w).2 = mslept w) as Hno.
  { unfold MeetupClient.sleep_for_rate_limit,
      MeetupClient.calculate_time_to_reset.
    intros [H|[H|(remaining & H & Hlt)]]; rewrite ?H.
    - destruct (rate_limit w) as [remaining|]; [|reflexivity].
      destruct (_ <=? _); [|reflexivity].
      destruct (rate_limit_reset_ts w); reflexivity.
    - reflexivity.
    - assert ((remaining <=? MeetupClient.min_rate_to_sleep c) = false) as ->
        by lia.
      reflexivity. }
  split; [|split; [|exact Hno]].
  - intros remaining R Harch Hsleep Hrate Hlow Hreset.
    unfold MeetupClient._fetch, bindM. rewrite Harch.
    unfold MeetupClient.sleep_for_rate_limit,
      MeetupClient.calculate_time_to_reset.
    rewrite Hrate, Hreset, Hsleep.
    assert ((remaining <=? MeetupClient.min_rate_to_sleep c) = true) as -> by lia.
    cbn. now rewrite Hmax.
  - intros H. unfold MeetupClient._fetch, bindM.
    destruct (MeetupClient.from_archive c) eqn:Harch; [reflexivity|].
    destruct H as [H|[H|[H|H]]]; [| | |discriminate].
    all: specialize (Hno ltac:(tauto));
      destruct (MeetupClient.sleep_for_rate_limit c w) as [[[]|e] w1];
      exact Hno.
Qed.

Lemma wait_before_request_witness :
  mslept (MeetupClient._fetch example_http (example_meetup_client "secret")
            (Api.QEvent "e1") low_quota_mworld).2 = [100]
  /\ mslept (MeetupClient._fetch example_http (example_meetup_client "secret")
               (Api.QEvent "e1") fresh_mworld).2 = []
  /\ mslept (MeetupClient.sleep_for_rate_limit (example_meetup_client "secret")
               fresh_mworld).2 = [].
Proof.
  destruct (wait_before_request example_http (example_meetup_client "secret")
              (Api.QEvent "e1") low_quota_mworld) as [Hlow _].
  destruct (wait_before_request example_http (example_meetup_client "secret")
              (Api.QEvent "e1") fresh_mworld) as (_ & Hnone & Hnone').
  split; [|split].
  - apply (Hlow 0 100); reflexivity || (cbn; lia).
  - apply Hnone. right. left. reflexivity.
  - apply Hnone'. right. left. reflexivity.
Defined.

(** C6, as the specification states it, fails on the Meetup client: with
    the quota used up, a reset value of 100 and a clock that reads 40, the
    wait is 100 seconds, not [max(0, 100 - 40)]. *)
Lemma stated_wait_counterexample :
  rate_limit low_quota_mworld = Some 0
  /\ rate_limit_reset_ts low_quota_mworld = Some 100
  /\ mslept (MeetupClient.sleep_for_rate_limit (example_meetup_client "secret")
               low_quota_mworld).2 = [100]
  /\ stated_wait 100 40 = 60
  /\ mslept (MeetupClient.sleep_for_rate_limit (example_meetup_client "secret")
               low_quota_mworld).2
     <> mslept low_quota_mworld ++ [stated_wait 100 40].
Proof.
  repeat split. vm_compute. discriminate.
Qed.

(** ** The update time of a Meetup item *)

Section Items.

Variable http : nat -> Api.query -> result Api.response.
Variable c : MeetupClient.client.



End Items.



(* ===================================================================== *)
(** * Further properties of the code *)

(** ** The ssh transport, whatever the server does *)

(** X1. Whatever the commands do, the ssh transport runs the command at
    least once and at most [MAX_RETRIES] = 3 times: it stops at the first
    run that succeeds and returns what that run printed; after three failed
    runs it raises the [RuntimeError]. It sleeps once after each failed
    run, 0, 60 and 120 seconds in this order, so never more than 180
    seconds in all. *)
Theorem execute_from_remote_bounded :
  forall (cmd : string) (w : World),
    let r := GerritClient.__execute_from_remote cmd w in
    exists failures : nat,
      (failures <= 3)%nat
      /\ (forall i, (i < failures)%nat -> proc w (ncalls w + i)%nat cmd = None)
      /\ slept r.2 = slept w ++ firstn failures [0; 60; 120]
      /\ total (firstn failures [0; 60; 120]) <= 180
      /\ match r.1 with
         | Ok out =>
             (failures < 3)%nat
             /\ proc w (ncalls w + failures)%nat cmd = Some out
             /\ ncalls r.2 = (ncalls w + S failures)%nat
         | Raise e =>
             failures = 3%nat
             /\ ncalls r.2 = (ncalls w + 3)%nat
             /\ e = RuntimeError (cmd +:+ " failed 3 times. Giving up!")
         end.
Proof.
  intros cmd w r. subst r.
  assert (forall j out,
            (j < 3)%nat ->
            (forall i, (i < j)%nat -> proc w (ncalls w + i)%nat cmd = None) ->
            proc w (ncalls w + j)%nat cmd = Some out ->
            exists failures : nat,
              (failures <= 3)%nat
              /\ (forall i, (i < failures)%nat ->
                    proc w (ncalls w + i)%nat cmd = None)
              /\ slept (GerritClient.__execute_from_remote cmd w).2
                 = slept w ++ firstn failures [0; 60; 120]
              /\ total (firstn failures [0; 60; 120]) <= 180
              /\ match (GerritClient.__execute_from_remote cmd w).1 with
                 | Ok out =>
                     (failures < 3)%nat
                     /\ proc w (ncalls w + failures)%nat cmd = Some out
                     /\ ncalls (GerritClient.__execute_from_remote cmd w).2
                        = (ncalls w + S failures)%nat
                 | Raise e =>
                     failures = 3%nat
                     /\ ncalls (GerritClient.__execute_from_remote cmd w).2
                        = (ncalls w + 3)%nat
                     /\ e = RuntimeError (cmd +:+ " failed 3 times. Giving up!")
                 end) as Hsuccess.
  { intros j out Hj Hfail Hok. exists j.
    unfold GerritClient.__execute_from_remote.
    change (Z.to_nat (GerritClient.MAX_RETRIES - 0)) with 3%nat.
    rewrite (attempts_success 3 0 cmd w j out Hj Hfail Hok).
    cbn [archive slept ncalls fst snd].
    split; [lia|]. split; [exact Hfail|].
    assert (j = 0 \/ j = 1 \/ j = 2)%nat as [->|[->| ->]] by lia;
      destruct (archive w); cbn; repeat split; (lia || assumption). }
  destruct (proc w (ncalls w + 0)%nat cmd) as [out|] eqn:H0.
  { apply (Hsuccess 0%nat out); [lia| |exact H0]. intros i Hi. lia. }
  destruct (proc w (ncalls w + 1)%nat cmd) as [out|] eqn:H1.
  { apply (Hsuccess 1%nat out); [lia| |exact H1].
    intros i Hi. assert (i = 0%nat) as -> by lia. exact H0. }
  destruct (proc w (ncalls w + 2)%nat cmd) as [out|] eqn:H2.
  { apply (Hsuccess 2%nat out); [lia| |exact H2].
    intros i Hi. assert (i = 0 \/ i = 1)%nat as [->| ->] by lia; assumption. }
  clear Hsuccess.
  assert (fails_for 3 cmd w) as Hfail.
  { intros i Hi.
    assert (i = 0 \/ i = 1 \/ i = 2)%nat as [->|[->| ->]] by lia; assumption. }
  exists 3%nat. unfold GerritClient.__execute_from_remote.
  change (Z.to_nat (GerritClient.MAX_RETRIES - 0)) with 3%nat.
  rewrite (attempts_failure 3 0 cmd w Hfail).
  cbn [archive slept ncalls fst snd].
  split; [lia|]. split; [exact Hfail|].
  destruct (archive w); cbn; repeat split; lia.
Qed.

(** ** What a fetch does to the world *)

Section FetchWorld.

Import Gerrit.

Variable parse_reviews : string -> result (list review).
Variable b : backend.
Variable from_ut : Q.

(** A property of the world that every request for a page keeps. *)
Variable Inv : World -> Prop.
Hypothesis get_reviews_keeps : forall last_item filter_ w,
  Inv w -> Inv (_get_reviews parse_reviews b last_item filter_ w).2.

Lemma try_final {A} (r : result A) w k :
  Inv w -> (forall a, Inv (final (k a))) -> Inv (final (try r w k)).
Proof. intros Hw Hk. destruct r; cbn; auto. Qed.

Lemma request_final last_item filter_ w k :
  Inv w ->
  (forall page w', Inv w' -> Inv (final (k page w'))) ->
  Inv (final (request parse_reviews b last_item filter_ w k)).
Proof.
  intros Hw Hk. unfold request.
  pose proof (get_reviews_keeps last_item filter_ w Hw) as H.
  destruct (_get_reviews _ _ _ _ w) as [[page|e] w']; cbn in *; auto.
Qed.

Lemma refill_open_final s w k :
  Inv w ->
  (forall s' w', Inv w' -> Inv (final (k s' w'))) ->
  Inv (final (refill_open parse_reviews b s w k)).
Proof.
  intros Hw Hk. unfold refill_open.
  destruct (reviews_open s); [|auto].
  destruct (_ >=? _); [|auto].
  apply try_final; [exact Hw|]. intros a. apply request_final; auto.
Qed.

Lemma refill_closed_final s w k :
  Inv w ->
  (forall s' w', Inv w' -> Inv (final (k s' w'))) ->
  Inv (final (refill_closed parse_reviews b s w k)).
Proof.
  intros Hw Hk. unfold refill_closed.
  destruct (reviews_closed s); [|auto].
  destruct (_ >=? _); [|auto].
  apply try_final; [exact Hw|]. intros a. apply request_final; auto.
Qed.

Lemma loop28_final fuel : forall s w,
  Inv w -> Inv (final (loop28 parse_reviews b from_ut fuel s w)).
Proof.
  induction fuel as [|fuel IH]; intros s w Hw; cbn [loop28]; [exact Hw|].
  destruct (pop28 s) as [[review s1]|]; [|exact Hw].
  destruct (Qle_bool _ _); [exact Hw|].
  cbn [final yield]. apply refill_open_final; [exact Hw|]. intros s2 w2 Hw2.
  apply refill_closed_final; [exact Hw2|]. intros s3 w3 Hw3. now apply IH.
Qed.

Lemma loop_final fuel : forall s w,
  Inv w -> Inv (final (loop parse_reviews b from_ut fuel s w)).
Proof.
  induction fuel as [|fuel IH]; intros s w Hw; cbn [loop]; [exact Hw|].
  destruct (reviews s) as [|review reviews']; [exact Hw|].
  destruct (Qle_bool _ _); [exact Hw|].
  cbn [final yield]. destruct reviews'; [|now apply IH].
  destruct (_ >=? _); [|now apply IH].
  apply try_final; [exact Hw|]. intros a. apply request_final; [exact Hw|].
  intros page w' Hw'. now apply IH.
Qed.

Lemma fetch_items_final fuel w :
  Inv w -> Inv (final (fetch_items parse_reviews b from_ut fuel w)).
Proof.
  intros Hw. unfold fetch_items, _fetch_gerrit28, _fetch_gerrit.
  destruct (_ && _).
  - apply try_final; [exact Hw|]. intros o.
    apply try_final; [exact Hw|]. intros c.
    apply request_final; [exact Hw|]. intros po w1 Hw1.
    apply request_final; [exact Hw1|]. intros pc w2 Hw2.
    now apply loop28_final.
  - apply try_final; [exact Hw|]. intros o.
    apply request_final; [exact Hw|]. intros p w1 Hw1.
    now apply loop_final.
Qed.

End FetchWorld.

(** A request for a page that is answered from the archive leaves the
    world as it is. *)
Lemma get_reviews_from_archive parse_reviews b last_item filter_ w :
  GerritClient.from_archive (Gerrit.client b) = true ->
  (Gerrit._get_reviews parse_reviews b last_item filter_ w).2 = w.
Proof.
  intros Harch. unfold Gerrit._get_reviews, GerritClient.reviews, bindM, lift.
  destruct (GerritClient._get_gerrit_cmd _ _ _) as [cmd|e]; [|reflexivity].
  unfold GerritClient.__execute. rewrite Harch.
  unfold GerritClient.__execute_from_archive.
  destruct (archive w) as [a|]; [|reflexivity].
  destruct (Archive.retrieve _ a) as [[raw|msg]|e]; reflexivity.
Qed.

(** X2. A fetch that replays an archive is read-only: however it ends,
    it has run no command, it has not slept and it has left the archive as
    it was. *)
Theorem fetch_from_archive_is_read_only :
  forall parse_reviews b from_ut fuel w,
    GerritClient.from_archive (Gerrit.client b) = true ->
    Gerrit.final (Gerrit.fetch_items parse_reviews b from_ut fuel w) = w.
Proof.
  intros parse_reviews b from_ut fuel w Harch.
  apply (fetch_items_final parse_reviews b from_ut (fun w' => w' = w));
    [|reflexivity].
  intros last_item filter_ w' ->. now apply get_reviews_from_archive.
Qed.

Lemma fetch_from_archive_is_read_only_witness :
  Gerrit.final (Gerrit.fetch_items scenario_parse replay_backend 0%Q 5 replay_world)
  = replay_world.
Proof.
  apply (fetch_from_archive_is_read_only scenario_parse replay_backend 0%Q 5%nat
           replay_world).
  reflexivity.
Defined.

(** X3. Against a server that runs Gerrit 2.9 a fetch fails at once: the
    generator raises the [BackendError] of the cursor computation before it
    yields a review and before it runs a query. *)
Theorem fetch_items_gerrit29 :
  forall parse_reviews b from_ut fuel w,
    GerritClient.version (Gerrit.client b) = (2, 9) ->
    Gerrit.fetch_items parse_reviews b from_ut fuel w
    = Gerrit.stop
        (Failed (BackendError "Gerrit 2.9.0 does not support pagination")) w.
Proof.
  intros parse_reviews b from_ut fuel w Hv.
  unfold Gerrit.fetch_items, Gerrit._fetch_gerrit,
    GerritClient.next_retrieve_group_item.
  rewrite Hv. reflexivity.
Qed.

Lemma fetch_items_gerrit29_witness :
  Gerrit.fetch_items scenario_parse gerrit29_backend 0%Q 5 scenario_world
  = Gerrit.stop
      (Failed (BackendError "Gerrit 2.9.0 does not support pagination"))
      scenario_world.
Proof.
  apply (fetch_items_gerrit29 scenario_parse gerrit29_backend 0%Q 5%nat
           scenario_world).
  reflexivity.
Defined.

(** ** The single-queue loop and the watermark *)

(** While reviews are pending, the loop of [_fetch_gerrit] yields them
    without a request, up to the first one at or before the watermark. *)
Lemma loop_stops_at_first_old parse_reviews b from_ut new :
  forall fuel s w old rest,
    Gerrit.reviews s = new ++ old :: rest ->
    Forall (newer_than from_ut) new ->
    (inject_Z (lastUpdated old) <= from_ut)%Q ->
    (length new < fuel)%nat ->
    Gerrit.loop parse_reviews b from_ut fuel s w
    = {| Gerrit.emitted := new; Gerrit.fetched := [];
         Gerrit.ended := Completed; Gerrit.final := w |}.
Proof.
  induction new as [|x new IH]; intros fuel s w old rest Hs Hnew Hold Hfuel;
    (destruct fuel as [|fuel]; [cbn in Hfuel; lia|]); cbn [Gerrit.loop];
    rewrite Hs; cbn [app].
  - apply Qle_bool_iff in Hold. now rewrite Hold.
  - inversion Hnew as [|? ? Hx Hnew']; subst.
    assert (Qle_bool (inject_Z (lastUpdated x)) from_ut = false) as ->.
    { destruct (Qle_bool _ _) eqn:E; [|reflexivity].
      apply Qle_bool_iff in E. unfold newer_than, Gerrit.metadata_updated_on in Hx.
      apply Qlt_not_le in Hx. contradiction. }
    assert (exists y l, new ++ old :: rest = y :: l) as (y & l & Hyl).
    { destruct new; cbn; eauto. }
    rewrite Hyl.
    rewrite (IH fuel _ w old rest); cbn [Gerrit.reviews];
      [reflexivity | now rewrite Hyl | assumption | assumption
      | cbn in Hfuel; lia].
Qed.

(** X4. The single-queue fetch stops at the watermark. When the first
    page holds the reviews [new], all updated after the watermark, followed
    by a review updated at or before it, the fetch yields exactly [new], in
    this order, and completes: the first query is the only one it runs,
    whatever the size of the page. *)
Theorem fetch_gerrit_stops_at_watermark :
  forall parse_reviews b from_ut fuel w w1 cursor new old rest,
    GerritClient.next_retrieve_group_item (Gerrit.client b) CNone None
    = Ok cursor ->
    Gerrit._get_reviews parse_reviews b cursor None w
    = (Ok (new ++ old :: rest), w1) ->
    Forall (newer_than from_ut) new ->
    (inject_Z (lastUpdated old) <= from_ut)%Q ->
    (length new < fuel)%nat ->
    Gerrit._fetch_gerrit parse_reviews b from_ut fuel w
    = {| Gerrit.emitted := new;
         Gerrit.fetched := [(None, new ++ old :: rest)];
         Gerrit.ended := Completed;
         Gerrit.final := w1 |}.
Proof.
  intros parse_reviews b from_ut fuel w w1 cursor new old rest
    Hcursor Hpage Hnew Hold Hfuel.
  unfold Gerrit._fetch_gerrit, Gerrit.request. rewrite Hcursor. cbn [Gerrit.try].
  rewrite Hpage.
  rewrite (loop_stops_at_first_old parse_reviews b from_ut new fuel _ w1 old rest);
    auto.
Qed.

Lemma fetch_gerrit_stops_at_watermark_witness :
  Gerrit.emitted
    (Gerrit._fetch_gerrit walk_parse (walk_backend "alice" false) 45%Q 2 walk_world)
  = [example_review 50]
  /\ ncalls (Gerrit.final
               (Gerrit._fetch_gerrit walk_parse (walk_backend "alice" false) 45%Q 2
                  walk_world)) = 1%nat.
Proof.
  set (w1 := (Gerrit._get_reviews walk_parse (walk_backend "alice" false)
                (CInt 0) None walk_world).2).
  rewrite (fetch_gerrit_stops_at_watermark walk_parse (walk_backend "alice" false)
             45%Q 2%nat walk_world w1 (CInt 0) [example_review 50]
             (example_review 40) []).
  - split; reflexivity.
  - reflexivity.
  - reflexivity.
  - repeat constructor.
  - unfold Qle. cbn. lia.
  - cbn. lia.
Defined.

(** ** The walk by offsets *)

Lemma geb_true (x y : Z) : y <= x -> (x >=? y) = true.
Proof. intros H. rewrite Z.geb_leb. now apply Z.leb_le. Qed.

Lemma geb_false (x y : Z) : x < y -> (x >=? y) = false.
Proof. intros H. rewrite Z.geb_leb. now apply Z.leb_gt. Qed.

Section OffsetWalk.

Import Gerrit.

Variable parse_reviews : string -> result (list review).
Variable b : backend.
Variable from_ut : Q.

Hypothesis by_offset : pages_by_offset (GerritClient.version (client b)) = true.
Hypothesis max_reviews_positive : 1 <= max_reviews b.

Lemma not_at_watermark (r : review) :
  newer_than from_ut r -> Qle_bool (inject_Z (lastUpdated r)) from_ut = false.
Proof.
  intros H. destruct (Qle_bool _ _) eqn:E; [|reflexivity].
  apply Qle_bool_iff in E. unfold newer_than, metadata_updated_on in H.
  apply Qlt_not_le in H. contradiction.
Qed.

Lemma next_offset offset entry :
  GerritClient.next_retrieve_group_item (client b) (CInt offset) entry
  = Ok (CInt offset).
Proof.
  unfold GerritClient.next_retrieve_group_item.
  unfold pages_by_offset in by_offset. now rewrite by_offset.
Qed.

Lemma first_offset :
  GerritClient.next_retrieve_group_item (client b) CNone None = Ok (CInt 0).
Proof.
  unfold GerritClient.next_retrieve_group_item.
  unfold pages_by_offset in by_offset. now rewrite by_offset.
Qed.

(** The loop yields what is pending, then asks for the pages that follow,
    each at the offset of the reviews popped so far. *)
Lemma loop_walk fuel : forall pending offset L w rest w',
  Forall (newer_than from_ut) pending ->
  Forall (newer_than from_ut) (concat rest) ->
  match pending with
  | [] => rest = [] /\ w' = w
  | _ :: _ =>
      if L >=? max_reviews b then
        offset_chain parse_reviews b (offset + len pending) w rest w'
      else rest = [] /\ w' = w
  end ->
  (length pending + length (concat rest) < fuel)%nat ->
  loop parse_reviews b from_ut fuel
    {| last_item := CInt offset; reviews := pending; last_nreviews := L |} w
  = {| emitted := pending ++ concat rest;
       fetched := map (pair None) rest;
       ended := Completed;
       final := w' |}.
Proof.
  induction fuel as [|fuel IH];
    intros pending offset L w rest w' Hpending Hrest Hnext Hfuel; [lia|].
  cbn [loop reviews last_item last_nreviews increment].
  destruct pending as [|x pending].
  { destruct Hnext as [-> ->]. reflexivity. }
  inversion Hpending as [|? ? Hx Hpending']; subst.
  rewrite (not_at_watermark x Hx).
  destruct pending as [|y pending].
  - destruct (L >=? max_reviews b).
    + rewrite next_offset. cbn [try]. unfold request.
      change (len [x]) with 1 in Hnext.
      inversion Hnext as [? ? page ? Hpage Hshort
                         |? ? page w1 pages ? Hpage Hfull Hchain]; subst;
        rewrite Hpage.
      * rewrite (IH page (offset + 1) (len page) w' [] w');
          [cbn; now rewrite !app_nil_r | | constructor | |].
        -- cbn [concat] in Hrest. now rewrite app_nil_r in Hrest.
        -- destruct page; [auto|].
           rewrite geb_false by assumption.
           auto.
        -- cbn [concat length] in *. rewrite app_nil_r in Hfuel. cbn. lia.
      * cbn [concat] in Hrest. apply Forall_app in Hrest as [Hpage' Hpages'].
        rewrite (IH page (offset + 1) (len page) w1 pages w');
          [reflexivity | assumption | assumption | |].
        -- destruct page as [|r page]; [unfold len in Hfull; cbn in Hfull; lia|].
           rewrite geb_true by assumption.
           exact Hchain.
        -- cbn [concat length] in *. rewrite length_app in Hfuel. cbn. lia.
    + destruct Hnext as [-> ->].
      rewrite (IH [] (offset + 1) L w [] w);
        [reflexivity | constructor | constructor | auto | cbn in *; lia].
  - rewrite (IH (y :: pending) (offset + 1) L w rest w');
      [reflexivity | assumption | assumption | |].
    + destruct (L >=? max_reviews b); [|exact Hnext].
      replace (offset + 1 + len (y :: pending))
        with (offset + len (x :: y :: pending)); [exact Hnext|].
      unfold len. cbn [length]. lia.
    + cbn [length] in *. lia.
Qed.

Lemma fetch_gerrit_walk fuel w pages w' :
  offset_chain parse_reviews b 0 w pages w' ->
  Forall (newer_than from_ut) (concat pages) ->
  (length (concat pages) < fuel)%nat ->
  _fetch_gerrit parse_reviews b from_ut fuel w
  = {| emitted := concat pages;
       fetched := map (pair None) pages;
       ended := Completed;
       final := w' |}.
Proof.
  intros Hchain Hnew Hfuel. unfold _fetch_gerrit, request.
  rewrite first_offset. cbn [try].
  inversion Hchain as [? ? page ? Hpage Hshort
                      |? ? page w1 rest ? Hpage Hfull Hrest]; subst;
    rewrite Hpage.
  - cbn [concat] in *. rewrite app_nil_r in *.
    rewrite (loop_walk fuel page 0 (len page) w' [] w');
      [cbn; now rewrite app_nil_r | assumption | constructor | | cbn; lia].
    destruct page; [auto|].
    rewrite geb_false by assumption. auto.
  - cbn [concat] in *. apply Forall_app in Hnew as [Hpage' Hrest'].
    rewrite (loop_walk fuel page 0 (len page) w1 rest w');
      [reflexivity | assumption | assumption | |].
    + destruct page as [|r page]; [unfold len in Hfull; cbn in Hfull; lia|].
      rewrite geb_true by assumption.
      exact Hrest.
    + rewrite length_app in Hfuel. lia.
Qed.

End OffsetWalk.

(** X5. The walk by offsets is complete. Against a server that pages by
    offset (Gerrit 2.10 and later), with [max_reviews] at least 1, when the
    server answers the query at offset 0 and then each query at the offset
    of the reviews received so far, with full pages followed by a page
    shorter than [max_reviews], and all the reviews are after the
    watermark, the fetch yields every review of every page, in order, asks
    for nothing after the short page and completes. *)
Theorem fetch_gerrit_walks_by_offset :
  forall parse_reviews b from_ut fuel w pages w',
    pages_by_offset (GerritClient.version (Gerrit.client b)) = true ->
    1 <= Gerrit.max_reviews b ->
    offset_chain parse_reviews b 0 w pages w' ->
    Forall (newer_than from_ut) (concat pages) ->
    (length (concat pages) < fuel)%nat ->
    Gerrit.fetch_items parse_reviews b from_ut fuel w
    = {| Gerrit.emitted := concat pages;
         Gerrit.fetched := map (pair None) pages;
         Gerrit.ended := Completed;
         Gerrit.final := w' |}.
Proof.
  intros parse_reviews b from_ut fuel w pages w' Hv Hmax Hchain Hnew Hfuel.
  unfold Gerrit.fetch_items.
  assert (((GerritClient.version (Gerrit.client b)).1 =? 2)
          && ((GerritClient.version (Gerrit.client b)).2 =? 8) = false) as ->.
  { unfold pages_by_offset in Hv. lia. }
  now apply fetch_gerrit_walk.
Qed.

Lemma fetch_gerrit_walks_by_offset_witness :
  Gerrit.emitted
    (Gerrit.fetch_items walk_parse (walk_backend "alice" false) 0%Q 4 walk_world)
  = [example_review 50; example_review 40; example_review 30]
  /\ Gerrit.ended
       (Gerrit.fetch_items walk_parse (walk_backend "alice" false) 0%Q 4 walk_world)
     = Completed.
Proof.
  set (w1 := (Gerrit._get_reviews walk_parse (walk_backend "alice" false)
                (CInt 0) None walk_world).2).
  set (w2 := (Gerrit._get_reviews walk_parse (walk_backend "alice" false)
                (CInt 2) None w1).2).
  rewrite (fetch_gerrit_walks_by_offset walk_parse (walk_backend "alice" false)
             0%Q 4%nat walk_world
             [[example_review 50; example_review 40]; [example_review 30]] w2).
  - split; reflexivity.
  - reflexivity.
  - cbn. lia.
  - apply (offset_next _ _ 0 walk_world _ w1);
      [reflexivity | unfold Gerrit.len; cbn; lia |].
    apply offset_last; [reflexivity | unfold Gerrit.len; cbn; lia].
  - repeat constructor.
  - cbn. lia.
Defined.

(** ** Recording a fetch and replaying it *)

(** *** The key of a query at an offset *)

Lemma free_of_app x s t :
  free_of x (s +:+ t) = free_of x s && free_of x t.
Proof.
  induction s as [|c s IH]; [reflexivity|].
  rewrite append_cons. cbn [free_of]. rewrite IH. now rewrite andb_assoc.
Qed.

Lemma free_of_pretty_N_go x n : forall s,
  (forall d, pretty_N_char d <> x) ->
  free_of x s = true -> free_of x (pretty_N_go n s) = true.
Proof.
  induction (N.lt_wf_0 n) as [n _ IH]; intros s Hx Hs.
  assert (n = 0 \/ 0 < n)%N as [->|Hn] by lia.
  - now rewrite pretty_N_go_0.
  - rewrite pretty_N_go_step by assumption. apply IH.
    + now apply N.div_lt.
    + assumption.
    + cbn [free_of]. rewrite Hs, andb_true_r. apply negb_true_iff.
      apply Ascii.eqb_neq. apply Hx.
Qed.

Lemma free_of_pretty_Z x (n : Z) :
  (forall d, pretty_N_char d <> x) -> x <> "-"%char ->
  free_of x (pretty n) = true.
Proof.
  intros Hx Hdash.
  assert (forall p : positive, free_of x (pretty p) = true) as Hpos.
  { intros p. unfold pretty, pretty_positive, pretty, pretty_N.
    destruct (decide (N.pos p = 0%N)); [discriminate|].
    now apply free_of_pretty_N_go. }
  destruct n as [|p|p]; unfold pretty, pretty_Z.
  - cbn [free_of]. rewrite andb_true_r. apply negb_true_iff, Ascii.eqb_neq.
    apply (Hx 0%N).
  - apply Hpos.
  - rewrite free_of_app, Hpos, andb_true_r. cbn [free_of].
    rewrite andb_true_r. apply negb_true_iff, Ascii.eqb_neq. congruence.
Qed.

Lemma digit_is_not_space d : pretty_N_char d <> " "%char.
Proof. unfold pretty_N_char. repeat case_match; discriminate. Qed.

Lemma digit_is_not_at d : pretty_N_char d <> "@"%char.
Proof. unfold pretty_N_char. repeat case_match; discriminate. Qed.

Lemma match_user_none s : free_of "@" s = true -> Re.match_user s = None.
Proof.
  induction s as [|c s IH]; [reflexivity|]. cbn [free_of Re.match_user].
  intros H. apply andb_prop in H as [Hc Hs]. apply negb_true_iff in Hc.
  rewrite (IH Hs), Hc. now destruct (Py.isspace c).
Qed.

Lemma sub_go_plain repl s : free_of " " s = true -> Re.sub_go repl 0 s = s.
Proof.
  induction s as [|c s IH]; [reflexivity|]. cbn [free_of Re.sub_go].
  intros H. apply andb_prop in H as [Hc Hs]. apply negb_true_iff in Hc.
  now rewrite Hc, (IH Hs).
Qed.

(** The sanitizer leaves the offset of a query as it is. *)
Lemma sanitize_start base (n : Z) :
  GerritClient.sanitize_for_archive (base +:+ " --start=" +:+ pretty n)
  = GerritClient.sanitize_for_archive base +:+ " --start=" +:+ pretty n.
Proof.
  unfold GerritClient.sanitize_for_archive, Re.sub_user.
  change (base +:+ " --start=" +:+ pretty n)
    with (base +:+ String " " ("--start=" +:+ pretty n)).
  rewrite sub_go_split by lia. f_equal.
  assert (free_of "@" ("--start=" +:+ pretty n) = true) as Hat.
  { rewrite free_of_app, free_of_pretty_Z;
      [reflexivity | apply digit_is_not_at | discriminate]. }
  assert (free_of " " ("--start=" +:+ pretty n) = true) as Hsp.
  { rewrite free_of_app, free_of_pretty_Z;
      [reflexivity | apply digit_is_not_space | discriminate]. }
  cbn [Re.sub_go]. change (Ascii.eqb " " " ") with true. cbv iota.
  rewrite (match_user_none _ Hat), (sub_go_plain _ _ Hsp). reflexivity.
Qed.

Lemma append_inv_head (a b c : string) : a +:+ b = a +:+ c -> b = c.
Proof.
  induction a as [|x a IH]; [trivial|]. rewrite !append_cons.
  intros H. injection H as H. auto.
Qed.

(** *** The two runs, in step *)

Section Replay.

Import Gerrit.

Variable parse_reviews : string -> result (list review).
Variable from_ut : Q.

(** [b1] records, [b2] replays; [key n] is the sanitized query at the
    offset [n], the same for both. *)
Variables b1 b2 : backend.
Variable key : Z -> string.

Hypothesis records : GerritClient.from_archive (client b1) = false.
Hypothesis replays : GerritClient.from_archive (client b2) = true.
Hypothesis same_max : max_reviews b2 = max_reviews b1.
Hypothesis by_offset1 : pages_by_offset (GerritClient.version (client b1)) = true.
Hypothesis by_offset2 : pages_by_offset (GerritClient.version (client b2)) = true.
Hypothesis key1 : forall n, exists cmd,
  GerritClient._get_gerrit_cmd (client b1) (CInt n) None = Ok cmd
  /\ GerritClient.sanitize_for_archive cmd = key n.
Hypothesis key2 : forall n, exists cmd,
  GerritClient._get_gerrit_cmd (client b2) (CInt n) None = Ok cmd
  /\ GerritClient.sanitize_for_archive cmd = key n.
Hypothesis key_inj : forall n m, key n = key m -> n = m.

Lemma record_page n w a :
  archive w = Some a ->
  exists R w1,
    _get_reviews parse_reviews b1 (CInt n) None w
    = (let* raw := replayed R in parse_reviews raw, w1)
    /\ archive w1 = Some (<[key n := R]> a).
Proof.
  intros Ha. destruct (key1 n) as (cmd & Hcmd & Hkey).
  destruct (execute_from_remote_stores cmd w a Ha) as (R & Hout & Hstored).
  unfold _get_reviews, GerritClient.reviews, bindM, lift.
  rewrite Hcmd. unfold GerritClient.__execute. rewrite records.
  destruct (GerritClient.__execute_from_remote cmd w) as [out w1].
  cbn [fst snd] in Hout, Hstored. subst out. exists R, w1.
  rewrite Hkey in Hstored. split; [|exact Hstored].
  destruct R; reflexivity.
Qed.

Lemma replay_page n wr A R :
  archive wr = Some A -> A !! key n = Some R ->
  _get_reviews parse_reviews b2 (CInt n) None wr
  = (let* raw := replayed R in parse_reviews raw, wr).
Proof.
  intros HA HR. destruct (key2 n) as (cmd & Hcmd & Hkey).
  unfold _get_reviews, GerritClient.reviews, bindM, lift.
  rewrite Hcmd. unfold GerritClient.__execute. rewrite replays.
  unfold GerritClient.__execute_from_archive, Archive.retrieve.
  rewrite HA, Hkey, HR. destruct R; reflexivity.
Qed.

Lemma loop_record_replay fuel : forall s n w a,
  last_item s = CInt n ->
  archive w = Some a ->
  exists F,
    archive (final (loop parse_reviews b1 from_ut fuel s w)) = Some F
    /\ (forall m, m <= n -> F !! key m = a !! key m)
    /\ forall wr,
         archive wr = Some F ->
         loop parse_reviews b2 from_ut fuel s wr
         = {| emitted := emitted (loop parse_reviews b1 from_ut fuel s w);
              fetched := fetched (loop parse_reviews b1 from_ut fuel s w);
              ended := ended (loop parse_reviews b1 from_ut fuel s w);
              final := wr |}.
Proof.
  induction fuel as [|fuel IH]; intros [li rs L] n w a Hli Ha;
    cbn [last_item] in Hli; subst li.
  { exists a. repeat split; auto. }
  cbn [loop reviews last_item last_nreviews increment].
  destruct rs as [|review rs]; [exists a; repeat split; auto|].
  destruct (Qle_bool _ _); [exists a; repeat split; auto|].
  rewrite same_max.
  assert (forall s',
            last_item s' = CInt (n + 1) ->
            exists F,
              archive (final (yield review
                                (loop parse_reviews b1 from_ut fuel s' w)))
              = Some F
              /\ (forall m, m <= n -> F !! key m = a !! key m)
              /\ forall wr,
                   archive wr = Some F ->
                   yield review (loop parse_reviews b2 from_ut fuel s' wr)
                   = {| emitted := emitted (yield review
                                     (loop parse_reviews b1 from_ut fuel s' w));
                        fetched := fetched (yield review
                                     (loop parse_reviews b1 from_ut fuel s' w));
                        ended := ended (yield review
                                     (loop parse_reviews b1 from_ut fuel s' w));
                        final := wr |}) as Hsame.
  { intros s' Hs'. destruct (IH s' (n + 1) w a Hs' Ha) as (F & HF & Hkeep & Hrun).
    exists F. split; [exact HF|]. split; [intros m Hm; apply Hkeep; lia|].
    intros wr Hwr. rewrite (Hrun wr Hwr). reflexivity. }
  destruct rs as [|y rs]; [|now apply Hsame].
  destruct (L >=? max_reviews b1); [|now apply Hsame].
  clear Hsame.
  rewrite (next_offset b1 by_offset1), (next_offset b2 by_offset2).
  cbn [try]. unfold request.
  destruct (record_page (n + 1) w a Ha) as (R & w1 & Hget & Hstored).
  rewrite Hget.
  destruct (let* raw := replayed R in parse_reviews raw) as [page|e] eqn:Hparse.
  - destruct (IH {| last_item := CInt (n + 1); reviews := page;
                    last_nreviews := len page |} (n + 1) w1 _ eq_refl Hstored)
      as (F & HF & Hkeep & Hrun).
    exists F. split; [exact HF|]. split.
    + intros m Hm. rewrite Hkeep by lia. apply lookup_insert_ne.
      intros Heq. apply key_inj in Heq. lia.
    + intros wr Hwr.
      rewrite (replay_page (n + 1) wr F R Hwr), Hparse.
      * rewrite (Hrun wr Hwr). reflexivity.
      * rewrite Hkeep by lia. apply lookup_insert_eq.
  - exists (<[key (n + 1) := R]> a). split; [exact Hstored|]. split.
    + intros m Hm. apply lookup_insert_ne.
      intros Heq. apply key_inj in Heq. lia.
    + intros wr Hwr.
      rewrite (replay_page (n + 1) wr _ R Hwr), Hparse; [reflexivity|].
      apply lookup_insert_eq.
Qed.

Lemma fetch_gerrit_record_replay fuel w a :
  archive w = Some a ->
  _fetch_gerrit parse_reviews b2 from_ut fuel
    (final (_fetch_gerrit parse_reviews b1 from_ut fuel w))
  = _fetch_gerrit parse_reviews b1 from_ut fuel w.
Proof.
  intros Ha. unfold _fetch_gerrit.
  rewrite (first_offset b1 by_offset1), (first_offset b2 by_offset2).
  cbn [try]. unfold request.
  destruct (record_page 0 w a Ha) as (R & w1 & Hget & Hstored).
  rewrite Hget.
  destruct (let* raw := replayed R in parse_reviews raw) as [page|e] eqn:Hparse.
  - destruct (loop_record_replay fuel
                {| last_item := CInt 0; reviews := page;
                   last_nreviews := len page |} 0 w1 _ eq_refl Hstored)
      as (F & HF & Hkeep & Hrun).
    cbn [final received].
    rewrite (replay_page 0 _ F R HF), Hparse.
    + rewrite (Hrun _ HF).
      now destruct (loop parse_reviews b1 from_ut fuel _ w1).
    + rewrite Hkeep by lia. apply lookup_insert_eq.
  - cbn [final stop].
    rewrite (replay_page 0 w1 _ R Hstored), Hparse; [reflexivity|].
    apply lookup_insert_eq.
Qed.

End Replay.

Lemma get_cmd_without_filter c :
  exists base, GerritClient._get_gerrit_cmd c CNone None = Ok base.
Proof. unfold GerritClient._get_gerrit_cmd. cbn. eauto. Qed.

Lemma get_cmd_at_offset c base n :
  pages_by_offset (GerritClient.version c) = true ->
  GerritClient._get_gerrit_cmd c CNone None = Ok base ->
  GerritClient._get_gerrit_cmd c (CInt n) None
  = Ok (base +:+ " --start=" +:+ pretty n).
Proof.
  intros Hv Hbase. apply (cursor_in_command c None base Hbase).
  unfold pages_by_offset in Hv. lia.
Qed.

(** X6. What a fetch records, a later fetch replays. Against a server that
    pages by offset, a fetch that runs its queries with an archive
    configured leaves an archive from which the same fetch, made in replay
    mode by the same or by another user, runs exactly as the recorded one
    did: it yields the same reviews, receives the same pages and ends in
    the same way (completed, failed with the same exception, or cut at the
    same point), without touching the world. *)
Theorem recorded_fetch_is_replayed :
  forall parse_reviews hostname user1 user2 port max_reviews nohostkey
         id_filepath blacklist version from_ut fuel w a,
    pages_by_offset version = true ->
    Py.nospace (Py.str_opt user1) = true ->
    Py.nospace (Py.str_opt user2) = true ->
    archive w = Some a ->
    let recorded :=
      Gerrit.fetch_items parse_reviews
        (Gerrit.init hostname user1 port max_reviews nohostkey id_filepath
           blacklist false version) from_ut fuel w in
    Gerrit.fetch_items parse_reviews
      (Gerrit.init hostname user2 port max_reviews nohostkey id_filepath
         blacklist true version) from_ut fuel (Gerrit.final recorded)
    = recorded.
Proof.
  intros parse_reviews hostname user1 user2 port max_reviews nohostkey
    id_filepath blacklist version from_ut fuel w a Hv N1 N2 Ha recorded.
  subst recorded.
  set (b1 := Gerrit.init hostname user1 port max_reviews nohostkey id_filepath
               blacklist false version).
  set (b2 := Gerrit.init hostname user2 port max_reviews nohostkey id_filepath
               blacklist true version).
  unfold Gerrit.fetch_items.
  change (GerritClient.version (Gerrit.client b1)) with version.
  change (GerritClient.version (Gerrit.client b2)) with version.
  assert ((version.1 =? 2) && (version.2 =? 8) = false) as ->.
  { unfold pages_by_offset in Hv. lia. }
  destruct (get_cmd_without_filter (Gerrit.client b1)) as [base1 Hbase1].
  destruct (get_cmd_without_filter (Gerrit.client b2)) as [base2 Hbase2].
  assert (GerritClient.sanitize_for_archive base2
          = GerritClient.sanitize_for_archive base1) as Hsame.
  { destruct (init_cmd_shape hostname (Z.max 1 max_reviews) blacklist nohostkey
                port id_filepath false version) as [pre Hpre].
    pose proof (get_cmd_same_key (Gerrit.client b2) (Gerrit.client b1) pre
                  (hostname +:+ " gerrit ") (Py.str_opt user2)
                  (Py.str_opt user1) CNone None (Hpre user2) (Hpre user1)
                  eq_refl eq_refl eq_refl eq_refl N2 N1) as H.
    now rewrite Hbase1, Hbase2 in H. }
  apply (fetch_gerrit_record_replay parse_reviews from_ut b1 b2
           (fun n => GerritClient.sanitize_for_archive base1
                     +:+ " --start=" +:+ pretty n)) with (a := a);
    try reflexivity; try assumption.
  - intros n. exists (base1 +:+ " --start=" +:+ pretty n).
    split; [apply get_cmd_at_offset; assumption|]. apply sanitize_start.
  - intros n. exists (base2 +:+ " --start=" +:+ pretty n).
    split; [apply get_cmd_at_offset; assumption|].
    now rewrite sanitize_start, Hsame.
  - intros n m H. apply append_inv_head in H.
    apply (append_inv_head " --start=") in H. now apply (inj pretty) in H.
Qed.

Lemma recorded_fetch_is_replayed_witness :
  Gerrit.fetch_items walk_parse (walk_backend "bob" true) 0%Q 4
    (Gerrit.final
       (Gerrit.fetch_items walk_parse (walk_backend "alice" false) 0%Q 4
          walk_world))
  = Gerrit.fetch_items walk_parse (walk_backend "alice" false) 0%Q 4 walk_world
  /\ Gerrit.emitted
       (Gerrit.fetch_items walk_parse (walk_backend "alice" false) 0%Q 4
          walk_world)
     = [example_review 50; example_review 40; example_review 30].
Proof.
  split; [|reflexivity].
  apply (recorded_fetch_is_replayed walk_parse "review.example.org"
           (Some "alice") (Some "bob") (Some PORT) 2 false None None (2, 10)
           0%Q 4%nat walk_world ∅); reflexivity.
Defined.

(** ** The exceptions of a fetch *)

Section Failures.

Import Gerrit.

Variable parse_reviews : string -> result (list review).
Variable b : backend.
Variable from_ut : Q.

Hypothesis max_reviews_positive : 1 <= max_reviews b.

Abbreviation v := (GerritClient.version (client b)).








(** *** The single-queue loop *)


(** *** The dual-queue loop *)






End Failures.



(** The bound on [max_reviews] is needed: with [max_reviews] at 0 the
    dual-queue loop refills a partition from which nothing was popped, and
    reads [review_open] before it is assigned. *)
Example unclamped_fetch_reads_an_unbound_local :
  Gerrit.ended
    (Gerrit._fetch_gerrit28 unclamped_parse unclamped_backend 0%Q 3
       unclamped_world)
  = Failed (UnboundLocalError "review_open").
Proof. reflexivity. Qed.

(** ** The decoder of reviews *)

Section Replace.

Import Py.

Lemma prefix_nil s : String.prefix EmptyString s = true.
Proof. now destruct s. Qed.

Lemma prefix_cons a p c s :
  String.prefix (String a p) (String c s) = Ascii.eqb a c && String.prefix p s.
Proof.
  cbn [String.prefix]. destruct (ascii_dec a c) as [->|Hne].
  - now rewrite Ascii.eqb_refl.
  - apply Ascii.eqb_neq in Hne. now rewrite Hne.
Qed.

Lemma prefix_char a c s :
  String.prefix (String a EmptyString) (String c s) = Ascii.eqb a c.
Proof. now rewrite prefix_cons, prefix_nil, andb_true_r. Qed.

(** Replacing a character works character by character. *)
Lemma replace_char_app a new s t :
  replace_go (String a EmptyString) new 0 (s +:+ t)
  = replace_go (String a EmptyString) new 0 s
    +:+ replace_go (String a EmptyString) new 0 t.
Proof.
  induction s as [|c s IH]; [reflexivity|].
  rewrite append_cons. cbn [replace_go]. rewrite !prefix_char.
  cbn [String.length Nat.sub]. rewrite IH.
  destruct (Ascii.eqb a c); [now rewrite append_assoc | now rewrite append_cons].
Qed.

Lemma replace_char_free a new s :
  free_of a s = true -> replace_go (String a EmptyString) new 0 s = s.
Proof.
  induction s as [|c s IH]; [reflexivity|]. cbn [free_of replace_go].
  intros H. apply andb_prop in H as [Hc Hs]. apply negb_true_iff in Hc.
  rewrite prefix_char, Ascii.eqb_sym, Hc. now rewrite (IH Hs).
Qed.

Lemma replace_line_ends a (b : ascii) lines :
  Forall (fun l => free_of a l = true) lines ->
  replace (String a EmptyString) (String b EmptyString) (ended_by a lines)
  = ended_by b lines.
Proof.
  unfold replace. induction 1 as [|l lines Hl _ IH]; [reflexivity|].
  cbn [ended_by]. rewrite replace_char_app, (replace_char_free _ _ _ Hl).
  f_equal. cbn [replace_go]. rewrite prefix_char, Ascii.eqb_refl.
  cbn [String.length Nat.sub]. now rewrite IH.
Qed.

Lemma ended_by_comma lines :
  lines <> [] -> ended_by "," lines = Py.join "," lines +:+ ",".
Proof.
  induction lines as [|l lines IH]; [congruence|]. intros _.
  cbn [ended_by Py.join]. destruct lines as [|l' lines].
  - reflexivity.
  - rewrite IH by discriminate. rewrite !append_assoc. reflexivity.
Qed.

Lemma prefix_before_tail c s :
  String.prefix ",]" (String c s) = false ->
  String.prefix ",]" (String c (s +:+ ",]")) = false.
Proof.
  rewrite !prefix_cons. destruct (Ascii.eqb "," c); [|trivial]. cbn [andb].
  destruct s as [|d s]; [reflexivity|].
  now rewrite append_cons, !prefix_cons, !prefix_nil.
Qed.

(** Where [",]"] does not occur in [s], the only [",]"] of [s,]] is the
    last one. *)
Lemma replace_tail s :
  contains ",]" s = false ->
  replace_go ",]" "]" 0 (s +:+ ",]") = s +:+ "]".
Proof.
  induction s as [|c s IH]; [reflexivity|].
  cbn [contains]. intros H. apply orb_false_iff in H as [Hhead Hrest].
  rewrite !append_cons. cbn [replace_go].
  rewrite (prefix_before_tail c s Hhead). now rewrite (IH Hrest).
Qed.

Lemma items_raw_lines lines :
  Forall (fun l => free_of newline l = true) lines ->
  contains ",]" (Py.join "," lines) = false ->
  Gerrit.items_raw (unlines lines) = "[" +:+ Py.join "," lines +:+ "]".
Proof.
  intros Hlines Hfree. unfold Gerrit.items_raw, unlines.
  rewrite (replace_line_ends newline "," lines Hlines).
  destruct lines as [|l lines]; [reflexivity|].
  rewrite ended_by_comma by discriminate.
  unfold replace. rewrite append_cons, append_nil, append_assoc.
  cbn [replace_go]. rewrite prefix_cons.
  change (Ascii.eqb "," "[") with false. cbn [andb].
  change ("," +:+ "]") with ",]". now rewrite (replace_tail _ Hfree).
Qed.

End Replace.

Lemma for_items_selects items : forall reviews,
  Gerrit.for_items items reviews
  = if forallb is_object items
    then Ok (reviews ++ List.filter has_project items)
    else Raise AttributeError.
Proof.
  induction items as [|item items IH]; intros reviews.
  - cbn. now rewrite app_nil_r.
  - destruct item; try reflexivity. cbn [Gerrit.for_items forallb is_object
      List.filter has_project andb].
    destruct (Json.has_key "project" items0); rewrite IH;
      destruct (forallb is_object items); try reflexivity.
    now rewrite <- app_assoc.
Qed.

(** X8. What the decoder is given. When the command has printed one row
    per line, each ended by a newline, and the rows joined by commas do not
    hold the text [",]"], the text that [parse_reviews] hands to
    [json.loads] is the array of the rows: the rows joined by commas,
    in brackets. *)
Theorem parse_reviews_decodes_the_rows :
  forall json_loads lines,
    Forall (fun l => free_of Py.newline l = true) lines ->
    Py.contains ",]" (Py.join "," lines) = false ->
    Gerrit.items_raw (unlines lines) = "[" +:+ Py.join "," lines +:+ "]"
    /\ Gerrit.parse_reviews json_loads (unlines lines)
       = (let* items := json_loads ("[" +:+ Py.join "," lines +:+ "]") in
          let* items := Json.iter items in
          Gerrit.for_items items []).
Proof.
  intros json_loads lines Hlines Hfree.
  pose proof (items_raw_lines lines Hlines Hfree) as H.
  split; [exact H|]. unfold Gerrit.parse_reviews. now rewrite H.
Qed.

Lemma parse_reviews_decodes_the_rows_witness :
  Gerrit.items_raw (unlines ["{review}"; "{stats}"]) = "[{review},{stats}]"
  /\ Gerrit.parse_reviews example_loads (unlines ["{review}"; "{stats}"])
     = Ok [Json.Object [("project", Json.Str "perceval"); ("number", Json.Int 7)]].
Proof.
  destruct (parse_reviews_decodes_the_rows example_loads ["{review}"; "{stats}"])
    as [H1 H2].
  - repeat constructor.
  - reflexivity.
  - split; [exact H1|]. rewrite H2. reflexivity.
Defined.

(** X9. What the decoder of reviews keeps. When [json.loads] returns an
    array, [parse_reviews] returns the objects of the array that have a
    ['project'] key, in the order of the array, and nothing else: the row
    of statistics that ends the output of a query is dropped. It raises an
    [AttributeError] when the array holds a value that is not an object,
    and the exception of [json.loads] when the text is not JSON. *)
Theorem parse_reviews_keeps_projects :
  forall json_loads raw_data,
    (forall items,
       json_loads (Gerrit.items_raw raw_data) = Ok (Json.Array items) ->
       (forallb is_object items = true ->
        Gerrit.parse_reviews json_loads raw_data
        = Ok (List.filter has_project items))
       /\ (forallb is_object items = false ->
           Gerrit.parse_reviews json_loads raw_data = Raise AttributeError))
    /\ (forall e,
          json_loads (Gerrit.items_raw raw_data) = Raise e ->
          Gerrit.parse_reviews json_loads raw_data = Raise e).
Proof.
  intros json_loads raw_data. split.
  - intros items Hloads. unfold Gerrit.parse_reviews. rewrite Hloads.
    cbn [bind Json.iter]. rewrite for_items_selects.
    split; intros ->; reflexivity.
  - intros e Hloads. unfold Gerrit.parse_reviews. now rewrite Hloads.
Qed.

Lemma parse_reviews_keeps_projects_witness :
  Gerrit.parse_reviews example_loads (unlines ["{review}"; "{stats}"])
  = Ok [Json.Object [("project", Json.Str "perceval"); ("number", Json.Int 7)]]
  /\ Gerrit.parse_reviews example_loads "no json" = Raise (Exception "JSONDecodeError").
Proof.
  split.
  - apply (proj1 (parse_reviews_keeps_projects example_loads
                    (unlines ["{review}"; "{stats}"]))
             [Json.Object [("project", Json.Str "perceval"); ("number", Json.Int 7)];
              Json.Object [("type", Json.Str "stats"); ("rowCount", Json.Int 1)]]);
      reflexivity.
  - apply (proj2 (parse_reviews_keeps_projects example_loads "no json")).
    reflexivity.
Defined.

(** The hypothesis on the rows is needed: the second replacement also
    rewrites a [",]"] inside a row. *)
Example items_raw_alters_a_row :
  Gerrit.items_raw (unlines ["{a,]b}"]) = "[{a]b}]".
Proof. reflexivity. Qed.

(** ** The version of the server *)

Section VersionRegex.

Import GerritClient.

Lemma strip_spec p : forall s r, strip p s = Some r <-> s = p +:+ r.
Proof.
  induction p as [|a p IH]; intros s r; cbn [strip].
  - rewrite append_nil. split; congruence.
  - destruct s as [|c s].
    + split; [discriminate|]. rewrite append_cons. discriminate.
    + rewrite append_cons. destruct (Ascii.eqb a c) eqn:E.
      * apply Ascii.eqb_eq in E. subst c. rewrite IH. split; congruence.
      * apply Ascii.eqb_neq in E. split; [discriminate|]. congruence.
Qed.

Lemma digits_spec s : forall d rest,
  digits s = (d, rest) ->
  s = d +:+ rest /\ all_digits d = true /\ head_is_digit rest = false.
Proof.
  induction s as [|c s IH]; intros d rest; cbn [digits].
  - intros H. injection H as <- <-. repeat split.
  - destruct (isdigit c) eqn:Hc.
    + destruct (digits s) as [d' rest'] eqn:E. intros H. injection H as <- <-.
      destruct (IH d' rest' eq_refl) as (-> & Hd & Hr).
      cbn [all_digits]. rewrite Hc, Hd. repeat split. exact Hr.
    + intros H. injection H as <- <-. cbn [head_is_digit]. repeat split.
      exact Hc.
Qed.

Lemma digits_app d : forall rest,
  all_digits d = true -> head_is_digit rest = false ->
  digits (d +:+ rest) = (d, rest).
Proof.
  induction d as [|c d IH]; intros rest Hd Hr.
  - rewrite append_nil. destruct rest as [|c rest]; [reflexivity|].
    cbn [digits]. cbn [head_is_digit] in Hr. now rewrite Hr.
  - cbn [all_digits] in Hd. apply andb_prop in Hd as [Hc Hd].
    rewrite append_cons. cbn [digits]. now rewrite Hc, (IH rest Hd Hr).
Qed.

(** A text of the shape of a version line matches. *)
Lemma match_version_of_shape g1 g2 rest :
  g1 <> EmptyString -> all_digits g1 = true ->
  g2 <> EmptyString -> all_digits g2 = true ->
  head_is_digit rest = false ->
  match_VERSION_REGEX ("gerrit version " +:+ g1 +:+ "." +:+ g2 +:+ rest)
  = Some (g1, g2).
Proof.
  intros Hn1 Hd1 Hn2 Hd2 Hrest. unfold match_VERSION_REGEX.
  assert (strip "gerrit version "
            ("gerrit version " +:+ g1 +:+ "." +:+ g2 +:+ rest)
          = Some (g1 +:+ "." +:+ g2 +:+ rest)) as -> by now apply strip_spec.
  rewrite (digits_app g1 ("." +:+ g2 +:+ rest) Hd1) by reflexivity.
  destruct g1 as [|c1 g1]; [congruence|].
  rewrite append_cons, append_nil.
  rewrite (digits_app g2 rest Hd2 Hrest).
  destruct g2 as [|c2 g2]; [congruence|]. reflexivity.
Qed.

End VersionRegex.

(** X10. The version line. [VERSION_REGEX] matches a text exactly when the
    text starts with ["gerrit version "], a numeral, a dot and a second
    numeral; the two groups are then the two numerals, each taken whole:
    what follows the second group does not start with a digit. Anything
    may follow, so the line of a release candidate or of a build from
    source matches as well. *)
Theorem version_regex_matches :
  forall s g1 g2,
    GerritClient.match_VERSION_REGEX s = Some (g1, g2)
    <-> exists rest,
          s = "gerrit version " +:+ g1 +:+ "." +:+ g2 +:+ rest
          /\ g1 <> EmptyString /\ all_digits g1 = true
          /\ g2 <> EmptyString /\ all_digits g2 = true
          /\ head_is_digit rest = false.
Proof.
  intros s g1 g2. split.
  - unfold GerritClient.match_VERSION_REGEX.
    destruct (GerritClient.strip "gerrit version " s) as [s1|] eqn:Hs;
      [|discriminate].
    apply strip_spec in Hs. subst s.
    destruct (GerritClient.digits s1) as [d1 s2] eqn:E1.
    apply digits_spec in E1 as (-> & Hd1 & _).
    destruct d1 as [|c1 d1]; [discriminate|].
    destruct s2 as [|dot s3]; [discriminate|].
    destruct (Ascii.eqb dot ".") eqn:Hdot;
      [apply Ascii.eqb_eq in Hdot; subst dot
      |apply Ascii.eqb_neq in Hdot;
       destruct dot as [[] [] [] [] [] [] [] []]; try discriminate;
       congruence].
    destruct (GerritClient.digits s3) as [d2 rest] eqn:E2.
    apply digits_spec in E2 as (-> & Hd2 & Hrest).
    destruct d2 as [|c2 d2]; [discriminate|].
    intros H. injection H as <- <-. exists rest.
    repeat split; try assumption; discriminate.
  - intros (rest & -> & Hn1 & Hd1 & Hn2 & Hd2 & Hrest).
    now apply match_version_of_shape.
Qed.

(** X11. Reading the version. With nothing cached, when the version
    command prints a line that matches and [int] reads the two numerals,
    the property returns their values and caches them. Once a read has
    returned a pair, every later read returns the same pair and leaves the
    world as it is: the command is run once, whatever the server answers
    afterwards. When the line does not match, the read raises the
    [BackendError] that quotes the line, and nothing is cached. *)
Theorem version_is_read_once :
  forall int c (cache : option (Z * Z)) (w : World),
    let r := GerritClient.version' int c (cache, w) in
    (forall v, r.1 = Ok v -> GerritClient.version' int c r.2 = (Ok v, r.2))
    /\ (forall g1 g2 rest mayor minor w',
          cache = None ->
          GerritClient.__execute c (GerritClient.gerrit_cmd c +:+ " version ") w
          = (Ok ("gerrit version " +:+ g1 +:+ "." +:+ g2 +:+ rest), w') ->
          g1 <> EmptyString -> all_digits g1 = true ->
          g2 <> EmptyString -> all_digits g2 = true ->
          head_is_digit rest = false ->
          int g1 = Ok mayor -> int g2 = Ok minor ->
          r = (Ok (mayor, minor), (Some (mayor, minor), w')))
    /\ (forall raw_data w',
          cache = None ->
          GerritClient.__execute c (GerritClient.gerrit_cmd c +:+ " version ") w
          = (Ok raw_data, w') ->
          GerritClient.match_VERSION_REGEX raw_data = None ->
          r = (Raise (BackendError ("Invalid gerrit version " +:+ raw_data)),
               (None, w'))).
Proof.
  intros int c cache w r. subst r. unfold GerritClient.version'.
  change (GerritClient.gerrit_cmd c +:+ " " +:+ GerritClient.CMD_VERSION +:+ " ")
    with (GerritClient.gerrit_cmd c +:+ " version ").
  split; [|split].
  - intros v. destruct cache as [v'|]; [intros H; injection H as ->; reflexivity|].
    destruct (GerritClient.__execute c _ w) as [[raw|e] w1]; [|discriminate].
    destruct (GerritClient.match_VERSION_REGEX raw) as [[g1 g2]|];
      [|discriminate].
    destruct (let* mayor := int g1 in _) as [v'|e]; [|discriminate].
    cbn [fst snd]. intros H. injection H as ->. reflexivity.
  - intros g1 g2 rest mayor minor w' -> Hrun Hn1 Hd1 Hn2 Hd2 Hrest H1 H2.
    rewrite Hrun.
    assert (GerritClient.match_VERSION_REGEX
              ("gerrit version " +:+ g1 +:+ "." +:+ g2 +:+ rest)
            = Some (g1, g2)) as ->.
    { now apply match_version_of_shape. }
    rewrite H1. cbn [bind]. rewrite H2. reflexivity.
  - intros raw_data w' -> Hrun Hno. now rewrite Hrun, Hno.
Qed.

Lemma version_is_read_once_witness :
  GerritClient.version' example_int (example_client (0, 0) "alice")
    (None, version_world)
  = (Ok (2, 10),
     (Some (2, 10),
      (GerritClient.__execute (example_client (0, 0) "alice") example_cmd
         version_world).2))
  /\ GerritClient.version' example_int (example_client (0, 0) "alice")
       (GerritClient.version' example_int (example_client (0, 0) "alice")
          (None, version_world)).2
     = (Ok (2, 10),
        (GerritClient.version' example_int (example_client (0, 0) "alice")
           (None, version_world)).2)
  /\ GerritClient.version' example_int (example_client (0, 0) "alice")
       (None, flaky_world)
     = (Raise (BackendError "Invalid gerrit version ok"),
        (None,
         (GerritClient.__execute (example_client (0, 0) "alice") example_cmd
            flaky_world).2)).
Proof.
  split; [|split].
  - apply (proj1 (proj2 (version_is_read_once example_int
                           (example_client (0, 0) "alice") None version_world))
             "2" "10" "-rc1-988-g333a9dd" 2 10); try reflexivity; discriminate.
  - apply (proj1 (version_is_read_once example_int
                    (example_client (0, 0) "alice") None version_world)).
    reflexivity.
  - apply (proj2 (proj2 (version_is_read_once example_int
                           (example_client (0, 0) "alice") None flaky_world))
             "ok"); reflexivity.
Defined.

(** ** The walk of the events of a group *)

Section EventsWalk.

Import MeetupClient.

Variable server : Api.query -> result Api.response.
Variable strptime : string -> result Z.
Variable c : client.
Variable group : string.
Variable from_date : Z.

(** The date and the details of an entry, as the server has them. *)
Variable date : Api.event_date -> Z.
Variable details : Api.event_date -> Api.event.

Abbreviation entry_known := (known server strptime from_date date details).

Lemma for_edges_exactly edges : forall w after l,
  wait_passes c w ->
  Forall entry_known edges ->
  (forall w', wait_passes c w' -> yields_exactly c (after w') l) ->
  yields_exactly c
    (for_edges (stable server) strptime c from_date edges w after)
    (expanded date details from_date edges ++ l).
Proof.
  induction edges as [|node edges IH]; intros w after l Hw Hknown Hafter;
    cbn [for_edges].
  - now apply Hafter.
  - inversion Hknown as [|? ? [Hdate Hdetails] Hrest]; subst.
    rewrite Hdate. unfold expanded. cbn [List.filter].
    destruct (date node >? from_date) eqn:Hnew.
    + unfold event, bindM.
      destruct (fetch_passes (stable server) c (Api.QEvent (Api.node_id node))
                  w Hw) as (w1 & -> & _ & Hw1).
      unfold stable at 1. rewrite Hdetails by lia. cbn [ret map app].
      constructor; [exact Hw1|]. intros w' Hw'. now apply IH.
    + now apply IH.
Qed.

Lemma events_loop_last_type pages : forall cursor fuel w,
  events_chain server group (max_items c) VFUTURE_EVENTS cursor pages ->
  wait_passes c w ->
  Forall entry_known (entries pages) ->
  (length pages <= fuel)%nat ->
  yields_exactly c
    (events_loop (stable server) strptime c fuel group from_date 1
       VFUTURE_EVENTS cursor w)
    (expanded date details from_date (entries pages)).
Proof.
  induction pages as [|page pages IH]; intros cursor fuel w Hchain Hw Hknown Hfuel;
    [inversion Hchain|].
  destruct fuel as [|fuel]; [cbn in Hfuel; lia|]. cbn [events_loop].
  destruct (fetch_passes (stable server) c
              (Api.QGroupEvents group VFUTURE_EVENTS (max_items c) (quote cursor))
              w Hw) as (w1 & -> & _ & Hw1).
  unfold stable at 1. unfold entries in *. cbn [map concat] in *.
  apply Forall_app in Hknown as [Hpage Hrest].
  unfold expanded. rewrite List.filter_app, map_app.
  inversion Hchain as [? ? Hanswer Hlast|? ? ? Hanswer Hnext Hmore]; subst;
    rewrite Hanswer.
  - cbn [concat map List.filter]. apply for_edges_exactly; [assumption..|].
    intros w' Hw'. rewrite Hlast. cbn. constructor.
  - apply for_edges_exactly; [assumption..|].
    intros w' Hw'. rewrite Hnext. apply IH; try assumption. cbn in Hfuel. lia.
Qed.

Lemma events_loop_first_type past : forall upcoming cursor fuel w,
  events_chain server group (max_items c) VPAST_EVENTS cursor past ->
  events_chain server group (max_items c) VFUTURE_EVENTS "null" upcoming ->
  wait_passes c w ->
  Forall entry_known (entries past) ->
  Forall entry_known (entries upcoming) ->
  (length past + length upcoming <= fuel)%nat ->
  yields_exactly c
    (events_loop (stable server) strptime c fuel group from_date 0
       VPAST_EVENTS cursor w)
    (expanded date details from_date (entries past)
     ++ expanded date details from_date (entries upcoming)).
Proof.
  induction past as [|page past IH];
    intros upcoming cursor fuel w Hpast Hupcoming Hw Hk1 Hk2 Hfuel;
    [inversion Hpast|].
  destruct fuel as [|fuel]; [cbn in Hfuel; lia|]. cbn [events_loop].
  destruct (fetch_passes (stable server) c
              (Api.QGroupEvents group VPAST_EVENTS (max_items c) (quote cursor))
              w Hw) as (w1 & -> & _ & Hw1).
  unfold stable at 1. unfold entries in Hk1 |- *. cbn [map concat] in Hk1 |- *.
  apply Forall_app in Hk1 as [Hpage Hrest].
  unfold expanded at 1. rewrite List.filter_app, map_app, <- app_assoc.
  inversion Hpast as [? ? Hanswer Hlast|? ? ? Hanswer Hnext Hmore]; subst;
    rewrite Hanswer.
  - cbn [concat map List.filter app]. apply for_edges_exactly; [assumption..|].
    intros w' Hw'. rewrite Hlast. cbn [length VEVENT_TYPES Nat.sub Nat.ltb Nat.leb nth].
    apply events_loop_last_type; try assumption. cbn in Hfuel. lia.
  - apply for_edges_exactly; [assumption..|].
    intros w' Hw'. rewrite Hnext.
    apply (IH upcoming); try assumption. cbn in Hfuel. lia.
Qed.

Lemma drain_exactly {A} (g : gen A) l :
  yields_exactly c g l -> yielded (drain g) = l /\ mended (drain g) = Completed.
Proof.
  induction 1 as [w|a w resume l Hw _ IH]; cbn [drain]; [now split|].
  destruct (IH w Hw) as [Hy He]. cbn. now rewrite Hy.
Qed.

End EventsWalk.

(** X12. The walk of the events is complete. When the server answers a
    query in the same way whenever asked, sends the listing of the past
    events as a chain of pages and then the listing of the upcoming events
    as a chain of pages, and every entry has a date that [strptime] reads,
    the walk yields the details of exactly the entries dated after
    [from_date]: those of the past events first, then those of the upcoming
    events, each in the order of the listing. It does so whatever its
    consumer does between two events, and it completes. *)
Theorem events_walk_is_complete :
  forall server strptime c group from_date date details past upcoming fuel w,
    wait_passes c w ->
    events_chain server group (MeetupClient.max_items c)
      MeetupClient.VPAST_EVENTS "null" past ->
    events_chain server group (MeetupClient.max_items c)
      MeetupClient.VFUTURE_EVENTS "null" upcoming ->
    Forall (known server strptime from_date date details)
      (entries past ++ entries upcoming) ->
    (length past + length upcoming <= fuel)%nat ->
    let events :=
      MeetupClient.events (stable server) strptime c fuel group from_date w in
    yields_exactly c events
      (expanded date details from_date (entries past ++ entries upcoming))
    /\ yielded (drain events)
       = expanded date details from_date (entries past ++ entries upcoming)
    /\ mended (drain events) = Completed.
Proof.
  intros server strptime c group from_date date details past upcoming fuel w
    Hw Hpast Hupcoming Hknown Hfuel events.
  assert (yields_exactly c events
            (expanded date details from_date (entries past ++ entries upcoming)))
    as Hexact.
  { subst events. unfold MeetupClient.events.
    unfold expanded. rewrite List.filter_app, map_app.
    apply Forall_app in Hknown as [Hk1 Hk2].
    now apply (events_loop_first_type server strptime c group from_date date
                 details). }
  split; [exact Hexact|]. now apply (drain_exactly c).
Qed.

Lemma events_walk_is_complete_witness :
  yielded
    (drain (MeetupClient.events (stable (example_http 0)) example_strptime
              (example_meetup_client "secret") 2 "perceval" 0 fresh_mworld))
  = [example_details example_entry].
Proof.
  apply (events_walk_is_complete (example_http 0) example_strptime
           (example_meetup_client "secret") "perceval" 0
           (fun _ => 1620145800) example_details
           [example_past_page] [example_upcoming_page] 2%nat fresh_mworld).
  - right. reflexivity.
  - apply events_last; reflexivity.
  - apply events_last; reflexivity.
  - repeat constructor.
  - cbn. lia.
Defined.

(** ** What the walks do to the world *)

Section MeetupWorld.

Import MeetupClient.

Variable http : nat -> Api.query -> result Api.response.
Variable c : client.

(** A property of the world that every request keeps. *)
Variable Inv : MWorld -> Prop.
Hypothesis fetch_keeps : forall q w, Inv w -> Inv (_fetch http c q w).2.

Lemma comments_loop_final fuel event_id : forall ncomments w,
  Inv w -> Inv (mfinal (comments_loop http c fuel event_id ncomments w)).
Proof.
  induction fuel as [|fuel IH]; intros ncomments w Hw; cbn [comments_loop];
    [exact Hw|].
  pose proof (fetch_keeps (Api.QComments event_id ncomments (max_items c)) w Hw)
    as H.
  destruct (_fetch http c _ w) as [[r|e] w1]; cbn [snd] in H; [|exact H].
  destruct r; try exact H. cbn [mfinal myield].
  destruct (_ >=? _); [exact H | now apply IH].
Qed.

Lemma rsvps_loop_final fuel event_id : forall cursor w,
  Inv w -> Inv (mfinal (rsvps_loop http c fuel event_id cursor w)).
Proof.
  induction fuel as [|fuel IH]; intros cursor w Hw; cbn [rsvps_loop];
    [exact Hw|].
  pose proof (fetch_keeps (Api.QTickets event_id (max_items c) (quote cursor))
                w Hw) as H.
  destruct (_fetch http c _ w) as [[r|e] w1]; cbn [snd] in H; [|exact H].
  destruct r; try exact H. cbn [mfinal myield].
  destruct (Api.tickets_hasNextPage n); [now apply IH | exact H].
Qed.

End MeetupWorld.

Lemma fetch_nreads http c q w :
  nreads (MeetupClient._fetch http c q w).2 = nreads w.
Proof.
  unfold MeetupClient._fetch, bindM.
  destruct (MeetupClient.from_archive c); [reflexivity|].
  unfold MeetupClient.sleep_for_rate_limit.
  destruct (rate_limit w) as [remaining|]; [|reflexivity].
  destruct (_ <=? _); [|reflexivity].
  destruct (MeetupClient.calculate_time_to_reset w); [|reflexivity].
  now destruct (MeetupClient.sleep_for_rate c).
Qed.

Lemma fetch_still_passes http c q w :
  wait_passes c w -> wait_passes c (MeetupClient._fetch http c q w).2.
Proof.
  intros Hw. destruct (fetch_passes http c q w Hw) as (w' & -> & _ & Hw').
  exact Hw'.
Qed.

Lemma read_still_passes c w :
  wait_passes c w -> wait_passes c (MeetupClient.read w).
Proof.
  intros [H|H]; [now left|right].
  now rewrite (sleep_for_rate_limit_ext c w (MeetupClient.read w)).
Qed.

(** ** The clock and the items *)

Section Stamps.

Import MeetupClient.

Variable http : nat -> Api.query -> result Api.response.
Variable strptime : string -> result Z.
Variable clock : nat -> Z.
Variable c : client.

Lemma for_edges_reads_kept from_date edges : forall w after,
  (forall w', reads_kept (nreads w') (after w')) ->
  reads_kept (nreads w) (for_edges http strptime c from_date edges w after).
Proof.
  induction edges as [|node edges IH]; intros w after Hafter; cbn [for_edges];
    [apply Hafter|].
  destruct (strptime _); [|now constructor].
  destruct (_ >? _); [|now apply IH].
  unfold event, bindM.
  pose proof (fetch_nreads http c (Api.QEvent (Api.node_id node)) w) as H.
  destruct (_fetch http c _ w) as [[r|e] w1]; cbn [snd] in H;
    [|now constructor].
  destruct r; cbn; try now constructor.
  constructor; [exact H|]. intros w'. now apply IH.
Qed.

Lemma events_loop_reads_kept fuel group from_date :
  forall event_idx event_type cursor w,
    reads_kept (nreads w)
      (events_loop http strptime c fuel group from_date event_idx event_type
         cursor w).
Proof.
  induction fuel as [|fuel IH]; intros event_idx event_type cursor w;
    cbn [events_loop]; [now constructor|].
  pose proof (fetch_nreads http c
                (Api.QGroupEvents group event_type (max_items c) (quote cursor))
                w) as H.
  destruct (_fetch http c _ w) as [[r|e] w1]; cbn [snd] in H;
    [|now constructor].
  destruct r as [[page|]| | |]; try now constructor.
  rewrite <- H. apply for_edges_reads_kept. intros w'.
  destruct (Api.events_hasNextPage page); [apply IH|].
  destruct (_ <? _)%nat; [apply IH | now constructor].
Qed.

(** The [k]-th item carries the [k]-th reading of the clock, and the run
    has taken one reading for each item. *)
Lemma for_events_readings fuel (events : gen Api.event) : forall n,
  reads_kept n events ->
  let r := Meetup.for_events http clock c fuel events in
  (forall k item,
     nth_error (yielded r) k = Some item ->
     Api.fetched_on item = Some (clock (n + k)))
  /\ nreads (mfinal r) = (n + length (yielded r))%nat.
Proof.
  induction events as [e w|event w resume IH]; intros n Hkept;
    inversion Hkept as [? ? Hn|? ? ? Hn Hresume]; subst; cbn [Meetup.for_events].
  - split; [intros [|k] item H; discriminate H | cbn; lia].
  - unfold Meetup.__fetch_and_parse_comments, Meetup.__fetch_and_parse_rsvps,
      Meetup.parse, comments, rsvps.
    pose proof (comments_loop_final http c (fun w' => nreads w' = nreads w)
                  (fun q w' Hw' => eq_trans (fetch_nreads http c q w') Hw')
                  fuel (Api.id event) 0 w eq_refl) as H1.
    cbv beta in H1.
    set (w1 := mfinal (comments_loop http c fuel (Api.id event) 0 w)) in *.
    destruct (mended (comments_loop http c fuel (Api.id event) 0 w));
      try (split; [intros [|k] item H; cbn in H; discriminate H
                  | cbn [mfinal mstop yielded length]; lia]).
    pose proof (rsvps_loop_final http c (fun w' => nreads w' = nreads w)
                  (fun q w' Hw' => eq_trans (fetch_nreads http c q w') Hw')
                  fuel (Api.id event) "null" w1 H1) as H2.
    cbv beta in H2.
    set (w2 := mfinal (rsvps_loop http c fuel (Api.id event) "null" w1)) in *.
    destruct (mended (rsvps_loop http c fuel (Api.id event) "null" w1));
      try (split; [intros [|k] item H; cbn in H; discriminate H
                  | cbn [mfinal mstop yielded length]; lia]).
    cbn [Meetup.datetime_utcnow yielded mfinal myield].
    destruct (IH (read w2) (nreads (read w2)) (Hresume (read w2))) as [Hk Hfinal].
    cbn [nreads read] in Hk, Hfinal. rewrite H2 in Hk, Hfinal.
    split.
    + intros [|k] item H.
      * injection H as <-. cbn. now rewrite H2, Nat.add_0_r.
      * cbn [nth_error] in H. rewrite (Hk k item H). do 2 f_equal. lia.
    + rewrite Hfinal. cbn [length]. lia.
Qed.

End Stamps.

Lemma readings_sorted (clock : nat -> Z) items : forall n,
  (forall i j, (i <= j)%nat -> clock i <= clock j) ->
  (forall k item,
     nth_error items k = Some item ->
     Api.fetched_on item = Some (clock (n + k)%nat)) ->
  stamps_sorted items.
Proof.
  induction items as [|item items IH]; intros n Hclock Hk; [exact I|].
  cbn [stamps_sorted]. split.
  - apply List.Forall_forall. intros later Hin.
    apply In_nth_error in Hin as [k Hlater].
    exists (clock (n + 0)%nat), (clock (n + S k)%nat). split; [|split].
    + now apply (Hk 0%nat).
    + now apply (Hk (S k)).
    + apply Hclock. lia.
  - apply (IH (S n)); [exact Hclock|]. intros k later H.
    rewrite (Hk (S k) later H). do 2 f_equal. lia.
Qed.

(** X13. The clock and the items. However a fetch of events goes, it
    reads the clock exactly once for each item that it yields, after the
    comments and the rsvps of the item have been fetched: the [k]-th item
    carries the [k]-th reading as its ['fetched_on']. Hence, when the clock
    does not go back, the items come out in the order of their update
    times. *)
Theorem items_carry_successive_readings :
  forall http strptime clock c fuel group from_date w,
    let r := Meetup.fetch_items http strptime clock c fuel group from_date w in
    (forall k item,
       nth_error (yielded r) k = Some item ->
       Api.fetched_on item = Some (clock (nreads w + k)%nat))
    /\ nreads (mfinal r) = (nreads w + length (yielded r))%nat
    /\ ((forall i j, (i <= j)%nat -> clock i <= clock j) ->
        stamps_sorted (yielded r)).
Proof.
  intros http strptime clock c fuel group from_date w r.
  destruct (for_events_readings http clock c fuel
              (MeetupClient.events http strptime c fuel group from_date w)
              (nreads w)) as [Hk Hfinal].
  { apply events_loop_reads_kept. }
  split; [exact Hk|]. split; [exact Hfinal|].
  intros Hclock. now apply (readings_sorted clock _ (nreads w)).
Qed.

Lemma items_carry_successive_readings_witness :
  stamps_sorted
    (yielded (Meetup.fetch_items example_http example_strptime first_clock
                (example_meetup_client "secret") 3 "perceval" 0 fresh_mworld)).
Proof.
  apply (items_carry_successive_readings example_http example_strptime
           first_clock (example_meetup_client "secret") 3%nat "perceval" 0
           fresh_mworld).
  intros i j Hij. unfold first_clock. lia.
Defined.

(** ** A complete fetch of events *)

Section MeetupComplete.

Import MeetupClient.

Variable server : Api.query -> result Api.response.
Variable clock : nat -> Z.
Variable c : client.
Variables comments_of rsvps_of : Api.event -> list string.

Hypothesis max_items_positive : 0 < max_items c.

Lemma ticket_chain_stable event_id first n cursor pages :
  ticket_chain (stable server) event_id first n cursor pages ->
  forall m, ticket_chain (stable server) event_id first m cursor pages.
Proof.
  induction 1 as [n cursor page Hpage Hlast
                 |n cursor page pages Hpage Hnext _ IH]; intros m.
  - now apply chain_last.
  - apply chain_next; [exact Hpage | exact Hnext | apply IH].
Qed.

Lemma ticket_chain_length event_id first n cursor pages :
  ticket_chain (stable server) event_id first n cursor pages ->
  (1 <= length pages)%nat.
Proof. destruct 1; cbn; lia. Qed.

(** The consumer of the events completes each of them. *)
Lemma for_events_complete fuel (events : gen Api.event) l :
  yields_exactly c events l ->
  Forall (subresources_known server c fuel comments_of rsvps_of) l ->
  mended (Meetup.for_events (stable server) clock c fuel events) = Completed
  /\ Forall2 (fun event item =>
                exists t, item = Meetup.with_details event (comments_of event)
                                   (rsvps_of event) t)
       l (yielded (Meetup.for_events (stable server) clock c fuel events)).
Proof.
  induction 1 as [w|event w resume l Hw _ IH]; intros Hknown;
    cbn [Meetup.for_events]; [split; [reflexivity|constructor]|].
  inversion Hknown
    as [|? ? (Hserve & Hsize & pages & Hchain & Hlen & Hcat) Hrest]; subst.
  pose proof (ticket_chain_length _ _ _ _ _ Hchain) as Hone.
  unfold Meetup.__fetch_and_parse_comments, Meetup.__fetch_and_parse_rsvps,
    Meetup.parse, comments, rsvps.
  destruct (comments_loop_complete (stable server) c (Api.id event)
              (comments_of event) Hserve max_items_positive fuel 0 w)
    as (Hend & Hall & _); try (assumption || lia).
  change (Z.to_nat 0) with 0%nat in Hall. rewrite drop_0 in Hall.
  rewrite Hend, Hall.
  pose proof (comments_loop_final (stable server) c (wait_passes c)
                (fetch_still_passes (stable server) c)
                fuel (Api.id event) 0 w Hw) as Hw1.
  set (w1 := mfinal (comments_loop (stable server) c fuel (Api.id event) 0 w))
    in *.
  destruct (rsvps_loop_chain (stable server) c (Api.id event) (nreq w1) "null"
              pages (ticket_chain_stable _ _ _ _ _ Hchain (nreq w1)) fuel w1)
    as (Hend2 & Hall2); try (assumption || reflexivity).
  rewrite Hend2, Hall2, Hcat.
  pose proof (rsvps_loop_final (stable server) c (wait_passes c)
                (fetch_still_passes (stable server) c)
                fuel (Api.id event) "null" w1 Hw1) as Hw2.
  set (w2 := mfinal (rsvps_loop (stable server) c fuel (Api.id event) "null" w1))
    in *.
  cbn [Meetup.datetime_utcnow mended yielded myield].
  destruct (IH (read w2) (read_still_passes c w2 Hw2) Hrest) as [Hdone Hitems].
  split; [exact Hdone|]. constructor; [eauto | exact Hitems].
Qed.

End MeetupComplete.

(** X14. A fetch of events is complete. When the server answers a query
    in the same way whenever asked, lists the past and the upcoming events
    as chains of pages, and holds for each event dated after [from_date]
    its details, its comments and a chain of pages of rsvps, a fetch with
    a page size of at least 1 completes, and it yields one item for each
    of these events, in the order of the listing: the details of the
    event, with all its comments, all its rsvps and a fetch time. *)
Theorem meetup_fetch_is_complete :
  forall server strptime clock c group from_date date details
         comments_of rsvps_of past upcoming fuel w,
    0 < MeetupClient.max_items c ->
    wait_passes c w ->
    events_chain server group (MeetupClient.max_items c)
      MeetupClient.VPAST_EVENTS "null" past ->
    events_chain server group (MeetupClient.max_items c)
      MeetupClient.VFUTURE_EVENTS "null" upcoming ->
    Forall (known server strptime from_date date details)
      (entries past ++ entries upcoming) ->
    Forall (subresources_known server c fuel comments_of rsvps_of)
      (expanded date details from_date (entries past ++ entries upcoming)) ->
    (length past + length upcoming <= fuel)%nat ->
    let r :=
      Meetup.fetch_items (stable server) strptime clock c fuel group from_date w in
    mended r = Completed
    /\ Forall2 (fun event item =>
                  exists t, item = Meetup.with_details event (comments_of event)
                                     (rsvps_of event) t)
         (expanded date details from_date (entries past ++ entries upcoming))
         (yielded r).
Proof.
  intros server strptime clock c group from_date date details
    comments_of rsvps_of past upcoming fuel w
    Hmax Hw Hpast Hupcoming Hknown Hsub Hfuel r.
  subst r. unfold Meetup.fetch_items.
  apply (for_events_complete server clock c comments_of rsvps_of Hmax);
    [|exact Hsub].
  unfold MeetupClient.events.
  unfold expanded. rewrite List.filter_app, map_app.
  apply Forall_app in Hknown as [Hk1 Hk2].
  now apply (events_loop_first_type server strptime c group from_date date
               details).
Qed.

Lemma meetup_fetch_is_complete_witness :
  Forall2 (fun event item =>
             exists t, item = Meetup.with_details event example_comments
                                ["t1"; "t2"; "t3"] t)
    [example_details example_entry]
    (yielded (Meetup.fetch_items (stable (example_http 0)) example_strptime
                first_clock (example_meetup_client "secret") 3 "perceval" 0
                fresh_mworld)).
Proof.
  apply (meetup_fetch_is_complete (example_http 0) example_strptime first_clock
           (example_meetup_client "secret") "perceval" 0
           (fun _ => 1620145800) example_details
           (fun _ => example_comments) (fun _ => ["t1"; "t2"; "t3"])
           [example_past_page] [example_upcoming_page] 3%nat fresh_mworld).
  - reflexivity.
  - right. reflexivity.
  - apply events_last; reflexivity.
  - apply events_last; reflexivity.
  - repeat constructor.
  - constructor; [|constructor]. split; [|split].
    + intros n offset limit _ _. reflexivity.
    + cbn. lia.
    + exists [example_tickets_1; example_tickets_2].
      split; [|split; [cbn; lia | reflexivity]].
      apply chain_next; try reflexivity. apply chain_last; reflexivity.
  - cbn. lia.
Defined.

(** ** Errors and edges of the Meetup client *)

(** X15. A group that the server does not know. When the answer to the
    first query of the listing has no ['groupByUrlname'], the fetch raises
    the exception that names the group: it has sent one request and
    yielded nothing. *)
Theorem unknown_group_fails :
  forall http strptime clock c fuel group from_date w,
    wait_passes c w ->
    http (nreq w)
      (Api.QGroupEvents group MeetupClient.VPAST_EVENTS
         (MeetupClient.max_items c) "null")
    = Ok (Api.RGroupEvents None) ->
    let r := Meetup.fetch_items http strptime clock c (S fuel) group from_date w in
    yielded r = []
    /\ mended r = Failed (Exception ("Can't get meetup group: " +:+ group))
    /\ nreq (mfinal r) = S (nreq w).
Proof.
  intros http strptime clock c fuel group from_date w Hw Hanswer r. subst r.
  unfold Meetup.fetch_items, MeetupClient.events.
  cbn [MeetupClient.events_loop nth MeetupClient.VEVENT_TYPES].
  change (MeetupClient.quote "null") with "null".
  destruct (fetch_passes http c
              (Api.QGroupEvents group MeetupClient.VPAST_EVENTS
                 (MeetupClient.max_items c) "null") w Hw)
    as (w1 & -> & Hn & _).
  rewrite Hanswer. cbn. auto.
Qed.

Lemma unknown_group_fails_witness :
  mended (Meetup.fetch_items empty_http example_strptime first_clock
            (example_meetup_client "secret") 1 "nobody" 0 fresh_mworld)
  = Failed (Exception "Can't get meetup group: nobody").
Proof.
  apply (unknown_group_fails empty_http example_strptime first_clock
           (example_meetup_client "secret") 0%nat "nobody" 0 fresh_mworld).
  - right. reflexivity.
  - reflexivity.
Defined.

Lemma comments_loop_unpaged http c event_id :
  MeetupClient.max_items c <= 0 ->
  (forall n offset limit,
     exists node, http n (Api.QComments event_id offset limit)
                  = Ok (Api.RComments node)
                  /\ 0 < Api.count node) ->
  forall fuel ncomments w,
    ncomments <= 0 ->
    wait_passes c w ->
    let r := MeetupClient.comments_loop http c fuel event_id ncomments w in
    mended r = Unfinished
    /\ length (yielded r) = fuel
    /\ nreq (mfinal r) = (nreq w + fuel)%nat.
Proof.
  intros Hmax Hserve.
  induction fuel as [|fuel IH]; intros ncomments w Hn Hw;
    cbn [MeetupClient.comments_loop];
    [repeat split; cbn; lia|].
  destruct (fetch_passes http c
              (Api.QComments event_id ncomments (MeetupClient.max_items c)) w Hw)
    as (w1 & -> & Hreq & Hw1).
  destruct (Hserve (nreq w) ncomments (MeetupClient.max_items c))
    as (node & -> & Hcount).
  rewrite geb_false by lia.
  destruct (IH (ncomments + MeetupClient.max_items c) w1) as (Hend & Hlen & Hfinal);
    [lia | exact Hw1 |].
  cbn [mended yielded mfinal myield length].
  rewrite Hend, Hlen, Hfinal, Hreq. repeat split. lia.
Qed.

(** X16. The walk of the comments needs a positive page size. With
    [max_items] at 0 or below, which nothing in the backend prevents, the
    offset never reaches the count of an event that has a comment: the
    walk sends request after request and never ends, however long it
    runs. *)
Theorem comments_walk_needs_a_page_size :
  forall http c event_id w fuel,
    MeetupClient.max_items c <= 0 ->
    wait_passes c w ->
    (forall n offset limit,
       exists node, http n (Api.QComments event_id offset limit)
                    = Ok (Api.RComments node)
                    /\ 0 < Api.count node) ->
    let r := MeetupClient.comments http c fuel event_id w in
    mended r = Unfinished
    /\ length (yielded r) = fuel
    /\ nreq (mfinal r) = (nreq w + fuel)%nat.
Proof.
  intros http c event_id w fuel Hmax Hw Hserve r. subst r.
  unfold MeetupClient.comments.
  apply (comments_loop_unpaged http c event_id Hmax Hserve fuel 0 w);
    [lia | exact Hw].
Qed.

Lemma comments_walk_needs_a_page_size_witness :
  mended (MeetupClient.comments example_http unpaged_meetup_client 7 "e1"
            fresh_mworld) = Unfinished
  /\ nreq (mfinal (MeetupClient.comments example_http unpaged_meetup_client 7
                     "e1" fresh_mworld)) = 7%nat.
Proof.
  destruct (comments_walk_needs_a_page_size example_http unpaged_meetup_client
              "e1" fresh_mworld 7%nat) as (H1 & _ & H2).
  - cbn. lia.
  - right. reflexivity.
  - intros n offset limit. eexists. split; [reflexivity|]. cbn. lia.
  - split; [exact H1 | exact H2].
Defined.

(** X17. What the sanitizer of a request keeps. [sanitize_for_archive]
    returns the url and the payload as they are, and the headers without
    their ['Authorization'] entry: every other header is kept with its
    value. Sanitizing twice is sanitizing once. Of the two headers that
    [_fetch] sends, the content type is the one that is left. *)
Theorem meetup_sanitize_keeps_the_rest :
  forall url (headers : gmap string string) payload,
    let s := MeetupClient.sanitize_for_archive url headers payload in
    s.1.1 = url
    /\ s.2 = payload
    /\ (forall k, k <> MeetupClient.PKEY_OAUTH2 -> s.1.2 !! k = headers !! k)
    /\ MeetupClient.sanitize_for_archive s.1.1 s.1.2 s.2 = s
    /\ (forall c,
          (MeetupClient.sanitize_for_archive url (MeetupClient.headers c)
             payload).1.2
          = {[ MeetupClient.HCONTENT_TYPE := MeetupClient.VCONTENT_TYPE ]}).
Proof.
  intros url headers payload s. subst s.
  unfold MeetupClient.sanitize_for_archive. cbn [fst snd].
  split; [reflexivity|]. split; [reflexivity|]. split; [|split].
  - intros k Hk. apply lookup_delete_ne. congruence.
  - now rewrite delete_delete_eq.
  - intros c. unfold MeetupClient.headers.
    rewrite delete_insert_ne by discriminate.
    now rewrite delete_insert_eq, delete_empty, insert_empty.
Qed.

(** ** Nothing is lost, nothing is added *)

Section Accounting.

Import Gerrit.

Variable parse_reviews : string -> result (list review).
Variable b : backend.
Variable from_ut : Q.

Hypothesis max_reviews_positive : 1 <= max_reviews b.

Lemma ended_received_all ps r : ended (received_all ps r) = ended r.
Proof. induction ps as [|[g page] ps IH]; [reflexivity | exact IH]. Qed.

Lemma at_watermark_is_not_newer (r : review) :
  Qle_bool (inject_Z (lastUpdated r)) from_ut = true -> ~ newer_than from_ut r.
Proof.
  intros H Hnew. apply Qle_bool_iff in H.
  unfold newer_than, metadata_updated_on in Hnew.
  apply Qlt_not_le in Hnew. contradiction.
Qed.

(** *** The single queue *)

Lemma loop_accounts fuel : forall s w,
  let r := loop parse_reviews b from_ut fuel s w in
  exists leftover,
    reviews s ++ concat (pages_of None r) = emitted r ++ leftover
    /\ (ended r = Completed ->
        Forall (newer_than from_ut) (reviews s ++ concat (pages_of None r)) ->
        leftover = []).
Proof.
  induction fuel as [|fuel IH]; intros s w; cbv zeta; cbn [loop].
  { exists (reviews s). cbn. rewrite app_nil_r. split; [reflexivity|discriminate]. }
  destruct (reviews s) as [|review reviews'] eqn:Hs.
  { exists []. split; [reflexivity|auto]. }
  destruct (Qle_bool _ _) eqn:Hnew.
  { exists (review :: reviews'). cbn. rewrite app_nil_r.
    split; [reflexivity|]. intros _ Hall. inversion Hall; subst.
    now destruct (at_watermark_is_not_newer review Hnew). }
  assert (forall s',
            reviews s' = reviews' ->
            exists leftover,
              (review :: reviews')
              ++ concat (pages_of None
                           (yield review (loop parse_reviews b from_ut fuel s' w)))
              = emitted (yield review (loop parse_reviews b from_ut fuel s' w))
                ++ leftover
              /\ (ended (yield review (loop parse_reviews b from_ut fuel s' w))
                  = Completed ->
                  Forall (newer_than from_ut)
                    ((review :: reviews')
                     ++ concat (pages_of None
                                  (yield review
                                     (loop parse_reviews b from_ut fuel s' w)))) ->
                  leftover = [])) as Hsame.
  { intros s' Hs'. destruct (IH s' w) as (leftover & Heq & Hdone).
    exists leftover. rewrite pages_of_yield. cbn [emitted yield ended app].
    rewrite Hs' in Heq, Hdone. split; [now rewrite Heq|].
    intros Hend Hall. apply Hdone; [exact Hend|]. now inversion Hall. }
  destruct reviews' as [|y reviews']; [|now apply Hsame].
  destruct (_ >=? _); [|now apply Hsame]. clear Hsame.
  destruct (GerritClient.next_retrieve_group_item _ _ _) as [cur|e]; cbn [try].
  - unfold request.
    destruct (_get_reviews _ _ _ _ w) as [[page|e] w1].
    + destruct (IH {| last_item := cur; reviews := page;
                      last_nreviews := len page |} w1)
        as (leftover & Heq & Hdone).
      cbn [reviews] in Heq, Hdone. exists leftover.
      rewrite pages_of_yield, pages_of_received_same.
      cbn [emitted yield received ended concat app]. split.
      * now rewrite Heq.
      * intros Hend Hall. apply Hdone; [exact Hend|]. now inversion Hall.
    + exists []. split; [reflexivity|auto].
  - exists []. split; [reflexivity|auto].
Qed.

(** *** The two queues *)

Lemma pop28_none s :
  pop28 s = None -> reviews_open s = [] /\ reviews_closed s = [].
Proof.
  unfold pop28.
  destruct (reviews_open s), (reviews_closed s); try discriminate; [auto|].
  destruct (_ >=? _); discriminate.
Qed.

Lemma loop28_accounts fuel : forall s w,
  let r := loop28 parse_reviews b from_ut fuel s w in
  exists leftover,
    Permutation (emitted r ++ leftover)
      (stream_of filter_open (reviews_open s) r
       ++ stream_of filter_closed (reviews_closed s) r)
    /\ (ended r = Completed ->
        Forall (newer_than from_ut)
          (stream_of filter_open (reviews_open s) r
           ++ stream_of filter_closed (reviews_closed s) r) ->
        leftover = []).
Proof.
  induction fuel as [|fuel IH]; intros s w; cbv zeta.
  { exists (stream_of filter_open (reviews_open s) (stop Unfinished w)
            ++ stream_of filter_closed (reviews_closed s) (stop Unfinished w)).
    split; [reflexivity|discriminate]. }
  destruct (pop28 s) as [[review s1]|] eqn:Hpop.
  2:{ cbn [loop28]. rewrite Hpop. destruct (pop28_none s Hpop) as [-> ->].
      exists []. split; [reflexivity|auto]. }
  destruct (pop28_cases _ _ _ Hpop) as (_ & _ & Hfrom).
  destruct (Qle_bool (inject_Z (lastUpdated review)) from_ut) eqn:Hnew.
  { cbn [loop28]. rewrite Hpop. cbv zeta. rewrite Hnew.
    exists (stream_of filter_open (reviews_open s) (stop Completed w)
            ++ stream_of filter_closed (reviews_closed s) (stop Completed w)).
    split; [reflexivity|]. intros _ Hall. exfalso.
    apply (at_watermark_is_not_newer review Hnew).
    rewrite List.Forall_forall in Hall. apply Hall.
    unfold stream_of. cbn. rewrite !app_nil_r.
    destruct Hfrom as [(-> & _)|(-> & _)];
      [now left | apply in_or_app; right; now left]. }
  destruct (loop28_step parse_reviews b from_ut max_reviews_positive
              fuel s w review s1 Hpop Hnew)
    as (ps & rest & -> & _ & _ & Hrest).
  rewrite !stream_of_step. cbn [emitted yield ended].
  rewrite emitted_received_all, ended_received_all.
  assert (forall rest,
            Permutation
              (review
               :: stream_of filter_open
                    (reviews_open s1 ++ joined filter_open ps) rest
               ++ stream_of filter_closed
                    (reviews_closed s1 ++ joined filter_closed ps) rest)
              (stream_of filter_open
                 (reviews_open s ++ joined filter_open ps) rest
               ++ stream_of filter_closed
                    (reviews_closed s ++ joined filter_closed ps) rest))
    as Hpopped.
  { intros rest'. destruct Hfrom as [(-> & <- & _)|(-> & <- & _)].
    - reflexivity.
    - unfold stream_of at 4. cbn [app]. apply Permutation_middle. }
  destruct Hrest as [(e & w' & ->)|(s' & w' & -> & Ho' & Hc' & _)].
  - cbn [emitted stop ended app].
    eexists. split; [apply Hpopped|discriminate].
  - destruct (IH s' w') as (leftover & Hperm & Hdone).
    rewrite Ho', Hc' in Hperm, Hdone.
    exists leftover. split.
    + cbn [app]. etrans; [|apply Hpopped].
      now apply Permutation_cons.
    + intros Hend Hall. apply Hdone; [exact Hend|].
      eapply Permutation_Forall in Hall; [|symmetry; apply Hpopped].
      now inversion Hall.
Qed.

End Accounting.

(** X18. Nothing is lost and nothing is added. In the single-queue fetch
    the reviews yielded are a prefix of the reviews received, page after
    page, in the order received. In the dual-queue fetch, with
    [max_reviews] at least 1, the reviews yielded are, up to their order,
    part of the reviews received for the two partitions: none is yielded
    twice, none is made up. In both, when the fetch completes and every
    review received is after the watermark, every review received has been
    yielded. *)
Theorem fetch_accounts_for_every_review :
  forall parse_reviews b from_ut fuel w,
    (let r := Gerrit._fetch_gerrit parse_reviews b from_ut fuel w in
     exists leftover,
       concat (Gerrit.pages_of None r) = Gerrit.emitted r ++ leftover
       /\ (Gerrit.ended r = Completed ->
           Forall (newer_than from_ut) (concat (Gerrit.pages_of None r)) ->
           leftover = []))
    /\ (1 <= Gerrit.max_reviews b ->
        let r := Gerrit._fetch_gerrit28 parse_reviews b from_ut fuel w in
        exists leftover,
          Permutation (Gerrit.emitted r ++ leftover)
            (concat (Gerrit.pages_of Gerrit.filter_open r)
             ++ concat (Gerrit.pages_of Gerrit.filter_closed r))
          /\ (Gerrit.ended r = Completed ->
              Forall (newer_than from_ut)
                (concat (Gerrit.pages_of Gerrit.filter_open r)
                 ++ concat (Gerrit.pages_of Gerrit.filter_closed r)) ->
              leftover = [])).
Proof.
  intros parse_reviews b from_ut fuel w. split.
  - cbv zeta. unfold Gerrit._fetch_gerrit.
    destruct (GerritClient.next_retrieve_group_item _ _ _) as [cur|e];
      cbn [Gerrit.try]; [|exists []; split; [reflexivity|auto]].
    unfold Gerrit.request.
    destruct (Gerrit._get_reviews _ _ _ _ w) as [[page|e] w1];
      [|exists []; split; [reflexivity|auto]].
    rewrite pages_of_received_same. cbn [Gerrit.emitted Gerrit.received
      Gerrit.ended concat].
    apply (loop_accounts parse_reviews b from_ut fuel
             {| Gerrit.last_item := cur; Gerrit.reviews := page;
                Gerrit.last_nreviews := Gerrit.len page |} w1).
  - intros Hmax. cbv zeta. unfold Gerrit._fetch_gerrit28.
    destruct (GerritClient.next_retrieve_group_item _ _ _) as [cur|e];
      cbn [Gerrit.try]; [|exists []; split; [reflexivity|auto]].
    unfold Gerrit.request.
    destruct (Gerrit._get_reviews _ _ _ _ w) as [[po|e] w1];
      [|exists []; split; [reflexivity|auto]].
    destruct (Gerrit._get_reviews _ _ _ _ w1) as [[pc|e] w2].
    + rewrite pages_of_received_same, pages_of_received_other by discriminate.
      rewrite pages_of_received_other, pages_of_received_same by discriminate.
      cbn [Gerrit.emitted Gerrit.received Gerrit.ended concat].
      match goal with
      | |- context [Gerrit.loop28 _ _ _ _ ?s ?w'] =>
          apply (loop28_accounts parse_reviews b from_ut Hmax fuel s w')
      end.
    + exists po. rewrite pages_of_received_same.
      cbn [Gerrit.emitted Gerrit.received Gerrit.stop Gerrit.ended concat
             Gerrit.pages_of Gerrit.fetched List.filter map app].
      rewrite !app_nil_r. split; [reflexivity|discriminate].
Qed.

Lemma fetch_accounts_for_every_review_witness :
  Permutation
    (Gerrit.emitted
       (Gerrit._fetch_gerrit28 scenario_parse scenario_backend 0%Q 9
          scenario_world))
    [example_review 50; example_review 40; example_review 45; example_review 10].
Proof.
  destruct (proj2 (fetch_accounts_for_every_review scenario_parse
                     scenario_backend 0%Q 9%nat scenario_world))
    as (leftover & Hperm & Hdone).
  - cbn. lia.
  - rewrite Hdone in Hperm.
    + rewrite app_nil_r in Hperm. exact Hperm.
    + reflexivity.
    + repeat constructor.
Defined.

(** ** Sanitizing twice *)

Section SanitizeTwice.

Import Re.

Lemma length_append (a b : string) :
  String.length (a +:+ b) = (String.length a + String.length b)%nat.
Proof.
  induction a as [|x a IH]; [reflexivity|].
  rewrite append_cons. cbn [String.length]. now rewrite IH.
Qed.

(** A word in which the pattern has no match keeps none when the rest of
    the text is rewritten. *)
Lemma match_user_sub_go repl s :
  String.get 0 repl = Some " "%char ->
  match_user s = None -> match_user (sub_go repl 0 s) = None.
Proof.
  intros Hrepl. induction s as [|c s IH]; [reflexivity|].
  cbn [match_user sub_go]. destruct (Py.isspace c) eqn:Hsp.
  - intros _. destruct (Ascii.eqb c " ") eqn:Hc.
    + apply Ascii.eqb_eq in Hc. subst c.
      destruct (match_user s) as [n|].
      * destruct repl as [|r repl]; [discriminate|].
        cbn in Hrepl. injection Hrepl as ->.
        rewrite append_cons. reflexivity.
      * reflexivity.
    + cbn [match_user]. now rewrite Hsp.
  - destruct (match_user s) as [n|] eqn:Hs; [discriminate|].
    destruct (Ascii.eqb c "@") eqn:Hat; [discriminate|]. intros _.
    assert (Ascii.eqb c " " = false) as ->.
    { apply Ascii.eqb_neq. intros ->. discriminate. }
    cbn [match_user]. now rewrite Hsp, (IH eq_refl), Hat.
Qed.

Lemma sub_go_twice n : forall s,
  (String.length s <= n)%nat ->
  sub_go " xxxxx@" 0 (sub_go " xxxxx@" 0 s) = sub_go " xxxxx@" 0 s.
Proof.
  induction n as [|n IH]; intros s Hlen.
  { destruct s; [reflexivity | cbn in Hlen; lia]. }
  destruct s as [|c s]; [reflexivity|]. cbn [String.length] in Hlen.
  cbn [sub_go]. destruct (Ascii.eqb c " ") eqn:Hc.
  - apply Ascii.eqb_eq in Hc. subst c.
    destruct (match_user s) as [k|] eqn:Hs.
    + destruct (match_user_longest s k Hs) as (t & rest & -> & Ht & -> & Hrest).
      replace (S (String.length t))
        with (String.length (t +:+ "@") + 0)%nat
        by (rewrite length_append; cbn; lia).
      rewrite <- append_assoc, sub_go_skip.
      change (" xxxxx@" +:+ sub_go " xxxxx@" 0 rest)
        with (String " " ("xxxxx" +:+ "@" +:+ sub_go " xxxxx@" 0 rest)).
      cbn [sub_go]. change (Ascii.eqb " " " ") with true. cbv iota.
      rewrite (match_user_segment "xxxxx" _ eq_refl).
      rewrite (match_user_sub_go " xxxxx@" rest eq_refl Hrest).
      cbn [default String.length Nat.add].
      change ("xxxxx" +:+ "@" +:+ sub_go " xxxxx@" 0 rest)
        with ("xxxxx@" +:+ sub_go " xxxxx@" 0 rest).
      change 6%nat with (String.length "xxxxx@" + 0)%nat.
      rewrite sub_go_skip, IH; [reflexivity|].
      rewrite !length_append in Hlen. cbn in Hlen. lia.
    + cbn [sub_go]. change (Ascii.eqb " " " ") with true. cbv iota.
      rewrite (match_user_sub_go " xxxxx@" s eq_refl Hs).
      rewrite IH by lia. reflexivity.
  - cbn [sub_go]. rewrite Hc. rewrite IH by lia. reflexivity.
Qed.

End SanitizeTwice.

(** X19. Sanitizing is idempotent. A command that has been sanitized is
    left as it is by the sanitizer: the mask that stands for the user
    segment is rewritten to itself. *)
Theorem sanitize_for_archive_is_idempotent :
  forall cmd,
    GerritClient.sanitize_for_archive (GerritClient.sanitize_for_archive cmd)
    = GerritClient.sanitize_for_archive cmd.
Proof.
  intros cmd. unfold GerritClient.sanitize_for_archive, Re.sub_user.
  now apply (sub_go_twice (String.length cmd)).
Qed.

(** ** Recording does not change a fetch *)

Section Transparent.

Import Gerrit.

Variable parse_reviews : string -> result (list review).
Variable b : backend.
Variable from_ut : Q.

Hypothesis remote : GerritClient.from_archive (client b) = false.

Lemma attempts_transparent left : forall retries cmd w1 w2,
  same_but_archive w1 w2 ->
  (GerritClient.attempts left retries cmd w1).1
  = (GerritClient.attempts left retries cmd w2).1
  /\ same_but_archive (GerritClient.attempts left retries cmd w1).2
       (GerritClient.attempts left retries cmd w2).2.
Proof.
  induction left as [|left IH]; intros retries cmd w1 w2 Hsame;
    cbn [GerritClient.attempts]; [now split|].
  destruct Hsame as (Hproc & Hcalls & Hslept).
  unfold check_output. rewrite Hproc, Hcalls.
  destruct (proc w2 (ncalls w2) cmd) as [out|].
  - split; [reflexivity|]. repeat split; cbn; congruence.
  - apply IH. repeat split; cbn; congruence.
Qed.

Lemma get_reviews_transparent last_item filter_ w1 w2 :
  same_but_archive w1 w2 ->
  (_get_reviews parse_reviews b last_item filter_ w1).1
  = (_get_reviews parse_reviews b last_item filter_ w2).1
  /\ same_but_archive (_get_reviews parse_reviews b last_item filter_ w1).2
       (_get_reviews parse_reviews b last_item filter_ w2).2.
Proof.
  intros Hsame. unfold _get_reviews, GerritClient.reviews, bindM, lift.
  destruct (GerritClient._get_gerrit_cmd _ _ _) as [cmd|e]; [|now split].
  unfold GerritClient.__execute. rewrite remote.
  unfold GerritClient.__execute_from_remote.
  destruct (attempts_transparent (Z.to_nat (GerritClient.MAX_RETRIES - 0)) 0
              cmd w1 w2 Hsame) as [Hout Hworld].
  destruct (GerritClient.attempts _ _ cmd w1) as [out1 w1'].
  destruct (GerritClient.attempts _ _ cmd w2) as [out2 w2'].
  cbn [fst snd] in Hout, Hworld. subst out2.
  destruct Hworld as (Hproc & Hcalls & Hslept).
  destruct out1 as [raw|];
    destruct (archive w1'), (archive w2'); cbn;
    (split; [reflexivity | repeat split; assumption]).
Qed.

Lemma stop_same e w1 w2 :
  same_but_archive w1 w2 -> same_run (stop e w1) (stop e w2).
Proof. intros H. repeat split; apply H. Qed.

Lemma yield_same review r1 r2 :
  same_run r1 r2 -> same_run (yield review r1) (yield review r2).
Proof.
  intros (He & Hf & Hd & Hw). repeat split; cbn; try apply Hw; congruence.
Qed.

Lemma try_same {A} (r : result A) w1 w2 k1 k2 :
  same_but_archive w1 w2 ->
  (forall a, same_run (k1 a) (k2 a)) ->
  same_run (try r w1 k1) (try r w2 k2).
Proof. intros Hw Hk. destruct r; cbn; [apply Hk | now apply stop_same]. Qed.

Lemma request_same last_item filter_ w1 w2 k1 k2 :
  same_but_archive w1 w2 ->
  (forall page w1' w2',
     same_but_archive w1' w2' -> same_run (k1 page w1') (k2 page w2')) ->
  same_run (request parse_reviews b last_item filter_ w1 k1)
    (request parse_reviews b last_item filter_ w2 k2).
Proof.
  intros Hw Hk. unfold request.
  destruct (get_reviews_transparent last_item filter_ w1 w2 Hw) as [Hout Hworld].
  destruct (_get_reviews _ _ _ _ w1) as [out1 w1'].
  destruct (_get_reviews _ _ _ _ w2) as [out2 w2'].
  cbn [fst snd] in Hout, Hworld. subst out2.
  destruct out1 as [page|e]; [|now apply stop_same].
  destruct (Hk page w1' w2' Hworld) as (He & Hf & Hd & Hfinal).
  repeat split; cbn; try apply Hfinal; congruence.
Qed.

Lemma refill_open_same s w1 w2 k1 k2 :
  same_but_archive w1 w2 ->
  (forall s' w1' w2',
     same_but_archive w1' w2' -> same_run (k1 s' w1') (k2 s' w2')) ->
  same_run (refill_open parse_reviews b s w1 k1)
    (refill_open parse_reviews b s w2 k2).
Proof.
  intros Hw Hk. unfold refill_open.
  destruct (reviews_open s); [|now apply Hk].
  destruct (_ >=? _); [|now apply Hk].
  apply try_same; [exact Hw|]. intros cur.
  apply request_same; [exact Hw|]. intros page w1' w2' Hw'. now apply Hk.
Qed.

Lemma refill_closed_same s w1 w2 k1 k2 :
  same_but_archive w1 w2 ->
  (forall s' w1' w2',
     same_but_archive w1' w2' -> same_run (k1 s' w1') (k2 s' w2')) ->
  same_run (refill_closed parse_reviews b s w1 k1)
    (refill_closed parse_reviews b s w2 k2).
Proof.
  intros Hw Hk. unfold refill_closed.
  destruct (reviews_closed s); [|now apply Hk].
  destruct (_ >=? _); [|now apply Hk].
  apply try_same; [exact Hw|]. intros cur.
  apply request_same; [exact Hw|]. intros page w1' w2' Hw'. now apply Hk.
Qed.

Lemma loop28_same fuel : forall s w1 w2,
  same_but_archive w1 w2 ->
  same_run (loop28 parse_reviews b from_ut fuel s w1)
    (loop28 parse_reviews b from_ut fuel s w2).
Proof.
  induction fuel as [|fuel IH]; intros s w1 w2 Hw; cbn [loop28];
    [now apply stop_same|].
  destruct (pop28 s) as [[review s1]|]; [|now apply stop_same].
  destruct (Qle_bool _ _); [now apply stop_same|].
  apply yield_same. apply refill_open_same; [exact Hw|]. intros s2 u1 u2 Hu.
  apply refill_closed_same; [exact Hu|]. intros s3 v1 v2 Hv. now apply IH.
Qed.

Lemma loop_same fuel : forall s w1 w2,
  same_but_archive w1 w2 ->
  same_run (loop parse_reviews b from_ut fuel s w1)
    (loop parse_reviews b from_ut fuel s w2).
Proof.
  induction fuel as [|fuel IH]; intros s w1 w2 Hw; cbn [loop];
    [now apply stop_same|].
  destruct (reviews s) as [|review reviews']; [now apply stop_same|].
  destruct (Qle_bool _ _); [now apply stop_same|].
  apply yield_same. destruct reviews'; [|now apply IH].
  destruct (_ >=? _); [|now apply IH].
  apply try_same; [exact Hw|]. intros cur.
  apply request_same; [exact Hw|]. intros page u1 u2 Hu. now apply IH.
Qed.

End Transparent.

(** X20. Recording does not change a fetch. A fetch that runs its
    commands yields the same reviews, receives the same pages, ends in the
    same way, runs the same commands and sleeps as long, whether or not an
    archive is configured and whatever the archive holds: the archive is
    written, never read. *)
Theorem recording_is_transparent :
  forall parse_reviews b from_ut fuel w1 w2,
    GerritClient.from_archive (Gerrit.client b) = false ->
    same_but_archive w1 w2 ->
    same_run (Gerrit.fetch_items parse_reviews b from_ut fuel w1)
      (Gerrit.fetch_items parse_reviews b from_ut fuel w2).
Proof.
  intros parse_reviews b from_ut fuel w1 w2 Hremote Hw.
  unfold Gerrit.fetch_items, Gerrit._fetch_gerrit28, Gerrit._fetch_gerrit.
  destruct (_ && _).
  - apply try_same; [exact Hw|]. intros o.
    apply try_same; [exact Hw|]. intros c.
    apply request_same; [exact Hremote | exact Hw |]. intros po u1 u2 Hu.
    apply request_same; [exact Hremote | exact Hu |]. intros pc v1 v2 Hv.
    now apply loop28_same.
  - apply try_same; [exact Hw|]. intros o.
    apply request_same; [exact Hremote | exact Hw |]. intros p u1 u2 Hu.
    now apply loop_same.
Qed.

Lemma recording_is_transparent_witness :
  same_run
    (Gerrit.fetch_items walk_parse (walk_backend "alice" false) 0%Q 4 walk_world)
    (Gerrit.fetch_items walk_parse (walk_backend "alice" false) 0%Q 4
       (without_archive walk_world)).
Proof.
  apply (recording_is_transparent walk_parse (walk_backend "alice" false) 0%Q
           4%nat walk_world (without_archive walk_world)).
  - reflexivity.
  - repeat split.
Defined.

(** ** The cost of a walk of events *)

Section EventsCost.

Import MeetupClient.

Variable server : Api.query -> result Api.response.
Variable strptime : string -> result Z.
Variable c : client.
Variable group : string.
Variable from_date : Z.
Variable date : Api.event_date -> Z.
Variable details : Api.event_date -> Api.event.

Abbreviation entry_known := (known server strptime from_date date details).

Lemma for_edges_cost edges : forall w after k,
  wait_passes c w ->
  Forall entry_known edges ->
  (forall w', wait_passes c w' ->
     nreq (mfinal (drain (after w'))) = (nreq w' + k)%nat) ->
  nreq (mfinal (drain (for_edges (stable server) strptime c from_date edges
                         w after)))
  = (nreq w + length (expanded date details from_date edges) + k)%nat.
Proof.
  induction edges as [|node edges IH]; intros w after k Hw Hknown Hafter;
    cbn [for_edges].
  - rewrite Hafter by assumption. cbn. lia.
  - inversion Hknown as [|? ? [Hdate Hdetails] Hrest]; subst.
    rewrite Hdate. unfold expanded. cbn [List.filter].
    destruct (date node >? from_date) eqn:Hnew.
    + unfold event, bindM.
      destruct (fetch_passes (stable server) c (Api.QEvent (Api.node_id node))
                  w Hw) as (w1 & -> & Hreq & Hw1).
      unfold stable at 1. rewrite Hdetails by lia.
      cbn [ret drain mfinal myield map length].
      rewrite (IH w1 after k Hw1 Hrest Hafter), Hreq. unfold expanded. lia.
    + now apply IH.
Qed.

Lemma events_loop_last_type_cost pages : forall cursor fuel w,
  events_chain server group (max_items c) VFUTURE_EVENTS cursor pages ->
  wait_passes c w ->
  Forall entry_known (entries pages) ->
  (length pages <= fuel)%nat ->
  nreq (mfinal (drain (events_loop (stable server) strptime c fuel group
                         from_date 1 VFUTURE_EVENTS cursor w)))
  = (nreq w + length pages
     + length (expanded date details from_date (entries pages)))%nat.
Proof.
  induction pages as [|page pages IH]; intros cursor fuel w Hchain Hw Hknown Hfuel;
    [inversion Hchain|].
  destruct fuel as [|fuel]; [cbn in Hfuel; lia|]. cbn [events_loop].
  destruct (fetch_passes (stable server) c
              (Api.QGroupEvents group VFUTURE_EVENTS (max_items c) (quote cursor))
              w Hw) as (w1 & -> & Hreq & Hw1).
  unfold stable at 1. unfold entries in *. cbn [map concat] in *.
  apply Forall_app in Hknown as [Hpage Hrest].
  unfold expanded. rewrite List.filter_app, map_app, length_app.
  inversion Hchain as [? ? Hanswer Hlast|? ? ? Hanswer Hnext Hmore]; subst;
    rewrite Hanswer.
  - rewrite (for_edges_cost _ w1 _ 0%nat Hw1 Hpage).
    + unfold expanded, entries. cbn. lia.
    + intros w' Hw'. rewrite Hlast. cbn. lia.
  - rewrite (for_edges_cost _ w1 _
               (length pages
                + length (expanded date details from_date
                            (concat (map Api.events_edges pages))))%nat
               Hw1 Hpage).
    + unfold expanded, entries. cbn [length]. lia.
    + intros w' Hw'. rewrite Hnext.
      rewrite (IH _ fuel w' Hmore Hw' Hrest) by (cbn in Hfuel; lia). lia.
Qed.

Lemma events_loop_first_type_cost past : forall upcoming cursor fuel w,
  events_chain server group (max_items c) VPAST_EVENTS cursor past ->
  events_chain server group (max_items c) VFUTURE_EVENTS "null" upcoming ->
  wait_passes c w ->
  Forall entry_known (entries past) ->
  Forall entry_known (entries upcoming) ->
  (length past + length upcoming <= fuel)%nat ->
  nreq (mfinal (drain (events_loop (stable server) strptime c fuel group
                         from_date 0 VPAST_EVENTS cursor w)))
  = (nreq w + (length past + length upcoming)
     + (length (expanded date details from_date (entries past))
        + length (expanded date details from_date (entries upcoming))))%nat.
Proof.
  induction past as [|page past IH];
    intros upcoming cursor fuel w Hpast Hupcoming Hw Hk1 Hk2 Hfuel;
    [inversion Hpast|].
  destruct fuel as [|fuel]; [cbn in Hfuel; lia|]. cbn [events_loop].
  destruct (fetch_passes (stable server) c
              (Api.QGroupEvents group VPAST_EVENTS (max_items c) (quote cursor))
              w Hw) as (w1 & -> & Hreq & Hw1).
  unfold stable at 1. unfold entries in Hk1 |- *. cbn [map concat] in Hk1 |- *.
  apply Forall_app in Hk1 as [Hpage Hrest].
  unfold expanded at 1. rewrite List.filter_app, map_app, length_app.
  inversion Hpast as [? ? Hanswer Hlast|? ? ? Hanswer Hnext Hmore]; subst;
    rewrite Hanswer.
  - rewrite (for_edges_cost _ w1 _
               (length upcoming
                + length (expanded date details from_date (entries upcoming)))%nat
               Hw1 Hpage).
    + unfold expanded, entries. cbn. lia.
    + intros w' Hw'. rewrite Hlast.
      cbn [length VEVENT_TYPES Nat.sub Nat.ltb Nat.leb nth].
      rewrite (events_loop_last_type_cost upcoming "null" fuel w' Hupcoming Hw'
                 Hk2) by (cbn in Hfuel; lia).
      unfold entries. lia.
  - rewrite (for_edges_cost _ w1 _
               ((length past + length upcoming)
                + (length (expanded date details from_date
                             (concat (map Api.events_edges past)))
                   + length (expanded date details from_date
                               (entries upcoming))))%nat
               Hw1 Hpage).
    + unfold expanded, entries. cbn [length]. lia.
    + intros w' Hw'. rewrite Hnext.
      rewrite (IH upcoming _ fuel w' Hmore Hupcoming Hw' Hrest Hk2)
        by (cbn in Hfuel; lia).
      unfold entries. lia.
Qed.

End EventsCost.

(** X21. What a walk of events costs. Under the assumptions of the walk
    (a server that answers in the same way whenever asked, and the two
    listings as chains of pages), the walk sends one request for each page
    of the two listings and one more for each entry dated after
    [from_date], and no other: an entry at or before [from_date] costs
    nothing, but the two listings are walked to their end whatever
    [from_date] is. *)
Theorem events_walk_cost :
  forall server strptime c group from_date date details past upcoming fuel w,
    wait_passes c w ->
    events_chain server group (MeetupClient.max_items c)
      MeetupClient.VPAST_EVENTS "null" past ->
    events_chain server group (MeetupClient.max_items c)
      MeetupClient.VFUTURE_EVENTS "null" upcoming ->
    Forall (known server strptime from_date date details)
      (entries past ++ entries upcoming) ->
    (length past + length upcoming <= fuel)%nat ->
    nreq (mfinal (drain (MeetupClient.events (stable server) strptime c fuel
                           group from_date w)))
    = (nreq w + (length past + length upcoming)
       + length (expanded date details from_date
                   (entries past ++ entries upcoming)))%nat.
Proof.
  intros server strptime c group from_date date details past upcoming fuel w
    Hw Hpast Hupcoming Hknown Hfuel.
  apply Forall_app in Hknown as [Hk1 Hk2].
  unfold MeetupClient.events.
  etrans;
    [apply (events_loop_first_type_cost server strptime c group from_date date
              details past upcoming "null" fuel w); assumption|].
  unfold expanded. now rewrite List.filter_app, map_app, length_app.
Qed.

Lemma events_walk_cost_witness :
  nreq (mfinal (drain (MeetupClient.events (stable (example_http 0))
                         example_strptime (example_meetup_client "secret") 2
                         "perceval" 0 fresh_mworld))) = 3%nat
  /\ nreq (mfinal (drain (MeetupClient.events (stable (example_http 0))
                            example_strptime (example_meetup_client "secret") 2
                            "perceval" 1620145800 fresh_mworld))) = 2%nat.
Proof.
  split.
  - apply (events_walk_cost (example_http 0) example_strptime
             (example_meetup_client "secret") "perceval" 0
             (fun _ => 1620145800) example_details
             [example_past_page] [example_upcoming_page] 2%nat fresh_mworld).
    + right. reflexivity.
    + apply events_last; reflexivity.
    + apply events_last; reflexivity.
    + repeat constructor.
    + cbn. lia.
  - apply (events_walk_cost (example_http 0) example_strptime
             (example_meetup_client "secret") "perceval" 1620145800
             (fun _ => 1620145800) example_details
             [example_past_page] [example_upcoming_page] 2%nat fresh_mworld).
    + right. reflexivity.
    + apply events_last; reflexivity.
    + apply events_last; reflexivity.
    + repeat constructor.
    + cbn. lia.
Defined.
